(** * GraphBLAS: global state, generated kernels, pending queue, test
      harness and PageRank demo, embedded and verified.

    Each module below embeds one source file:
    - [Double]   : the C [double] comparisons the sources rely on;
    - [Global]   : Source/GB_Global.c;
    - [Unop]     : Source/Generated/GB_unaryop__*.c;
    - [Pending]  : the queue of matrices with pending tuples and GrB_wait;
    - [MexAxB]   : Test/GB_mex_AxB.c;
    - [PageRank] : Demo/Source/dpagerank2.c;
    and these go on with the same files, or add one:
    - [GlobalCounters] : the counters and the round trips of GB_Global.c;
    - [UnopArrays]     : the kernels on whole arrays, in place or not;
    - [PageRankDemo]   : the scalar operators, the iteration and the
                         failures of dpagerank2.c;
    - [MexAxBPaths]    : the early exits and the clean-up of GB_mex_AxB.c;
    - [MexAlias]       : Test/GB_mex_mxm_alias.c. *)

From stdpp Require Import gmap list strings sorting.
From Stdlib Require Import ZArith Lia Floats Sorted Permutation.

(** ** C [double] values

    A [double] is a binary64 float, Rocq's primitive [float].  The
    functions embedded below compare, clamp and sort doubles; the scalar
    operators of the PageRank demo also add, subtract and multiply them,
    with the primitive operations. *)
Module Double.

Abbreviation double := float.

(** C99 [fmax]: when one argument is a NaN the other one is returned. *)
Definition fmax (x y : double) : double :=
  if is_nan x then y
  else if is_nan y then x
  else if (x <? y)%float then y else x.

(** [a > b], [a == b] of C on doubles. *)
Definition gt (a b : double) : bool := (b <? a)%float.
Definition eq (a b : double) : bool := (a =? b)%float.

(** A double that is not a NaN and not below zero. *)
Definition nonneg (x : double) : bool := (0 <=? x)%float.

(** Comparison of two specified floats, swapped. *)
Lemma SFcompare_swap (x y : spec_float) :
  SFcompare y x = option_map CompOpp (SFcompare x y).
Proof.
  destruct x as [sx|sx| |sx mx ex], y as [sy|sy| |sy my ey]; simpl;
    try reflexivity;
    try (destruct sx; reflexivity);
    try (destruct sy; reflexivity);
    try (destruct sx, sy; reflexivity).
  destruct sx, sy; simpl; try reflexivity;
    rewrite (Z.compare_antisym ex ey);
    destruct (ex ?= ey)%Z; simpl; try reflexivity;
    change (Pos.compare_cont Eq my mx) with (Pos.compare my mx);
    change (Pos.compare_cont Eq mx my) with (Pos.compare mx my);
    rewrite (Pos.compare_antisym mx my);
    destruct (mx ?= my)%positive; reflexivity.
Qed.

(** A specified float compares with itself unless it is a NaN. *)
Lemma SFcompare_refl (x : spec_float) :
  SFcompare x x = None \/ SFcompare x x = Some Eq.
Proof.
  destruct x as [s|s| |s m e]; simpl; auto; right.
  - destruct s; reflexivity.
  - destruct s; rewrite Z.compare_refl;
      change (Pos.compare_cont Eq m m) with (Pos.compare m m);
      rewrite Pos.compare_refl; reflexivity.
Qed.

(** The order behind [SFcompare] is transitive ([Gt] or [Eq] composes). *)
Lemma SFcompare_ge_trans (x y z : spec_float) :
  (SFcompare x y = Some Gt \/ SFcompare x y = Some Eq) ->
  (SFcompare y z = Some Gt \/ SFcompare y z = Some Eq) ->
  (SFcompare x z = Some Gt \/ SFcompare x z = Some Eq).
Proof.
  destruct x as [sx|sx| |sx mx ex], y as [sy|sy| |sy my ey],
           z as [sz|sz| |sz mz ez]; simpl;
    try solve [intros [?|?] [?|?]; discriminate || auto];
    try solve [destruct sx; intros [?|?] [?|?]; discriminate || auto];
    try solve [destruct sy; intros [?|?] [?|?]; discriminate || auto];
    try solve [destruct sz; intros [?|?] [?|?]; discriminate || auto];
    try solve [destruct sx, sy; intros [?|?] [?|?]; discriminate || auto];
    try solve [destruct sx, sz; intros [?|?] [?|?]; discriminate || auto];
    try solve [destruct sy, sz; intros [?|?] [?|?]; discriminate || auto];
    try solve [destruct sx, sy, sz; intros [?|?] [?|?];
               discriminate || auto].
  change (Pos.compare_cont Eq mx my) with (Pos.compare mx my).
  change (Pos.compare_cont Eq my mz) with (Pos.compare my mz).
  change (Pos.compare_cont Eq mx mz) with (Pos.compare mx mz).
  destruct sx, sy, sz; simpl;
    try (intros [?|?] [?|?]; discriminate); auto;
    destruct (Z.compare_spec ex ey), (Z.compare_spec ey ez),
             (Z.compare_spec ex ez);
    destruct (Pos.compare_spec mx my), (Pos.compare_spec my mz),
             (Pos.compare_spec mx mz); simpl;
    intros [?|?] [?|?]; try discriminate; auto; exfalso; lia.
Qed.

(** [is_nan] is the failure of the comparison of a double with itself. *)
Lemma is_nan_compare (x : double) :
  is_nan x = false <-> SFcompare (Prim2SF x) (Prim2SF x) = Some Eq.
Proof.
  unfold is_nan. rewrite eqb_spec. unfold SFeqb.
  destruct (SFcompare_refl (Prim2SF x)) as [H|H]; rewrite H; simpl;
    split; congruence.
Qed.

(** Two doubles that are not NaNs always compare. *)
Lemma compare_defined (x y : double) :
  is_nan x = false -> is_nan y = false ->
  exists c, SFcompare (Prim2SF x) (Prim2SF y) = Some c.
Proof.
  rewrite !is_nan_compare.
  destruct (Prim2SF x) as [sx|sx| |sx mx ex],
           (Prim2SF y) as [sy|sy| |sy my ey]; simpl;
    intros Hx Hy; try discriminate; eauto.
Qed.

(** Away from NaNs, [x < y] fails exactly when [y <= x]. *)
Lemma ltb_false_leb (x y : double) :
  is_nan x = false -> is_nan y = false ->
  (x <? y)%float = false -> (y <=? x)%float = true.
Proof.
  intros Hx Hy. rewrite ltb_spec, leb_spec. unfold SFltb, SFleb.
  rewrite (SFcompare_swap (Prim2SF x) (Prim2SF y)).
  destruct (compare_defined x y Hx Hy) as [c ->].
  destruct c; simpl; congruence.
Qed.

Lemma ltb_leb (x y : double) :
  (x <? y)%float = true -> (x <=? y)%float = true.
Proof.
  rewrite ltb_spec, leb_spec. unfold SFltb, SFleb.
  destruct (SFcompare (Prim2SF x) (Prim2SF y)) as [[]|]; congruence.
Qed.

Lemma leb_refl (x : double) : is_nan x = false -> (x <=? x)%float = true.
Proof.
  rewrite is_nan_compare, leb_spec. unfold SFleb. now intros ->.
Qed.

(** A comparison that holds has no NaN operand. *)
Lemma leb_not_nan (x y : double) :
  (x <=? y)%float = true -> is_nan x = false /\ is_nan y = false.
Proof.
  rewrite leb_spec, !is_nan_compare. unfold SFleb.
  destruct (Prim2SF x) as [sx|sx| |sx mx ex],
           (Prim2SF y) as [sy|sy| |sy my ey]; simpl;
    try discriminate; intros _; split;
    repeat match goal with
           | |- context [match ?b with true => _ | false => _ end] =>
               is_var b; destruct b
           end; try reflexivity;
    rewrite Z.compare_refl, Pos.compare_cont_refl; reflexivity.
Qed.

(** [fmax x y] is never below a [y] that is not a NaN. *)
Lemma fmax_ge_r (x y : double) :
  is_nan y = false -> (y <=? fmax x y)%float = true.
Proof.
  intros Hy. unfold fmax. destruct (is_nan x) eqn:Hx.
  - now apply leb_refl.
  - rewrite Hy. destruct (x <? y)%float eqn:Hlt.
    + now apply leb_refl.
    + now apply ltb_false_leb.
Qed.

(** [fmax x y] is [x] when [y <= x]... *)
Lemma fmax_l (x y : double) :
  (y <=? x)%float = true -> fmax x y = x.
Proof.
  intros H. destruct (leb_not_nan _ _ H) as [Hy Hx].
  unfold fmax. rewrite Hx, Hy.
  destruct (x <? y)%float eqn:Hlt; [|reflexivity].
  exfalso. revert H Hlt. rewrite leb_spec, ltb_spec. unfold SFleb, SFltb.
  rewrite (SFcompare_swap (Prim2SF x) (Prim2SF y)).
  destruct (SFcompare (Prim2SF x) (Prim2SF y)) as [[]|]; simpl; congruence.
Qed.

(** Order of doubles: [<=] is transitive. *)
Lemma leb_trans (x y z : double) :
  (x <=? y)%float = true -> (y <=? z)%float = true -> (x <=? z)%float = true.
Proof.
  rewrite !leb_spec. unfold SFleb.
  rewrite (SFcompare_swap (Prim2SF y) (Prim2SF x)).
  rewrite (SFcompare_swap (Prim2SF z) (Prim2SF y)).
  rewrite (SFcompare_swap (Prim2SF z) (Prim2SF x)).
  intros H1 H2.
  assert (G := SFcompare_ge_trans (Prim2SF z) (Prim2SF y) (Prim2SF x)).
  destruct (SFcompare (Prim2SF z) (Prim2SF y)) as [[]|]; try discriminate;
  destruct (SFcompare (Prim2SF y) (Prim2SF x)) as [[]|]; try discriminate;
  (destruct G as [G|G]; [auto|auto| |]); rewrite G; reflexivity.
Qed.

(** [b <= a] is [a > b] or [a == b]. *)
Lemma leb_gt_eq (a b : double) :
  (b <=? a)%float = true <-> gt a b = true \/ eq a b = true.
Proof.
  unfold gt, eq. rewrite leb_spec, ltb_spec, eqb_spec.
  unfold SFleb, SFltb, SFeqb.
  rewrite (SFcompare_swap (Prim2SF b) (Prim2SF a)).
  destruct (SFcompare (Prim2SF b) (Prim2SF a)) as [[]|]; simpl;
    intuition congruence.
Qed.

(** Two doubles that are not NaNs are ordered one way or the other. *)
Lemma leb_total (a b : double) :
  is_nan a = false -> is_nan b = false ->
  (a <=? b)%float = true \/ (b <=? a)%float = true.
Proof.
  intros Ha Hb. destruct (a <? b)%float eqn:Hlt.
  - left. now apply ltb_leb.
  - right. now apply ltb_false_leb.
Qed.


End Double.

(** ** Source/GB_Global.c: the global storage and its access functions *)
Module Global.
Import Double.
Local Open Scope Z_scope.

(** [GrB_Mode]: the two execution modes. *)
Inductive GrB_Mode := GrB_NONBLOCKING | GrB_BLOCKING.

(** The address held by a function pointer of the struct: one of the ANSI C
    library functions the initializer names, or a function of the user. *)
Inductive fnptr :=
  | ansi_abort | ansi_malloc | ansi_calloc | ansi_realloc | ansi_free
  | user_function (addr : N).

(** A [void *]: [NULL] or the address of a block. *)
Inductive pointer := NULL | Block (addr : N).

(** C [int] and [int64_t] values, with the wrap-around of the two's
    complement representation written out for the counters. *)
Definition INT_MIN : Z := - 2 ^ 31.
Definition INT_MAX : Z := 2 ^ 31 - 1.
Definition int_range (v : Z) : Prop := INT_MIN <= v <= INT_MAX.
Definition wrap64 (v : Z) : Z := (v + 2 ^ 63) mod 2 ^ 64 - 2 ^ 63.

(** Modelled from the spec: [GB_IMAX], a macro of GB.h, which is outside
    the files embedded here: the larger of two integers, by which "the
    thread-count ceiling" never goes below one thread. *)
Definition GB_IMAX (x y : Z) : Z := if x >? y then x else y.

(** [GB_Global_struct], field by field. *)
Record GB_Global_struct := {
  queue_head : pointer;
  mode : GrB_Mode;
  GrB_init_called : bool;
  nthreads_max : Z;
  chunk : double;
  hyper_ratio : double;
  is_csc : bool;
  abort_function : fnptr;
  malloc_function : fnptr;
  calloc_function : fnptr;
  realloc_function : fnptr;
  free_function : fnptr;
  malloc_is_thread_safe : bool;
  malloc_tracking : bool;
  nmalloc : Z;
  malloc_debug : bool;
  malloc_debug_count : Z;
  inuse : Z;
  maxused : Z;
  hack : Z;
  burble : bool;
  print_one_based : bool;
  print_format : Z
}.

(** The operations a caller can perform on the global storage: one
    constructor per access function that writes a field. *)
Inductive op :=
  | queue_head_set (p : pointer)
  | mode_set (m : GrB_Mode)
  | GrB_init_called_set (b : bool)
  | nthreads_max_set (n : Z)
  | chunk_set (c : double)
  | hyper_ratio_set (h : double)
  | is_csc_set (b : bool)
  | abort_function_set (f : fnptr)
  | malloc_function_set (f : fnptr)
  | calloc_function_set (f : fnptr)
  | realloc_function_set (f : fnptr)
  | free_function_set (f : fnptr)
  | malloc_is_thread_safe_set (b : bool)
  | malloc_tracking_set (b : bool)
  | nmalloc_clear
  | nmalloc_increment
  | nmalloc_decrement
  | malloc_debug_set (b : bool)
  | malloc_debug_count_set (n : Z)
  | malloc_debug_count_decrement
  | inuse_clear
  | inuse_increment (s : Z)
  | inuse_decrement (s : Z)
  | hack_set (h : Z)
  | burble_set (b : bool)
  | print_one_based_set (b : bool)
  | print_format_set (f : Z).

(** Whether an operation replaces a part of the allocator function set. *)
Definition replaces_allocator (o : op) : bool :=
  match o with
  | malloc_function_set _ | calloc_function_set _ | realloc_function_set _
  | free_function_set _ | malloc_is_thread_safe_set _ => true
  | _ => false
  end.

Section WithConstants.

(** Constants of GB.h and GraphBLAS.h, taken as parameters: the default
    chunk size and hypersparsity ratio, the [GxB_DEFAULT] enum value as the
    [double] it is compared with, and whether
    [GB_FORMAT_DEFAULT != GxB_BY_ROW]. *)
Variable GB_CHUNK_DEFAULT : double.
Variable GB_HYPER_DEFAULT : double.
Variable GxB_DEFAULT : double.
Variable GB_FORMAT_DEFAULT_not_by_row : bool.

(** The initializer of [GB_Global]. *)
Definition GB_Global : GB_Global_struct := {|
  queue_head := NULL;
  mode := GrB_NONBLOCKING;
  GrB_init_called := false;
  nthreads_max := 1;
  chunk := GB_CHUNK_DEFAULT;
  hyper_ratio := GB_HYPER_DEFAULT;
  is_csc := GB_FORMAT_DEFAULT_not_by_row;
  abort_function := ansi_abort;
  malloc_function := ansi_malloc;
  calloc_function := ansi_calloc;
  realloc_function := ansi_realloc;
  free_function := ansi_free;
  malloc_is_thread_safe := true;
  malloc_tracking := false;
  nmalloc := 0;
  malloc_debug := false;
  malloc_debug_count := 0;
  inuse := 0;
  maxused := 0;
  hack := 0;
  burble := false;
  print_one_based := false;
  print_format := 0
|}.

(** *** Setters: each returns the storage after the call *)

Definition GB_Global_queue_head_set (p : pointer) (g : GB_Global_struct) :=
  let 'Build_GB_Global_struct _ a b c d e f h i j k l m n o q r s t u v w x := g in
  Build_GB_Global_struct p a b c d e f h i j k l m n o q r s t u v w x.

Definition GB_Global_mode_set (md : GrB_Mode) (g : GB_Global_struct) :=
  let 'Build_GB_Global_struct z _ b c d e f h i j k l m n o q r s t u v w x := g in
  Build_GB_Global_struct z md b c d e f h i j k l m n o q r s t u v w x.

Definition GB_Global_GrB_init_called_set (ic : bool) (g : GB_Global_struct) :=
  let 'Build_GB_Global_struct z a _ c d e f h i j k l m n o q r s t u v w x := g in
  Build_GB_Global_struct z a ic c d e f h i j k l m n o q r s t u v w x.

Definition GB_Global_nthreads_max_set (nt : Z) (g : GB_Global_struct) :=
  let 'Build_GB_Global_struct z a b _ d e f h i j k l m n o q r s t u v w x := g in
  Build_GB_Global_struct z a b (GB_IMAX nt 1) d e f h i j k l m n o q r s t u v w x.

Definition GB_Global_chunk_set (ch : double) (g : GB_Global_struct) :=
  let ch := if (ch <=? GxB_DEFAULT)%float then GB_CHUNK_DEFAULT else ch in
  let 'Build_GB_Global_struct z a b c _ e f h i j k l m n o q r s t u v w x := g in
  Build_GB_Global_struct z a b c (fmax ch 1) e f h i j k l m n o q r s t u v w x.

Definition GB_Global_hyper_ratio_set (hr : double) (g : GB_Global_struct) :=
  let 'Build_GB_Global_struct z a b c d _ f h i j k l m n o q r s t u v w x := g in
  Build_GB_Global_struct z a b c d hr f h i j k l m n o q r s t u v w x.

Definition GB_Global_is_csc_set (csc : bool) (g : GB_Global_struct) :=
  let 'Build_GB_Global_struct z a b c d e _ h i j k l m n o q r s t u v w x := g in
  Build_GB_Global_struct z a b c d e csc h i j k l m n o q r s t u v w x.

Definition GB_Global_abort_function_set (fp : fnptr) (g : GB_Global_struct) :=
  let 'Build_GB_Global_struct z a b c d e f _ i j k l m n o q r s t u v w x := g in
  Build_GB_Global_struct z a b c d e f fp i j k l m n o q r s t u v w x.

Definition GB_Global_malloc_function_set (fp : fnptr) (g : GB_Global_struct) :=
  let 'Build_GB_Global_struct z a b c d e f h _ j k l m n o q r s t u v w x := g in
  Build_GB_Global_struct z a b c d e f h fp j k l m n o q r s t u v w x.

Definition GB_Global_calloc_function_set (fp : fnptr) (g : GB_Global_struct) :=
  let 'Build_GB_Global_struct z a b c d e f h i _ k l m n o q r s t u v w x := g in
  Build_GB_Global_struct z a b c d e f h i fp k l m n o q r s t u v w x.

Definition GB_Global_realloc_function_set (fp : fnptr) (g : GB_Global_struct) :=
  let 'Build_GB_Global_struct z a b c d e f h i j _ l m n o q r s t u v w x := g in
  Build_GB_Global_struct z a b c d e f h i j fp l m n o q r s t u v w x.

Definition GB_Global_free_function_set (fp : fnptr) (g : GB_Global_struct) :=
  let 'Build_GB_Global_struct z a b c d e f h i j k _ m n o q r s t u v w x := g in
  Build_GB_Global_struct z a b c d e f h i j k fp m n o q r s t u v w x.

Definition GB_Global_malloc_is_thread_safe_set (ts : bool) (g : GB_Global_struct) :=
  let 'Build_GB_Global_struct z a b c d e f h i j k l _ n o q r s t u v w x := g in
  Build_GB_Global_struct z a b c d e f h i j k l ts n o q r s t u v w x.

Definition GB_Global_malloc_tracking_set (tr : bool) (g : GB_Global_struct) :=
  let 'Build_GB_Global_struct z a b c d e f h i j k l m _ o q r s t u v w x := g in
  Build_GB_Global_struct z a b c d e f h i j k l m tr o q r s t u v w x.

Definition set_nmalloc (nm : Z) (g : GB_Global_struct) :=
  let 'Build_GB_Global_struct z a b c d e f h i j k l m n _ q r s t u v w x := g in
  Build_GB_Global_struct z a b c d e f h i j k l m n nm q r s t u v w x.

Definition GB_Global_nmalloc_clear (g : GB_Global_struct) := set_nmalloc 0 g.

(** [++(GB_Global.nmalloc)] and [--(GB_Global.nmalloc)]: the new value is
    returned with the storage. *)
Definition GB_Global_nmalloc_increment (g : GB_Global_struct) :=
  let v := wrap64 (nmalloc g + 1) in (v, set_nmalloc v g).

Definition GB_Global_nmalloc_decrement (g : GB_Global_struct) :=
  let v := wrap64 (nmalloc g - 1) in (v, set_nmalloc v g).

Definition GB_Global_malloc_debug_set (db : bool) (g : GB_Global_struct) :=
  let 'Build_GB_Global_struct z a b c d e f h i j k l m n o _ r s t u v w x := g in
  Build_GB_Global_struct z a b c d e f h i j k l m n o db r s t u v w x.

Definition GB_Global_malloc_debug_count_set (dc : Z) (g : GB_Global_struct) :=
  let 'Build_GB_Global_struct z a b c d e f h i j k l m n o q _ s t u v w x := g in
  Build_GB_Global_struct z a b c d e f h i j k l m n o q dc s t u v w x.

(** [GB_Global.malloc_debug_count-- <= 0]: the test is on the old value. *)
Definition GB_Global_malloc_debug_count_decrement (g : GB_Global_struct) :=
  (malloc_debug_count g <=? 0,
   GB_Global_malloc_debug_count_set (wrap64 (malloc_debug_count g - 1)) g).

Definition set_inuse (iu mu : Z) (g : GB_Global_struct) :=
  let 'Build_GB_Global_struct z a b c d e f h i j k l m n o q r _ _ u v w x := g in
  Build_GB_Global_struct z a b c d e f h i j k l m n o q r iu mu u v w x.

Definition GB_Global_inuse_clear (g : GB_Global_struct) := set_inuse 0 0 g.

Definition GB_Global_inuse_increment (s : Z) (g : GB_Global_struct) :=
  let iu := wrap64 (inuse g + s) in
  set_inuse iu (GB_IMAX (maxused g) iu) g.

Definition GB_Global_inuse_decrement (s : Z) (g : GB_Global_struct) :=
  set_inuse (wrap64 (inuse g - s)) (maxused g) g.

Definition GB_Global_hack_set (hk : Z) (g : GB_Global_struct) :=
  let 'Build_GB_Global_struct z a b c d e f h i j k l m n o q r s t _ v w x := g in
  Build_GB_Global_struct z a b c d e f h i j k l m n o q r s t hk v w x.

Definition GB_Global_burble_set (bu : bool) (g : GB_Global_struct) :=
  let 'Build_GB_Global_struct z a b c d e f h i j k l m n o q r s t u _ w x := g in
  Build_GB_Global_struct z a b c d e f h i j k l m n o q r s t u bu w x.

Definition GB_Global_print_one_based_set (ob : bool) (g : GB_Global_struct) :=
  let 'Build_GB_Global_struct z a b c d e f h i j k l m n o q r s t u v _ x := g in
  Build_GB_Global_struct z a b c d e f h i j k l m n o q r s t u v ob x.

Definition GB_Global_print_format_set (pf : Z) (g : GB_Global_struct) :=
  let 'Build_GB_Global_struct z a b c d e f h i j k l m n o q r s t u v w _ := g in
  Build_GB_Global_struct z a b c d e f h i j k l m n o q r s t u v w pf.

(** *** Getters *)

Definition GB_Global_queue_head_get (g : GB_Global_struct) := queue_head g.
Definition GB_Global_mode_get (g : GB_Global_struct) := mode g.
Definition GB_Global_GrB_init_called_get (g : GB_Global_struct) := GrB_init_called g.
Definition GB_Global_nthreads_max_get (g : GB_Global_struct) := nthreads_max g.
Definition GB_Global_chunk_get (g : GB_Global_struct) := chunk g.
Definition GB_Global_hyper_ratio_get (g : GB_Global_struct) := hyper_ratio g.
Definition GB_Global_is_csc_get (g : GB_Global_struct) := is_csc g.
Definition GB_Global_malloc_is_thread_safe_get (g : GB_Global_struct) :=
  malloc_is_thread_safe g.
Definition GB_Global_malloc_tracking_get (g : GB_Global_struct) := malloc_tracking g.
Definition GB_Global_nmalloc_get (g : GB_Global_struct) := nmalloc g.
Definition GB_Global_malloc_debug_get (g : GB_Global_struct) := malloc_debug g.
Definition GB_Global_inuse_get (g : GB_Global_struct) := inuse g.
Definition GB_Global_maxused_get (g : GB_Global_struct) := maxused g.
Definition GB_Global_hack_get (g : GB_Global_struct) := hack g.
Definition GB_Global_burble_get (g : GB_Global_struct) := burble g.
Definition GB_Global_print_one_based_get (g : GB_Global_struct) := print_one_based g.
Definition GB_Global_print_format_get (g : GB_Global_struct) := print_format g.

(** One operation, and a sequence of them from left to right. *)
Definition step (g : GB_Global_struct) (o : op) : GB_Global_struct :=
  match o with
  | queue_head_set p => GB_Global_queue_head_set p g
  | mode_set m => GB_Global_mode_set m g
  | GrB_init_called_set b => GB_Global_GrB_init_called_set b g
  | nthreads_max_set n => GB_Global_nthreads_max_set n g
  | chunk_set c => GB_Global_chunk_set c g
  | hyper_ratio_set h => GB_Global_hyper_ratio_set h g
  | is_csc_set b => GB_Global_is_csc_set b g
  | abort_function_set f => GB_Global_abort_function_set f g
  | malloc_function_set f => GB_Global_malloc_function_set f g
  | calloc_function_set f => GB_Global_calloc_function_set f g
  | realloc_function_set f => GB_Global_realloc_function_set f g
  | free_function_set f => GB_Global_free_function_set f g
  | malloc_is_thread_safe_set b => GB_Global_malloc_is_thread_safe_set b g
  | malloc_tracking_set b => GB_Global_malloc_tracking_set b g
  | nmalloc_clear => GB_Global_nmalloc_clear g
  | nmalloc_increment => snd (GB_Global_nmalloc_increment g)
  | nmalloc_decrement => snd (GB_Global_nmalloc_decrement g)
  | malloc_debug_set b => GB_Global_malloc_debug_set b g
  | malloc_debug_count_set n => GB_Global_malloc_debug_count_set n g
  | malloc_debug_count_decrement => snd (GB_Global_malloc_debug_count_decrement g)
  | inuse_clear => GB_Global_inuse_clear g
  | inuse_increment s => GB_Global_inuse_increment s g
  | inuse_decrement s => GB_Global_inuse_decrement s g
  | hack_set h => GB_Global_hack_set h g
  | burble_set b => GB_Global_burble_set b g
  | print_one_based_set b => GB_Global_print_one_based_set b g
  | print_format_set f => GB_Global_print_format_set f g
  end.

Definition run (ops : list op) (g : GB_Global_struct) : GB_Global_struct :=
  fold_left step ops g.

End WithConstants.

(** *** The allocator wrappers

    [GB_Global_malloc_function] and its three siblings call through the
    function pointers of the storage.  What can be observed of a wrapper is
    the sequence of events it produces and the value it returns. *)

(** An argument of an allocator function: a [size_t] or a [void *]. *)
Inductive arg := Size (n : Z) | Ptr (p : pointer).

Inductive event :=
  | Enter_critical                      (* the critical section is entered *)
  | Call (f : fnptr) (args : list arg)  (* a call through a function pointer *)
  | Leave_critical.                     (* the critical section is left *)

(** A request for memory: which wrapper is called, on what. *)
Inductive request :=
  | Malloc (size : Z)
  | Calloc (count size : Z)
  | Realloc (p : pointer) (size : Z)
  | Free (p : pointer).

(** The function of the active allocator set that serves a request, and
    its arguments. *)
Definition callee (g : GB_Global_struct) (r : request) : fnptr * list arg :=
  match r with
  | Malloc size => (malloc_function g, [Size size])
  | Calloc count size => (calloc_function g, [Size count; Size size])
  | Realloc p size => (realloc_function g, [Ptr p; Size size])
  | Free p => (free_function g, [Ptr p])
  end.

Section Allocator.

(** The functions behind the pointers are external: [call f args h] is the
    pointer that [f] returns on [args] in the allocator state [h] (for a
    [void] function the value is ignored), with the state it leaves. *)
Variable heap : Type.
Variable call : fnptr -> list arg -> heap -> pointer * heap.

(** The world a wrapper runs in: the events so far and the allocator. *)
Definition world : Type := list event * heap.

(** Computations in the world. *)
Definition M (A : Type) : Type := world -> A * world.
Definition ret {A} (a : A) : M A := fun w => (a, w).
Definition bind {A B} (m : M A) (k : A -> M B) : M B :=
  fun w => let (a, w') := m w in k a w'.
Definition emit (e : event) : M unit :=
  fun w => (tt, (fst w ++ [e], snd w)).
Definition invoke (f : fnptr) (args : list arg) : M pointer :=
  fun w => let (p, h) := call f args (snd w) in
           (p, (fst w ++ [Call f args], h)).

Notation "x <- m ;; k" := (bind m (fun x => k))
  (at level 100, m at next level, right associativity).
Notation "m ;;; k" := (bind m (fun _ => k))
  (at level 100, right associativity).

(** Whether the synchronization behind the critical section works:
    [true] unless acquiring or releasing the lock fails. *)
Variable sync_ok : bool.

(** Modelled from the spec: the template GB_critical_section.c, which the
    four wrappers include and which is outside the files embedded here.
    The block [GB_CRITICAL_SECTION] runs inside the one critical section
    shared process-wide, and the variable [ok], which the wrappers declare
    for the template, is cleared when the synchronization failed. *)
Definition GB_critical_section {A} (ok : bool) (body : M A) : M (bool * A) :=
  emit Enter_critical ;;;
  a <- body ;;
  emit Leave_critical ;;;
  ret (ok && sync_ok, a).

Definition GB_Global_malloc_function (g : GB_Global_struct) (size : Z) : M pointer :=
  let ok := true in
  if malloc_is_thread_safe g then
    p <- invoke (malloc_function g) [Size size] ;;
    ret (if ok then p else NULL)
  else
    r <- GB_critical_section ok (invoke (malloc_function g) [Size size]) ;;
    ret (if fst r then snd r else NULL).

Definition GB_Global_calloc_function (g : GB_Global_struct) (count size : Z)
  : M pointer :=
  let ok := true in
  if malloc_is_thread_safe g then
    p <- invoke (calloc_function g) [Size count; Size size] ;;
    ret (if ok then p else NULL)
  else
    r <- GB_critical_section ok
           (invoke (calloc_function g) [Size count; Size size]) ;;
    ret (if fst r then snd r else NULL).

Definition GB_Global_realloc_function (g : GB_Global_struct) (p : pointer) (size : Z)
  : M pointer :=
  let ok := true in
  if malloc_is_thread_safe g then
    pnew <- invoke (realloc_function g) [Ptr p; Size size] ;;
    ret (if ok then pnew else NULL)
  else
    r <- GB_critical_section ok
           (invoke (realloc_function g) [Ptr p; Size size]) ;;
    ret (if fst r then snd r else NULL).

Definition GB_Global_free_function (g : GB_Global_struct) (p : pointer) : M unit :=
  if malloc_is_thread_safe g then
    invoke (free_function g) [Ptr p] ;;; ret tt
  else
    GB_critical_section true (invoke (free_function g) [Ptr p]) ;;; ret tt.

(** What a call to the active allocator set must look like from outside,
    for the function [f] applied to [args] from the world [w]: the events
    added, the value returned and the allocator state left. *)
Definition direct_call (f : fnptr) (args : list arg) (w : world) : pointer * world :=
  (fst (call f args (snd w)), (fst w ++ [Call f args], snd (call f args (snd w)))).

Definition serialized_call (f : fnptr) (args : list arg) (w : world) : pointer * world :=
  ((if sync_ok then fst (call f args (snd w)) else NULL),
   (fst w ++ [Enter_critical; Call f args; Leave_critical],
    snd (call f args (snd w)))).

(** A thread of the application asks for memory through the wrappers. *)
Definition serve (g : GB_Global_struct) (r : request) : M unit :=
  match r with
  | Malloc size => GB_Global_malloc_function g size ;;; ret tt
  | Calloc count size => GB_Global_calloc_function g count size ;;; ret tt
  | Realloc p size => GB_Global_realloc_function g p size ;;; ret tt
  | Free p => GB_Global_free_function g p
  end.

Fixpoint serve_all (g : GB_Global_struct) (rs : list request) : M unit :=
  match rs with
  | [] => ret tt
  | r :: rs' => serve g r ;;; serve_all g rs'
  end.

(** The events of a thread that makes the requests [rs], one after the
    other, with the allocator in the state [h] when it starts. *)
Definition events_of (g : GB_Global_struct) (rs : list request) (h : heap)
  : list event :=
  fst (snd (serve_all g rs ([], h))).

End Allocator.

(** *** Threads calling the wrappers at once

    Each thread goes through the events of its own calls, in order; the
    threads interleave.  A call through a function pointer takes time: it
    begins, and later it returns.  The critical section is the one
    [GB_critical_section] of the process: a thread enters it when no
    thread is inside, and then owns it until it leaves. *)
Record thread := {
  todo : list event;     (* the events still to come *)
  in_call : bool         (* inside the function called by the first one *)
}.

Record system := {
  threads : list thread;
  owner : option nat     (* the thread inside the critical section *)
}.

Inductive thread_step (i : nat) (o : option nat)
  : thread -> option nat -> thread -> Prop :=
  | step_enter rest :
      o = None ->
      thread_step i o {| todo := Enter_critical :: rest; in_call := false |}
        (Some i) {| todo := rest; in_call := false |}
  | step_call f args rest :
      thread_step i o {| todo := Call f args :: rest; in_call := false |}
        o {| todo := Call f args :: rest; in_call := true |}
  | step_return f args rest :
      thread_step i o {| todo := Call f args :: rest; in_call := true |}
        o {| todo := rest; in_call := false |}
  | step_leave rest :
      o = Some i ->
      thread_step i o {| todo := Leave_critical :: rest; in_call := false |}
        None {| todo := rest; in_call := false |}.

Inductive system_step : system -> system -> Prop :=
  | step_thread ts o i t o' t' :
      ts !! i = Some t ->
      thread_step i o t o' t' ->
      system_step {| threads := ts; owner := o |}
                  {| threads := <[i := t']> ts; owner := o' |}.

(** The threads at the start, one for each list of events. *)
Definition start (programs : list (list event)) : system :=
  {| threads := (fun p => {| todo := p; in_call := false |}) <$> programs;
     owner := None |}.

(** No two threads are inside a function of the allocator at once. *)
Definition one_call_at_a_time (s : system) : Prop :=
  forall i j ti tj,
    threads s !! i = Some ti -> threads s !! j = Some tj ->
    in_call ti = true -> in_call tj = true -> i = j.

(** Every call of a list of events lies between entering and leaving the
    critical section; [held] tells whether the list starts inside. *)
Fixpoint bracketed (held : bool) (l : list event) : bool :=
  match l with
  | [] => negb held
  | Enter_critical :: l' => negb held && bracketed true l'
  | Call _ _ :: l' => held && bracketed held l'
  | Leave_critical :: l' => held && bracketed false l'
  end.

(** *** Statements about the storage, and data to evaluate on *)

(** The allocator function set of a storage is the platform's one. *)
Definition platform_allocator (g : GB_Global_struct) : Prop :=
  malloc_function g = ansi_malloc /\
  calloc_function g = ansi_calloc /\
  realloc_function g = ansi_realloc /\
  free_function g = ansi_free /\
  malloc_is_thread_safe g = true.

(** The values the two clamped parameters hold are at least one. *)
Definition at_least_one (g : GB_Global_struct) : Prop :=
  1 <= GB_Global_nthreads_max_get g /\ (1 <=? GB_Global_chunk_get g)%float = true.

(** The events a request adds: the call alone, or the call inside the
    critical section. *)
Definition block (g : GB_Global_struct) (r : request) : list event :=
  if malloc_is_thread_safe g
  then [Call (callee g r).1 (callee g r).2]
  else [Enter_critical; Call (callee g r).1 (callee g r).2; Leave_critical].

(** What holds of the threads all along: a thread has its calls inside
    the critical section, is inside it exactly when it owns it, and is
    inside a function only at a call. *)
Definition threads_bracketed (s : system) : Prop :=
  forall i t, threads s !! i = Some t ->
    bracketed (bool_decide (owner s = Some i)) (todo t) = true /\
    (in_call t = true -> exists f args rest, todo t = Call f args :: rest).

(** A storage to evaluate on: a chunk size of 64K, a hypersparsity ratio
    of 1/16, storage by row. *)
Definition example_Global : GB_Global_struct :=
  GB_Global 65536%float 0.0625%float false.

(** An allocator to evaluate the wrappers with: blocks are handed out at
    increasing addresses, and the state is the next free address. *)
Definition bump_allocator (f : fnptr) (args : list arg) (h : N) : pointer * N :=
  match f, args with
  | ansi_malloc, [Size n] => (Block h, (h + Z.to_N n)%N)
  | ansi_calloc, [Size c; Size n] => (Block h, (h + Z.to_N (c * n))%N)
  | ansi_realloc, [Ptr _; Size n] => (Block h, (h + Z.to_N n)%N)
  | _, _ => (NULL, h)
  end.

(** The storage once the allocator was declared not thread-safe. *)
Definition example_unsafe : GB_Global_struct :=
  GB_Global_malloc_is_thread_safe_set false example_Global.

(** *** Properties of the global storage *)

Section Properties.

Variable GB_CHUNK_DEFAULT : double.
Variable GB_HYPER_DEFAULT : double.
Variable GxB_DEFAULT : double.
Variable GB_FORMAT_DEFAULT_not_by_row : bool.

Local Abbreviation GB_Global0 :=
  (GB_Global GB_CHUNK_DEFAULT GB_HYPER_DEFAULT GB_FORMAT_DEFAULT_not_by_row).
Local Abbreviation chunk_set0 := (GB_Global_chunk_set GB_CHUNK_DEFAULT GxB_DEFAULT).
Local Abbreviation step0 := (step GB_CHUNK_DEFAULT GxB_DEFAULT).
Local Abbreviation run0 := (run GB_CHUNK_DEFAULT GxB_DEFAULT).

(** Reading a field after one operation: by cases on the storage and on
    the operation, every setter writes its own field only. *)
Ltac field_after_step := intros [] []; reflexivity.

Lemma mode_step g o :
  mode (step0 g o) = match o with mode_set m => m | _ => mode g end.
Proof. revert g o. field_after_step. Qed.

Lemma nthreads_max_step g o :
  nthreads_max (step0 g o) =
  match o with nthreads_max_set n => GB_IMAX n 1 | _ => nthreads_max g end.
Proof. revert g o. field_after_step. Qed.

Lemma chunk_step g o :
  chunk (step0 g o) =
  match o with
  | chunk_set c =>
      fmax (if (c <=? GxB_DEFAULT)%float then GB_CHUNK_DEFAULT else c) 1
  | _ => chunk g
  end.
Proof. revert g o. field_after_step. Qed.

Lemma hyper_ratio_step g o :
  hyper_ratio (step0 g o) =
  match o with hyper_ratio_set h => h | _ => hyper_ratio g end.
Proof. revert g o. field_after_step. Qed.

Lemma is_csc_step g o :
  is_csc (step0 g o) = match o with is_csc_set b => b | _ => is_csc g end.
Proof. revert g o. field_after_step. Qed.

Lemma queue_head_step g o :
  queue_head (step0 g o) =
  match o with queue_head_set p => p | _ => queue_head g end.
Proof. revert g o. field_after_step. Qed.

Lemma malloc_function_step g o :
  malloc_function (step0 g o) =
  match o with malloc_function_set f => f | _ => malloc_function g end.
Proof. revert g o. field_after_step. Qed.

Lemma calloc_function_step g o :
  calloc_function (step0 g o) =
  match o with calloc_function_set f => f | _ => calloc_function g end.
Proof. revert g o. field_after_step. Qed.

Lemma realloc_function_step g o :
  realloc_function (step0 g o) =
  match o with realloc_function_set f => f | _ => realloc_function g end.
Proof. revert g o. field_after_step. Qed.

Lemma free_function_step g o :
  free_function (step0 g o) =
  match o with free_function_set f => f | _ => free_function g end.
Proof. revert g o. field_after_step. Qed.

Lemma malloc_is_thread_safe_step g o :
  malloc_is_thread_safe (step0 g o) =
  match o with
  | malloc_is_thread_safe_set b => b
  | _ => malloc_is_thread_safe g
  end.
Proof. revert g o. field_after_step. Qed.

(** The remaining fields, for the record: test and debugging state. *)
Lemma bookkeeping_step g o :
  GrB_init_called (step0 g o) =
    match o with GrB_init_called_set b => b | _ => GrB_init_called g end /\
  abort_function (step0 g o) =
    match o with abort_function_set f => f | _ => abort_function g end /\
  malloc_tracking (step0 g o) =
    match o with malloc_tracking_set b => b | _ => malloc_tracking g end /\
  nmalloc (step0 g o) =
    match o with
    | nmalloc_clear => 0
    | nmalloc_increment => wrap64 (nmalloc g + 1)
    | nmalloc_decrement => wrap64 (nmalloc g - 1)
    | _ => nmalloc g
    end /\
  malloc_debug (step0 g o) =
    match o with malloc_debug_set b => b | _ => malloc_debug g end /\
  malloc_debug_count (step0 g o) =
    match o with
    | malloc_debug_count_set n => n
    | malloc_debug_count_decrement => wrap64 (malloc_debug_count g - 1)
    | _ => malloc_debug_count g
    end /\
  inuse (step0 g o) =
    match o with
    | inuse_clear => 0
    | inuse_increment s => wrap64 (inuse g + s)
    | inuse_decrement s => wrap64 (inuse g - s)
    | _ => inuse g
    end /\
  maxused (step0 g o) =
    match o with
    | inuse_clear => 0
    | inuse_increment s => GB_IMAX (maxused g) (wrap64 (inuse g + s))
    | _ => maxused g
    end /\
  hack (step0 g o) = match o with hack_set h => h | _ => hack g end /\
  burble (step0 g o) = match o with burble_set b => b | _ => burble g end /\
  print_one_based (step0 g o) =
    match o with print_one_based_set b => b | _ => print_one_based g end /\
  print_format (step0 g o) =
    match o with print_format_set f => f | _ => print_format g end.
Proof. destruct g, o; repeat split. Qed.

Lemma run_snoc ops o g : run0 (ops ++ [o]) g = step0 (run0 ops g) o.
Proof. unfold run. now rewrite fold_left_app. Qed.

Lemma GB_IMAX_max x y : GB_IMAX x y = Z.max x y.
Proof. unfold GB_IMAX. destruct (Z.gtb_spec x y); lia. Qed.

(** An operation that does not replace the allocator keeps it. *)
Lemma platform_allocator_step g o :
  replaces_allocator o = false ->
  platform_allocator g -> platform_allocator (step0 g o).
Proof.
  unfold platform_allocator.
  rewrite malloc_function_step, calloc_function_step, realloc_function_step,
    free_function_step, malloc_is_thread_safe_step.
  destruct o; simpl; intros Hr; try discriminate Hr; tauto.
Qed.

(** C7: the storage starts with the ANSI C malloc, calloc, realloc and
    free and with the thread-safety flag true, and keeps them through
    every sequence of operations none of which replaces a part of the
    allocator function set. *)
Theorem allocator_defaults_to_platform (ops : list op) :
  forallb (fun o => negb (replaces_allocator o)) ops = true ->
  platform_allocator GB_Global0 /\ platform_allocator (run0 ops GB_Global0).
Proof.
  intros Hops.
  assert (Hinit : platform_allocator GB_Global0) by (repeat split).
  split; [exact Hinit|].
  induction ops as [|o ops IH] using rev_ind; [exact Hinit|].
  rewrite forallb_app in Hops. apply andb_true_iff in Hops as [Hops Ho].
  simpl in Ho. rewrite andb_true_r in Ho. apply negb_true_iff in Ho.
  rewrite run_snoc. apply platform_allocator_step; auto.
Qed.

(** What the two clamping setters store. *)
Lemma nthreads_max_get_set g v :
  GB_Global_nthreads_max_get (GB_Global_nthreads_max_set v g) = Z.max v 1.
Proof. rewrite <- GB_IMAX_max. now destruct g. Qed.

Lemma chunk_get_set g v :
  GB_Global_chunk_get (chunk_set0 v g) =
  fmax (if (v <=? GxB_DEFAULT)%float then GB_CHUNK_DEFAULT else v) 1.
Proof. now destruct g. Qed.

(** The stored ceiling is an [int] when the argument is. *)
Lemma nthreads_max_set_in_range g v :
  int_range v ->
  int_range (GB_Global_nthreads_max_get (GB_Global_nthreads_max_set v g)).
Proof.
  rewrite nthreads_max_get_set. unfold int_range, INT_MIN, INT_MAX. lia.
Qed.

(** C6, as amended: mode, hypersparsity ratio and storage orientation are
    plain get/set pairs; the thread-count setter stores [max (v, 1)], so
    that the getter returns [v] exactly when [1 <= v]; the chunk setter
    stores [fmax (c, 1)] where [c] is the default chunk size when
    [v <= GxB_DEFAULT] and [v] otherwise, so that the getter returns [v]
    when [v] is above [GxB_DEFAULT] and at least one. *)
Theorem get_after_set (g : GB_Global_struct) :
  (forall m, GB_Global_mode_get (GB_Global_mode_set m g) = m) /\
  (forall h, GB_Global_hyper_ratio_get (GB_Global_hyper_ratio_set h g) = h) /\
  (forall b, GB_Global_is_csc_get (GB_Global_is_csc_set b g) = b) /\
  (forall v, GB_Global_nthreads_max_get (GB_Global_nthreads_max_set v g) = Z.max v 1) /\
  (forall v,
     GB_Global_nthreads_max_get (GB_Global_nthreads_max_set v g) = v <-> 1 <= v) /\
  (forall v, GB_Global_chunk_get (chunk_set0 v g) =
             fmax (if (v <=? GxB_DEFAULT)%float then GB_CHUNK_DEFAULT else v) 1) /\
  (forall v, (v <=? GxB_DEFAULT)%float = false -> (1 <=? v)%float = true ->
             GB_Global_chunk_get (chunk_set0 v g) = v).
Proof.
  split; [intros; now destruct g|].
  split; [intros; now destruct g|].
  split; [intros; now destruct g|].
  split; [apply nthreads_max_get_set|].
  split; [intros v; rewrite nthreads_max_get_set; lia|].
  split; [apply chunk_get_set|].
  intros v Hv H1. rewrite chunk_get_set, Hv. now apply fmax_l.
Qed.

Lemma at_least_one_step g o : at_least_one g -> at_least_one (step0 g o).
Proof.
  unfold at_least_one, GB_Global_nthreads_max_get, GB_Global_chunk_get.
  rewrite nthreads_max_step, chunk_step. intros [Hn Hc]. split.
  - destruct o; auto. rewrite GB_IMAX_max. lia.
  - destruct o; auto. now apply fmax_ge_r.
Qed.

(** C9: the thread-count setter stores [max (v, 1)]; with [GxB_DEFAULT]
    zero and a default chunk size of at least one, the chunk setter stores
    the default chunk size when [c <= 0] and [fmax (c, 1)] otherwise; and
    from the initial storage on, after every sequence of operations, both
    getters return at least one. *)
Theorem ceiling_and_chunk_at_least_one :
  GxB_DEFAULT = 0%float ->
  (1 <=? GB_CHUNK_DEFAULT)%float = true ->
  (forall g v,
     GB_Global_nthreads_max_get (GB_Global_nthreads_max_set v g) = Z.max v 1) /\
  (forall g c,
     GB_Global_chunk_get (chunk_set0 c g) =
     if (c <=? 0)%float then GB_CHUNK_DEFAULT else fmax c 1) /\
  (forall ops, at_least_one (run0 ops GB_Global0)).
Proof.
  intros H0 Hd. split; [|split].
  - intros g v. apply nthreads_max_get_set.
  - intros g c. rewrite chunk_get_set, H0.
    destruct (c <=? 0)%float; [|reflexivity].
    now apply fmax_l.
  - induction ops as [|o ops IH] using rev_ind.
    + split; [simpl; lia | exact Hd].
    + rewrite run_snoc. now apply at_least_one_step.
Qed.

End Properties.

Section AllocatorProperties.

Variable heap : Type.
Variable call : fnptr -> list arg -> heap -> pointer * heap.
Variable sync_ok : bool.

(** The critical-section template brackets its block and reports [ok]. *)
Lemma GB_critical_section_invoke ok f args (w : world heap) :
  GB_critical_section heap sync_ok ok (invoke heap call f args) w =
  ((ok && sync_ok, fst (call f args (snd w))),
   (fst w ++ [Enter_critical; Call f args; Leave_critical],
    snd (call f args (snd w)))).
Proof.
  destruct w as [tr h]. unfold GB_critical_section, bind, emit, invoke, ret.
  simpl. destruct (call f args h) as [p h']. simpl.
  now rewrite <- !app_assoc.
Qed.

Lemma invoke_direct f args (w : world heap) :
  invoke heap call f args w = direct_call heap call f args w.
Proof.
  destruct w as [tr h]. unfold invoke, direct_call. simpl.
  now destruct (call f args h).
Qed.

Lemma serve_spec g r (w : world heap) :
  serve heap call sync_ok g r w =
  (tt, (fst w ++ block g r,
        snd (call (callee g r).1 (callee g r).2 (snd w)))).
Proof.
  unfold serve, block, GB_Global_malloc_function, GB_Global_calloc_function,
    GB_Global_realloc_function, GB_Global_free_function.
  destruct r, (malloc_is_thread_safe g); simpl; unfold bind, ret;
    rewrite ?invoke_direct, ?GB_critical_section_invoke; reflexivity.
Qed.

Lemma serve_all_events g rs : forall w : world heap,
  fst (snd (serve_all heap call sync_ok g rs w)) = fst w ++ concat (block g <$> rs).
Proof.
  induction rs as [|r rs IH]; intros w; simpl.
  - now rewrite app_nil_r.
  - unfold bind. rewrite serve_spec, IH. simpl. now rewrite <- app_assoc.
Qed.

Lemma events_of_blocks g rs h :
  events_of heap call sync_ok g rs h = concat (block g <$> rs).
Proof. unfold events_of. now rewrite serve_all_events. Qed.

(** Without the thread-safety flag, every call of a thread lies inside
    the critical section. *)
Lemma events_of_bracketed g rs h :
  malloc_is_thread_safe g = false ->
  bracketed false (events_of heap call sync_ok g rs h) = true.
Proof.
  intros Hg. rewrite events_of_blocks.
  induction rs as [|r rs IH]; [reflexivity|].
  simpl. unfold block at 1. rewrite Hg. exact IH.
Qed.

Lemma threads_bracketed_start programs :
  Forall (fun p => bracketed false p = true) programs ->
  threads_bracketed (start programs).
Proof.
  intros Hp i t. unfold start; simpl. rewrite list_lookup_fmap.
  destruct (programs !! i) as [p|] eqn:Hi; [|discriminate].
  intros [= <-]; simpl. split; [|discriminate].
  rewrite Forall_forall in Hp. apply Hp. eapply list_elem_of_lookup_2, Hi.
Qed.

Lemma threads_bracketed_step s s' :
  threads_bracketed s -> system_step s s' -> threads_bracketed s'.
Proof.
  intros Hinv Hstep. destruct Hstep as [ts o i t o' t' Hi Ht].
  assert (Hlt : (i < length ts)%nat) by (eapply lookup_lt_Some; eauto).
  destruct (Hinv i t Hi) as [Hb Hc]. simpl in Hb, Hc.
  intros j tj; simpl. destruct (decide (i = j)) as [<-|Hij].
  - rewrite list_lookup_insert_eq by exact Hlt. intros [= <-].
    destruct Ht as [rest Ho|f args rest|f args rest|rest Ho]; simpl in *.
    + subst o. repeat case_bool_decide; try congruence. simpl in Hb.
      split; [exact Hb|discriminate].
    + split; [exact Hb|]. eauto.
    + apply andb_true_iff in Hb as [Hh Hb]. rewrite Hh in Hb |- *.
      split; [exact Hb|discriminate].
    + subst o. repeat case_bool_decide; try congruence. simpl in Hb.
      split; [exact Hb|discriminate].
  - rewrite list_lookup_insert_ne by exact Hij. intros Hj.
    destruct (Hinv j tj Hj) as [Hbj Hcj]. simpl in Hbj. split; [|exact Hcj].
    destruct Ht as [rest Ho|f args rest|f args rest|rest Ho]; simpl in *;
      try exact Hbj; subst o; repeat case_bool_decide; congruence.
Qed.

Lemma threads_bracketed_exclusive s :
  threads_bracketed s -> one_call_at_a_time s.
Proof.
  intros Hinv i j ti tj Hi Hj Hci Hcj.
  destruct (Hinv i ti Hi) as [Hbi Hti]. destruct (Hinv j tj Hj) as [Hbj Htj].
  destruct (Hti Hci) as (fi & ai & ri & Ei). rewrite Ei in Hbi.
  destruct (Htj Hcj) as (fj & aj & rj & Ej). rewrite Ej in Hbj.
  simpl in Hbi, Hbj.
  apply andb_true_iff in Hbi as [Hbi _]. apply bool_decide_eq_true in Hbi.
  apply andb_true_iff in Hbj as [Hbj _]. apply bool_decide_eq_true in Hbj.
  congruence.
Qed.

(** Threads that go through the wrappers of a storage whose
    thread-safety flag is false never are two inside the allocator. *)
Lemma serialized_threads_exclusive g (requests : list (list request * heap)) s :
  malloc_is_thread_safe g = false ->
  rtc system_step
    (start ((fun rh => events_of heap call sync_ok g rh.1 rh.2) <$> requests)) s ->
  one_call_at_a_time s.
Proof.
  intros Hg Hreach. apply threads_bracketed_exclusive.
  eapply (rtc_ind_r (fun s => threads_bracketed s)); [| |exact Hreach].
  - apply threads_bracketed_start, Forall_fmap, Forall_forall.
    intros [rs h] _. now apply events_of_bracketed.
  - intros s1 s2 _ Hstep IH. now apply threads_bracketed_step with s1.
Qed.

(** C8: each of the four wrappers calls the function of the active
    allocator set exactly once, on its own arguments.  With the
    thread-safety flag true that call is its only event and its result is
    returned; with the flag false the call sits between entering and
    leaving the critical section, its result is returned unless the
    critical section itself failed, in which case [NULL] is, and threads
    that go through the wrappers are never two inside the allocator. *)
Theorem allocator_call_serialized_unless_thread_safe (g : GB_Global_struct) :
  (forall w : world heap,
     let via f args :=
       if malloc_is_thread_safe g then direct_call heap call f args w
       else serialized_call heap call sync_ok f args w in
     (forall size,
        GB_Global_malloc_function heap call sync_ok g size w =
        via (malloc_function g) [Size size]) /\
     (forall count size,
        GB_Global_calloc_function heap call sync_ok g count size w =
        via (calloc_function g) [Size count; Size size]) /\
     (forall p size,
        GB_Global_realloc_function heap call sync_ok g p size w =
        via (realloc_function g) [Ptr p; Size size]) /\
     (forall p,
        snd (GB_Global_free_function heap call sync_ok g p w) =
        snd (via (free_function g) [Ptr p]))) /\
  (malloc_is_thread_safe g = false ->
   forall (requests : list (list request * heap)) s,
     rtc system_step
       (start ((fun rh => events_of heap call sync_ok g rh.1 rh.2) <$> requests)) s ->
     one_call_at_a_time s).
Proof.
  split.
  - intros w. unfold GB_Global_malloc_function, GB_Global_calloc_function,
      GB_Global_realloc_function, GB_Global_free_function.
    destruct (malloc_is_thread_safe g); simpl; repeat split; intros;
      unfold bind, ret;
      rewrite ?invoke_direct, ?GB_critical_section_invoke;
      reflexivity.
  - intros Hg requests s. now apply serialized_threads_exclusive.
Qed.

End AllocatorProperties.

Lemma allocator_defaults_to_platform_witness :
  platform_allocator example_Global /\
  platform_allocator
    (run 65536%float 0%float
       [nthreads_max_set 8; mode_set GrB_BLOCKING; chunk_set 4096%float;
        nmalloc_increment]
       example_Global).
Proof.
  apply (allocator_defaults_to_platform 65536%float 0.0625%float 0%float false
           [nthreads_max_set 8; mode_set GrB_BLOCKING; chunk_set 4096%float;
            nmalloc_increment]).
  reflexivity.
Defined.

(** C6, as stated, fails: setting the thread-count ceiling to 0 and reading
    it back gives 1, and setting the chunk size to 1/2 gives back 1. *)
Lemma setter_then_getter_not_plain :
  GB_Global_nthreads_max_get (GB_Global_nthreads_max_set 0 example_Global) <> 0 /\
  GB_Global_chunk_get
    (GB_Global_chunk_set 65536%float 0%float 0.5%float example_Global)
  <> 0.5%float.
Proof.
  split.
  - vm_compute. discriminate.
  - intros H. apply (f_equal (fun x => (x <? 1)%float)) in H.
    vm_compute in H. discriminate.
Qed.

Lemma get_after_set_witness :
  GB_Global_nthreads_max_get (GB_Global_nthreads_max_set 8 example_Global) = 8 /\
  GB_Global_chunk_get
    (GB_Global_chunk_set 65536%float 0%float 4096%float example_Global)
  = 4096%float.
Proof.
  destruct (get_after_set 65536%float 0%float example_Global)
    as (_ & _ & _ & _ & Hn & _ & Hc).
  split.
  - apply Hn. lia.
  - apply Hc; reflexivity.
Defined.

Lemma ceiling_and_chunk_at_least_one_witness :
  GB_Global_nthreads_max_get (GB_Global_nthreads_max_set (-3) example_Global) = 1 /\
  GB_Global_chunk_get
    (GB_Global_chunk_set 65536%float 0%float (-2)%float example_Global)
  = 65536%float /\
  at_least_one
    (run 65536%float 0%float [nthreads_max_set 0; chunk_set 0.25%float]
       example_Global).
Proof.
  destruct (ceiling_and_chunk_at_least_one 65536%float 0.0625%float 0%float false
              eq_refl eq_refl) as (Hn & Hc & Hinv).
  split; [|split].
  - apply Hn.
  - apply Hc.
  - apply Hinv.
Defined.

Example malloc_direct :
  GB_Global_malloc_function N bump_allocator true example_Global 16 ([], 100%N)
  = (Block 100, ([Call ansi_malloc [Size 16]], 116%N)).
Proof. reflexivity. Qed.

Example malloc_serialized :
  GB_Global_malloc_function N bump_allocator true example_unsafe 16 ([], 100%N)
  = (Block 100,
     ([Enter_critical; Call ansi_malloc [Size 16]; Leave_critical], 116%N)).
Proof. reflexivity. Qed.

Example malloc_critical_section_failed :
  GB_Global_malloc_function N bump_allocator false example_unsafe 16 ([], 100%N)
  = (NULL,
     ([Enter_critical; Call ansi_malloc [Size 16]; Leave_critical], 116%N)).
Proof. reflexivity. Qed.

(** Two threads, one allocating and one freeing.  With the thread-safety
    flag true, both can be inside the allocator at once. *)
Example direct_calls_overlap :
  exists s,
    rtc system_step
      (start ((fun rh => events_of N bump_allocator true example_Global rh.1 rh.2)
                <$> [([Malloc 8], 0%N); ([Free (Block 7)], 0%N)])) s /\
    ~ one_call_at_a_time s.
Proof.
  exists {| threads :=
              [ {| todo := [Call ansi_malloc [Size 8]]; in_call := true |};
                {| todo := [Call ansi_free [Ptr (Block 7)]]; in_call := true |} ];
            owner := None |}.
  split.
  - unfold start. cbn.
    eapply rtc_l; [eapply (step_thread _ _ 0%nat); [reflexivity|apply step_call]|].
    eapply rtc_l; [eapply (step_thread _ _ 1%nat); [reflexivity|apply step_call]|].
    apply rtc_refl.
  - intros H. specialize (H 0%nat 1%nat _ _ eq_refl eq_refl eq_refl eq_refl).
    discriminate.
Qed.

(** The same two threads on the storage whose flag is false, stopped
    when the first is inside [malloc]: the second has not entered. *)
Lemma allocator_call_serialized_unless_thread_safe_witness :
  one_call_at_a_time
    {| threads :=
         [ {| todo := [Call ansi_malloc [Size 8]; Leave_critical]; in_call := true |};
           {| todo := [Enter_critical; Call ansi_free [Ptr (Block 7)]; Leave_critical];
              in_call := false |} ];
       owner := Some 0%nat |}.
Proof.
  refine (proj2 (allocator_call_serialized_unless_thread_safe
                   N bump_allocator true example_unsafe) eq_refl
            [([Malloc 8], 0%N); ([Free (Block 7)], 0%N)] _ _).
  unfold start. cbn.
  eapply rtc_l;
    [eapply (step_thread _ _ 0%nat); [reflexivity|apply step_enter; reflexivity]|].
  eapply rtc_l; [eapply (step_thread _ _ 0%nat); [reflexivity|apply step_call]|].
  apply rtc_refl.
Defined.

End Global.

(** ** [GrB_Info]: the return codes the embedded functions use *)
Inductive GrB_Info :=
  | GrB_SUCCESS
  | GrB_NO_VALUE
  | GrB_OUT_OF_MEMORY
  | GrB_INSUFFICIENT_SPACE.

(** ** Source/Generated/GB_unaryop__*.c: hard-coded unary operator kernels

    Every generated file has the same text up to the five macros
    [GB_ATYPE], [GB_CTYPE], [GB_CAST], [GB_OP] and [GB_DISABLE]; the
    section below is that text, and the two files at hand instantiate it. *)
Module Unop.
Import Double.

(** The value arrays a kernel works on.  [Cx] and [Ax] may be aliased, so
    the kernel is written against the three accesses it makes, and the
    memory decides whether a store to [Cx] is seen through [Ax].  An access
    outside an array has no value. *)
Class Arrays (A C mem : Type) := {
  get_Ax : mem -> nat -> option A;
  get_Cx : mem -> nat -> option C;
  set_Cx : mem -> nat -> C -> option mem
}.

(** What the kernel relies on: a store succeeds where the cell exists, is
    read back, and leaves every other cell of both arrays alone. *)
Class ArraysLaws (A C mem : Type) `{Arrays A C mem} := {
  set_Cx_is_Some m p c : is_Some (get_Cx m p) -> is_Some (set_Cx m p c);
  get_Cx_set_eq m p c m' : set_Cx m p c = Some m' -> get_Cx m' p = Some c;
  get_Cx_set_ne m p q c m' :
    set_Cx m p c = Some m' -> p <> q -> get_Cx m' q = get_Cx m q;
  get_Ax_set_ne m p q c m' :
    set_Cx m p c = Some m' -> p <> q -> get_Ax m' q = get_Ax m q
}.

(** Two distinct arrays: [Cx] first, [Ax] second. *)
#[export] Instance separate_arrays (A C : Type) : Arrays A C (list C * list A) := {
  get_Ax m p := snd m !! p;
  get_Cx m p := fst m !! p;
  set_Cx m p c :=
    if decide (p < length (fst m)) then Some (<[p := c]> (fst m), snd m) else None
}.

(** One array passed as both [Cx] and [Ax]. *)
#[export] Instance aliased_arrays (T : Type) : Arrays T T (list T) := {
  get_Ax m p := m !! p;
  get_Cx m p := m !! p;
  set_Cx m p c := if decide (p < length m) then Some (<[p := c]> m) else None
}.

Section Kernel.

Context {GB_ATYPE GB_XTYPE GB_CTYPE mem : Type}.
Context `{Arrays GB_ATYPE GB_CTYPE mem}.

(** [GB_CAST (z, aij)] declares [z] as the typecast of [aij];
    [GB_OP (z, x)] assigns the operator applied to [x]. *)
Variable GB_CAST : GB_ATYPE -> GB_XTYPE.
Variable GB_OP : GB_XTYPE -> GB_CTYPE.

(** [GB_DISABLE]: the disjunction of the [GxB_NO_*] flags of GB_control.h
    for this operator and these types. *)
Variable GB_DISABLE : bool.

(** [GB_CAST_OP (pC, pA)]: [Cx [pC] = op (cast (Ax [pA]))]. *)
Definition GB_CAST_OP (pC pA : nat) (m : mem) : option mem :=
  aij ← get_Ax m pA;
  let z := GB_CAST aij in
  set_Cx m pC (GB_OP z).

(** The iterations [GB_CAST_OP (p, p)] taken in a given order. *)
Fixpoint iterate (order : list nat) (m : mem) : option mem :=
  match order with
  | [] => Some m
  | p :: rest => m' ← GB_CAST_OP p p m; iterate rest m'
  end.

(** [for (p = 0 ; p < anz ; p++)]: the indices in program order. *)
Definition program_order (anz : Z) : list nat := seq 0 (Z.to_nat anz).

(** The kernel under [#pragma omp parallel for]: the iterations are shared
    out among [nthreads] threads, and [schedule] is the order in which they
    take effect, some permutation of the program order. *)
Definition GB_unop_omp (schedule : list nat) (m : mem) (anz : Z) (nthreads : Z)
  : option (GrB_Info * mem) :=
  if GB_DISABLE then Some (GrB_NO_VALUE, m)
  else m' ← iterate schedule m; Some (GrB_SUCCESS, m').

(** The kernel as written: the loop in program order. *)
Definition GB_unop (m : mem) (anz : Z) (nthreads : Z) : option (GrB_Info * mem) :=
  GB_unop_omp (program_order anz) m anz nthreads.

(** The cells a range of iterations needs exist. *)
Definition in_bounds (order : list nat) (m : mem) : Prop :=
  forall p, p ∈ order -> is_Some (get_Ax m p) /\ is_Some (get_Cx m p).

(** [m'] holds in [Cx], at the indices of [order], the operator applied to
    the typecast entries that [m] holds in [Ax], and elsewhere what [m]
    holds in [Cx]. *)
Definition applied (order : list nat) (m m' : mem) : Prop :=
  (forall p, p ∈ order ->
     exists aij, get_Ax m p = Some aij /\
                 get_Cx m' p = Some (GB_OP (GB_CAST aij))) /\
  (forall q, q ∉ order -> get_Cx m' q = get_Cx m q).

End Kernel.

(** *** The generic kernel and the dispatch to it *)

(** Modelled from the spec: a unary operator object of the catalog, "a
    callable contract over one input ElementType producing one output
    ElementType", together with the typecast from the type of the input
    array to the input type of the operator.  The catalog is outside the
    files embedded here. *)
Record GrB_UnaryOp (A X C : Type) := {
  cast_A_to_X : A -> X;
  unop_function : X -> C
}.
Arguments cast_A_to_X {A X C} _ _.
Arguments unop_function {A X C} _ _.

Section Generic.

Context {A X C mem : Type}.
Context `{Arrays A C mem}.

(** Modelled from the spec: the generic kernel, which "performs the same
    computation through an indirect operator call per element": every
    entry of the range is typecast and handed to the function the operator
    object holds.  Its source file is outside the files embedded here. *)
Fixpoint generic_iterate (op : GrB_UnaryOp A X C) (order : list nat) (m : mem)
  : option mem :=
  match order with
  | [] => Some m
  | p :: rest =>
      aij ← get_Ax m p;
      let xwork := cast_A_to_X op aij in
      m' ← set_Cx m p (unop_function op xwork);
      generic_iterate op rest m'
  end.

Definition GB_apply_generic (op : GrB_UnaryOp A X C) (schedule : list nat)
    (m : mem) (anz : Z) (nthreads : Z) : option (GrB_Info * mem) :=
  m' ← generic_iterate op schedule m; Some (GrB_SUCCESS, m').

(** Modelled from the spec: [apply] "dispatches to specialized or generic
    kernel"; "when a kernel is disabled or the requested (type, operator)
    pair is outside the built-in catalog, execution falls back to the
    generic kernel".  [specialized] is the kernel of the catalog for the
    pair, if it has one; the not-handled result [GrB_NO_VALUE] is the
    signal to fall back.  The dispatcher is outside the files embedded
    here. *)
Definition GB_apply
    (specialized : option (mem -> Z -> Z -> option (GrB_Info * mem)))
    (op : GrB_UnaryOp A X C) (schedule : list nat)
    (m : mem) (anz : Z) (nthreads : Z) : option (GrB_Info * mem) :=
  match specialized with
  | Some kernel =>
      match kernel m anz nthreads with
      | Some (GrB_NO_VALUE, m') => GB_apply_generic op schedule m' anz nthreads
      | r => r
      end
  | None => GB_apply_generic op schedule m anz nthreads
  end.

End Generic.

(** *** The two generated files *)

(** [GxB_FC64_t]: a complex number as two doubles.  [GxB_FC32_t], its single
    precision counterpart, is kept abstract below. *)
Record GxB_FC64_t := { creal : double; cimag : double }.

Section Instances.

(** [GB_cast_to_int8_t] of GB_casting.h and the [GxB_NO_*] flags of
    GB_control.h are taken as parameters; [int8_t] values are integers. *)
Variable GB_cast_to_int8_t : double -> Z.
Variables GxB_NO_IDENTITY GxB_NO_INT8 GxB_NO_FC64 : bool.

(** GB_unaryop__identity_int8_fc64.c *)
Definition GB_unop__identity_int8_fc64 (schedule : list nat)
    (m : list Z * list GxB_FC64_t) (anz nthreads : Z) :=
  GB_unop_omp (GB_ATYPE := GxB_FC64_t) (GB_XTYPE := Z) (GB_CTYPE := Z)
    (fun aij => GB_cast_to_int8_t (creal aij))
    (fun x => x)
    (GxB_NO_IDENTITY || GxB_NO_INT8 || GxB_NO_FC64)
    schedule m anz nthreads.

(** GB_unaryop__log1p_fc32_fc32.c; [GB_clog1pf] is the complex log1p of
    the library's mathematical header, over the type of its values. *)
Variable GxB_FC32_t : Type.
Variable GB_clog1pf : GxB_FC32_t -> GxB_FC32_t.
Variables GxB_NO_LOG1P GxB_NO_FC32 : bool.

Definition GB_unop__log1p_fc32_fc32 {mem} `{Arrays GxB_FC32_t GxB_FC32_t mem}
    (schedule : list nat) (m : mem) (anz nthreads : Z) :=
  GB_unop_omp (GB_ATYPE := GxB_FC32_t) (GB_XTYPE := GxB_FC32_t)
    (GB_CTYPE := GxB_FC32_t)
    (fun aij => aij)
    GB_clog1pf
    (GxB_NO_LOG1P || GxB_NO_FC32)
    schedule m anz nthreads.

End Instances.

(** *** Data to evaluate on *)

(** A typecast to evaluate the kernel with: a NaN gives zero, a value
    outside the range of [int8_t] the nearest bound, and any other value
    its integer part. *)
Definition integer_part (x : double) : Z :=
  match Prim2SF x with
  | S754_finite s m e =>
      let v := if (0 <=? e)%Z then (Z.pos m * 2 ^ e)%Z
               else (Z.pos m / 2 ^ (- e))%Z in
      if s then (- v)%Z else v
  | _ => 0%Z
  end.

Definition saturating_int8 (x : double) : Z :=
  if is_nan x then 0%Z
  else if (x <=? -128)%float then (-128)%Z
  else if (127 <=? x)%float then 127%Z
  else integer_part x.

Definition example_Ax : list GxB_FC64_t :=
  [ {| creal := 1.5%float; cimag := 2%float |};
    {| creal := (-300)%float; cimag := 0%float |};
    {| creal := nan; cimag := 1%float |};
    {| creal := 42.75%float; cimag := 0%float |} ].

Definition example_Cx : list Z := [9; 9; 9; 9; 9]%Z.

(** The operator object of the catalog for [identity] on [int8_t], applied
    to a [GxB_FC64_t] array. *)
Definition example_identity_int8 : GrB_UnaryOp GxB_FC64_t Z Z :=
  {| cast_A_to_X := fun aij => saturating_int8 (creal aij);
     unop_function := fun x => x |}.

(** *** Properties of the kernels *)

#[export] Instance separate_arrays_laws (A C : Type) : ArraysLaws A C (list C * list A).
Proof.
  split; simpl.
  - intros [Cx Ax] p c [x Hx]; simpl in *.
    apply lookup_lt_Some in Hx. case_decide; [eauto | lia].
  - intros [Cx Ax] p c m'; simpl. case_decide; [|discriminate].
    intros [= <-]; simpl. now apply list_lookup_insert_eq.
  - intros [Cx Ax] p q c m'; simpl. case_decide; [|discriminate].
    intros [= <-] Hne; simpl. now apply list_lookup_insert_ne.
  - intros [Cx Ax] p q c m'; simpl. case_decide; [|discriminate].
    now intros [= <-] Hne.
Qed.

#[export] Instance aliased_arrays_laws (T : Type) : ArraysLaws T T (list T).
Proof.
  split; simpl.
  - intros m p c [x Hx]. apply lookup_lt_Some in Hx.
    case_decide; [eauto | lia].
  - intros m p c m'. case_decide; [|discriminate].
    intros [= <-]. now apply list_lookup_insert_eq.
  - intros m p q c m'. case_decide; [|discriminate].
    intros [= <-] Hne. now apply list_lookup_insert_ne.
  - intros m p q c m'. case_decide; [|discriminate].
    intros [= <-] Hne. now apply list_lookup_insert_ne.
Qed.

Section KernelProperties.

Context {GB_ATYPE GB_XTYPE GB_CTYPE mem : Type}.
Context `{ArraysLaws GB_ATYPE GB_CTYPE mem}.

Variable GB_CAST : GB_ATYPE -> GB_XTYPE.
Variable GB_OP : GB_XTYPE -> GB_CTYPE.
Variable GB_DISABLE : bool.

(** One iteration stores one result and keeps the rest. *)
Lemma GB_CAST_OP_spec p m :
  is_Some (get_Ax m p) -> is_Some (get_Cx m p) ->
  exists aij m',
    get_Ax m p = Some aij /\
    GB_CAST_OP GB_CAST GB_OP p p m = Some m' /\
    get_Cx m' p = Some (GB_OP (GB_CAST aij)) /\
    (forall q, p <> q -> get_Cx m' q = get_Cx m q /\ get_Ax m' q = get_Ax m q).
Proof.
  intros [aij Ha] Hc.
  destruct (set_Cx_is_Some m p (GB_OP (GB_CAST aij)) Hc) as [m' Hm'].
  exists aij, m'. unfold GB_CAST_OP. rewrite Ha. simpl.
  repeat split; eauto using get_Cx_set_eq, get_Cx_set_ne, get_Ax_set_ne.
Qed.

(** Iterations over distinct indices, all in bounds, run to the end, and
    each index of the range holds its own result whatever the order. *)
Lemma iterate_spec order : forall m,
  NoDup order -> in_bounds order m ->
  exists m',
    iterate GB_CAST GB_OP order m = Some m' /\ applied GB_CAST GB_OP order m m'.
Proof.
  induction order as [|p rest IH]; intros m Hnd Hb.
  - exists m. split; [reflexivity|]. split; [|reflexivity].
    intros p Hp. inversion Hp.
  - apply NoDup_cons in Hnd as [Hp Hnd].
    destruct (Hb p) as [Ha Hc]; [left|].
    destruct (GB_CAST_OP_spec p m Ha Hc) as (aij & m1 & Haij & Hrun & Hcp & Hframe).
    destruct (IH m1 Hnd) as (m' & Hit & Hin & Hout).
    { intros q Hq. assert (p <> q) by (intros ->; contradiction).
      destruct (Hframe q) as [-> ->]; auto. apply Hb. now right. }
    exists m'. split; [simpl; rewrite Hrun; exact Hit|]. split.
    + intros q Hq. apply elem_of_cons in Hq as [->|Hq].
      * exists aij. split; [exact Haij|]. rewrite (Hout p Hp). exact Hcp.
      * assert (p <> q) by (intros ->; contradiction).
        destruct (Hin q Hq) as (a & Ha' & Hc').
        exists a. split; [|exact Hc']. rewrite <- Ha'. symmetry.
        now apply Hframe.
    + intros q Hq. apply not_elem_of_cons in Hq as [Hne Hq].
      rewrite (Hout q Hq). apply Hframe. congruence.
Qed.

(** The result of a range does not depend on how its indices are named. *)
Lemma applied_perm o1 o2 m m' :
  o1 ≡ₚ o2 -> applied GB_CAST GB_OP o1 m m' -> applied GB_CAST GB_OP o2 m m'.
Proof.
  intros Hp [Hin Hout]. split.
  - intros p Hp2. apply Hin. now rewrite Hp.
  - intros q Hq. apply Hout. now rewrite Hp.
Qed.

(** Two memories that both hold the result of a range over [m] hold the
    same output. *)
Lemma applied_unique order m m1 m2 :
  applied GB_CAST GB_OP order m m1 -> applied GB_CAST GB_OP order m m2 ->
  forall q, get_Cx m1 q = get_Cx m2 q.
Proof.
  intros [Hin1 Hout1] [Hin2 Hout2] q.
  destruct (decide (q ∈ order)) as [Hq|Hq].
  - destruct (Hin1 q Hq) as (a1 & Ha1 & ->).
    destruct (Hin2 q Hq) as (a2 & Ha2 & ->). congruence.
  - now rewrite Hout1, Hout2.
Qed.

Lemma program_order_elem anz p : p ∈ program_order anz <-> p < Z.to_nat anz.
Proof. unfold program_order. rewrite elem_of_seq. lia. Qed.

Lemma schedule_NoDup schedule anz : schedule ≡ₚ program_order anz -> NoDup schedule.
Proof. intros ->. apply NoDup_seq. Qed.

(** C2: a kernel that is not disabled, run under any schedule of its
    [anz] iterations on arrays that hold [anz] entries, returns
    [GrB_SUCCESS] and leaves [Cx [p] = op (cast (Ax [p]))] for every [p]
    below [anz], with the rest of [Cx] as it was. *)
Theorem GB_unop_applies_cast_op schedule (m : mem) anz nthreads :
  GB_DISABLE = false ->
  schedule ≡ₚ program_order anz ->
  (forall p, p < Z.to_nat anz -> is_Some (get_Ax m p) /\ is_Some (get_Cx m p)) ->
  exists m',
    GB_unop_omp GB_CAST GB_OP GB_DISABLE schedule m anz nthreads
      = Some (GrB_SUCCESS, m') /\
    (forall p, p < Z.to_nat anz ->
       exists aij, get_Ax m p = Some aij /\
                   get_Cx m' p = Some (GB_OP (GB_CAST aij))) /\
    (forall q, Z.to_nat anz <= q -> get_Cx m' q = get_Cx m q).
Proof.
  intros Hd Hs Hb.
  destruct (iterate_spec schedule m) as (m' & Hit & Happ).
  { now apply schedule_NoDup with anz. }
  { intros p Hp. apply Hb. apply program_order_elem. now rewrite <- Hs. }
  apply (applied_perm _ _ _ _ Hs) in Happ. destruct Happ as [Hin Hout].
  exists m'. unfold GB_unop_omp. rewrite Hd, Hit. split; [reflexivity|]. split.
  - intros p Hp. apply Hin. now apply program_order_elem.
  - intros q Hq. apply Hout. rewrite program_order_elem. lia.
Qed.

(** A disabled kernel touches nothing, whatever it is given. *)
Lemma GB_unop_disabled schedule (m : mem) anz nthreads :
  GB_DISABLE = true ->
  GB_unop_omp GB_CAST GB_OP GB_DISABLE schedule m anz nthreads
    = Some (GrB_NO_VALUE, m).
Proof. intros Hd. unfold GB_unop_omp. now rewrite Hd. Qed.

End KernelProperties.

Section Dispatch.

Context {GB_ATYPE GB_XTYPE GB_CTYPE mem : Type}.
Context `{ArraysLaws GB_ATYPE GB_CTYPE mem}.

Variable GB_CAST : GB_ATYPE -> GB_XTYPE.
Variable GB_OP : GB_XTYPE -> GB_CTYPE.
Variable GB_DISABLE : bool.

(** The generic kernel runs the iterations of the kernel whose macros are
    the functions the operator object holds. *)
Lemma generic_iterate_iterate (op : GrB_UnaryOp GB_ATYPE GB_XTYPE GB_CTYPE) order :
  forall m : mem,
  generic_iterate op order m =
  iterate (cast_A_to_X op) (unop_function op) order m.
Proof.
  induction order as [|p rest IH]; intros m; [reflexivity|].
  simpl. unfold GB_CAST_OP. destruct (get_Ax m p) as [aij|]; [|reflexivity].
  simpl. destruct (set_Cx m p _) as [m'|]; [|reflexivity]. simpl. apply IH.
Qed.

Lemma iterate_ext (f : GB_ATYPE -> GB_XTYPE) (g : GB_XTYPE -> GB_CTYPE) order :
  (forall aij, f aij = GB_CAST aij) -> (forall x, g x = GB_OP x) ->
  forall m : mem, iterate f g order m = iterate GB_CAST GB_OP order m.
Proof.
  intros Hf Hg. induction order as [|p rest IH]; intros m; [reflexivity|].
  simpl. unfold GB_CAST_OP. destruct (get_Ax m p) as [aij|]; [|reflexivity].
  simpl. rewrite Hf, Hg.
  destruct (set_Cx m p _) as [m'|]; [|reflexivity]. simpl. apply IH.
Qed.

(** The generic kernel on an operator object that holds what the kernel
    hard-codes: it runs to the end and stores the same results. *)
Lemma GB_apply_generic_spec (op : GrB_UnaryOp GB_ATYPE GB_XTYPE GB_CTYPE)
    schedule (m : mem) anz nthreads :
  (forall aij, cast_A_to_X op aij = GB_CAST aij) ->
  (forall x, unop_function op x = GB_OP x) ->
  schedule ≡ₚ program_order anz ->
  in_bounds (program_order anz) m ->
  exists m',
    GB_apply_generic op schedule m anz nthreads = Some (GrB_SUCCESS, m') /\
    applied GB_CAST GB_OP (program_order anz) m m'.
Proof.
  intros Hf Hg Hs Hb. unfold GB_apply_generic.
  rewrite generic_iterate_iterate, (iterate_ext _ _ _ Hf Hg).
  destruct (iterate_spec GB_CAST GB_OP schedule m) as (m' & -> & Happ).
  { now apply schedule_NoDup with anz. }
  { intros p Hp. apply Hb. now rewrite <- Hs. }
  exists m'. split; [reflexivity|].
  now apply (applied_perm GB_CAST GB_OP schedule).
Qed.

(** C1: for a pair of the catalog, that is an operator object that holds
    the typecast and the function a kernel hard-codes, [apply] through the
    kernel (under a schedule [s1]) and the generic kernel (under a
    schedule [s2]) both succeed on arrays that hold [anz] entries and
    leave the same output [Cx]; when the kernel is not disabled that
    output is the kernel's own. *)
Theorem generic_and_specialized_agree
    (op : GrB_UnaryOp GB_ATYPE GB_XTYPE GB_CTYPE) s1 s2 (m : mem) anz nthreads :
  (forall aij, cast_A_to_X op aij = GB_CAST aij) ->
  (forall x, unop_function op x = GB_OP x) ->
  s1 ≡ₚ program_order anz ->
  s2 ≡ₚ program_order anz ->
  (forall p, p < Z.to_nat anz -> is_Some (get_Ax m p) /\ is_Some (get_Cx m p)) ->
  exists m1 m2,
    GB_apply (Some (GB_unop_omp GB_CAST GB_OP GB_DISABLE s1)) op s2 m anz nthreads
      = Some (GrB_SUCCESS, m1) /\
    GB_apply_generic op s2 m anz nthreads = Some (GrB_SUCCESS, m2) /\
    (forall q, get_Cx m1 q = get_Cx m2 q) /\
    (GB_DISABLE = false ->
     GB_unop_omp GB_CAST GB_OP GB_DISABLE s1 m anz nthreads
       = Some (GrB_SUCCESS, m1)).
Proof.
  intros Hf Hg Hs1 Hs2 Hb.
  assert (Hb' : in_bounds (program_order anz) m).
  { intros p Hp. apply Hb. now apply program_order_elem. }
  destruct (GB_apply_generic_spec op s2 m anz nthreads Hf Hg Hs2 Hb')
    as (m2 & Hgen & Happ2).
  destruct GB_DISABLE eqn:Hd.
  - exists m2, m2. unfold GB_apply, GB_unop_omp.
    repeat split; auto. discriminate.
  - destruct (iterate_spec GB_CAST GB_OP s1 m) as (m1 & Hit & Happ1).
    { now apply schedule_NoDup with anz. }
    { intros p Hp. apply Hb'. now rewrite <- Hs1. }
    apply (applied_perm _ _ _ _ _ _ Hs1) in Happ1.
    assert (Hk : GB_unop_omp GB_CAST GB_OP false s1 m anz nthreads
                 = Some (GrB_SUCCESS, m1)).
    { unfold GB_unop_omp. now rewrite Hit. }
    exists m1, m2. unfold GB_apply. rewrite Hk.
    repeat split; auto.
    now apply (applied_unique GB_CAST GB_OP (program_order anz) m).
Qed.

(** C3: a disabled kernel returns [GrB_NO_VALUE] and leaves the memory as
    it was; [apply] then runs the generic kernel, as it does for a pair
    that has no kernel, and the caller is returned [GrB_SUCCESS] on arrays
    that hold [anz] entries. *)
Theorem disabled_kernel_falls_back
    (op : GrB_UnaryOp GB_ATYPE GB_XTYPE GB_CTYPE) s1 s2 (m : mem) anz nthreads :
  GB_DISABLE = true ->
  GB_unop_omp GB_CAST GB_OP GB_DISABLE s1 m anz nthreads = Some (GrB_NO_VALUE, m) /\
  GB_apply (Some (GB_unop_omp GB_CAST GB_OP GB_DISABLE s1)) op s2 m anz nthreads
    = GB_apply_generic op s2 m anz nthreads /\
  GB_apply None op s2 m anz nthreads = GB_apply_generic op s2 m anz nthreads /\
  (s2 ≡ₚ program_order anz ->
   (forall p, p < Z.to_nat anz -> is_Some (get_Ax m p) /\ is_Some (get_Cx m p)) ->
   exists m',
     GB_apply (Some (GB_unop_omp GB_CAST GB_OP GB_DISABLE s1)) op s2 m anz nthreads
       = Some (GrB_SUCCESS, m')).
Proof.
  intros Hd.
  assert (Hk := GB_unop_disabled GB_CAST GB_OP GB_DISABLE s1 m anz nthreads Hd).
  assert (Hfall :
    GB_apply (Some (GB_unop_omp GB_CAST GB_OP GB_DISABLE s1)) op s2 m anz nthreads
    = GB_apply_generic op s2 m anz nthreads).
  { unfold GB_apply. now rewrite Hk. }
  repeat split; auto.
  intros Hs2 Hb. rewrite Hfall. unfold GB_apply_generic.
  rewrite generic_iterate_iterate.
  destruct (iterate_spec (cast_A_to_X op) (unop_function op) s2 m)
    as (m' & -> & _).
  { now apply schedule_NoDup with anz. }
  { intros p Hp. apply Hb. apply program_order_elem. now rewrite <- Hs2. }
  now exists m'.
Qed.

End Dispatch.


(** *** The kernels on concrete arrays *)

(** On two distinct arrays the kernel leaves [Ax] alone. *)
Lemma iterate_separate_Ax {A X C} (cast : A -> X) (f : X -> C) order :
  forall (m m' : list C * list A),
  iterate cast f order m = Some m' -> snd m' = snd m /\ length (fst m') = length (fst m).
Proof.
  induction order as [|p rest IH]; intros m m'; simpl.
  - now intros [= <-].
  - unfold GB_CAST_OP; simpl. destruct (snd m !! p) as [aij|]; [|discriminate].
    simpl. case_decide; [|discriminate]. simpl. intros Hit.
    apply IH in Hit as [-> ->]. simpl. now rewrite length_insert.
Qed.

(** The identity_int8_fc64 kernel, in closed form: the first [anz] entries
    of [Cx] become the [int8_t] typecasts of the real parts of the entries
    of [Ax]. *)
Lemma GB_unop__identity_int8_fc64_closed_form
    (GB_cast_to_int8_t : double -> Z) schedule
    (Cx : list Z) (Ax : list GxB_FC64_t) anz nthreads :
  schedule ≡ₚ program_order anz ->
  Z.to_nat anz <= length Ax -> Z.to_nat anz <= length Cx ->
  GB_unop__identity_int8_fc64 GB_cast_to_int8_t false false false
    schedule (Cx, Ax) anz nthreads
  = Some (GrB_SUCCESS,
          (map (fun aij => GB_cast_to_int8_t (creal aij)) (take (Z.to_nat anz) Ax)
             ++ drop (Z.to_nat anz) Cx,
           Ax)).
Proof.
  intros Hs HA HC. unfold GB_unop__identity_int8_fc64, GB_unop_omp. cbn [orb].
  destruct (iterate_spec
              (fun aij => GB_cast_to_int8_t (creal aij)) (fun x : Z => x)
              schedule (Cx, Ax))
    as ([Cx' Ax'] & Hit & Happ).
  { now apply schedule_NoDup with anz. }
  { intros p Hp. rewrite Hs in Hp. apply program_order_elem in Hp.
    simpl. split; apply lookup_lt_is_Some; lia. }
  apply (applied_perm _ _ _ _ _ _ Hs) in Happ. destruct Happ as [Hin Hout].
  rewrite Hit. simpl.
  apply iterate_separate_Ax in Hit as [HAx Hlen]; simpl in HAx, Hlen.
  subst Ax'. do 3 f_equal. apply list_eq. intros q.
  destruct (decide (q < Z.to_nat anz)) as [Hq|Hq].
  - destruct (Hin q) as (aij & Ha & Hc); [now apply program_order_elem|].
    simpl in Ha, Hc.
    rewrite Hc, lookup_app_l by (rewrite length_map, length_take; lia).
    now rewrite list_lookup_fmap, lookup_take_lt, Ha by lia.
  - assert (Hq' := Hout q). rewrite program_order_elem in Hq'.
    specialize (Hq' Hq). simpl in Hq'. rewrite Hq'.
    rewrite lookup_app_r by (rewrite length_map, length_take; lia).
    rewrite length_map, length_take, lookup_drop. f_equal. lia.
Qed.

Example GB_unop__identity_int8_fc64_runs :
  GB_unop__identity_int8_fc64 saturating_int8 false false false
    [2; 0; 1] (example_Cx, example_Ax) 3 2
  = Some (GrB_SUCCESS, ([1; -128; 0; 9; 9]%Z, example_Ax)).
Proof. vm_compute. reflexivity. Qed.

Example GB_unop__identity_int8_fc64_disabled :
  GB_unop__identity_int8_fc64 saturating_int8 false true false
    [0; 1; 2] (example_Cx, example_Ax) 3 2
  = Some (GrB_NO_VALUE, (example_Cx, example_Ax)).
Proof. reflexivity. Qed.

(** The log1p kernel on one array passed as [Cx] and as [Ax]: every entry
    is replaced by its image. *)
Example GB_unop__log1p_fc32_fc32_in_place (f : nat -> nat) :
  GB_unop__log1p_fc32_fc32 nat f false false [1; 2; 0] [10; 20; 30; 40] 3 4
  = Some (GrB_SUCCESS, [f 10; f 20; f 30; 40]).
Proof. reflexivity. Qed.

Ltac below_three p :=
  destruct p as [|[|[|p]]]; simpl; [split; eauto ..| lia].

Lemma example_schedule : [2; 0; 1] ≡ₚ program_order 3.
Proof.
  change (program_order 3) with [0; 1; 2].
  etrans; [apply perm_swap|]. apply perm_skip, perm_swap.
Defined.

Lemma GB_unop_applies_cast_op_witness :
  exists m',
    GB_unop__identity_int8_fc64 saturating_int8 false false false
      [2; 0; 1] (example_Cx, example_Ax) 3 2 = Some (GrB_SUCCESS, m') /\
    (forall p, p < Z.to_nat 3 ->
       exists aij, example_Ax !! p = Some aij /\
                   fst m' !! p = Some (saturating_int8 (creal aij))) /\
    (forall q, Z.to_nat 3 <= q -> fst m' !! q = example_Cx !! q).
Proof.
  refine (GB_unop_applies_cast_op
            (fun aij => saturating_int8 (creal aij)) (fun x : Z => x) false
            [2; 0; 1] (example_Cx, example_Ax) 3 2 eq_refl example_schedule _).
  intros p Hp. below_three p.
Defined.

Lemma generic_and_specialized_agree_witness :
  exists m1 m2,
    GB_apply
      (Some (GB_unop__identity_int8_fc64 saturating_int8 false false false [2; 0; 1]))
      example_identity_int8 [0; 1; 2] (example_Cx, example_Ax) 3 2
      = Some (GrB_SUCCESS, m1) /\
    GB_apply_generic example_identity_int8 [0; 1; 2] (example_Cx, example_Ax) 3 2
      = Some (GrB_SUCCESS, m2) /\
    (forall q, fst m1 !! q = fst m2 !! q) /\
    (false = false ->
     GB_unop__identity_int8_fc64 saturating_int8 false false false
       [2; 0; 1] (example_Cx, example_Ax) 3 2 = Some (GrB_SUCCESS, m1)).
Proof.
  refine (generic_and_specialized_agree
            (fun aij => saturating_int8 (creal aij)) (fun x : Z => x) false
            example_identity_int8 [2; 0; 1] [0; 1; 2]
            (example_Cx, example_Ax) 3 2
            (fun _ => eq_refl) (fun _ => eq_refl)
            example_schedule (Permutation_refl _) _).
  intros p Hp. below_three p.
Defined.

Lemma disabled_kernel_falls_back_witness :
  GB_unop__identity_int8_fc64 saturating_int8 false true false
    [2; 0; 1] (example_Cx, example_Ax) 3 2
    = Some (GrB_NO_VALUE, (example_Cx, example_Ax)) /\
  GB_apply
    (Some (GB_unop__identity_int8_fc64 saturating_int8 false true false [2; 0; 1]))
    example_identity_int8 [0; 1; 2] (example_Cx, example_Ax) 3 2
    = Some (GrB_SUCCESS, ([1; -128; 0; 9; 9]%Z, example_Ax)).
Proof.
  destruct (disabled_kernel_falls_back
              (fun aij => saturating_int8 (creal aij)) (fun x : Z => x) true
              example_identity_int8 [2; 0; 1] [0; 1; 2]
              (example_Cx, example_Ax) 3 2 eq_refl)
    as (Hk & Hfall & _ & _).
  split; [exact Hk|]. etrans; [exact Hfall|]. vm_compute. reflexivity.
Defined.

End Unop.

(** ** The queue of matrices with pending tuples, and GrB_wait

    GB_Global.c holds the head pointer of the queue and documents it; the
    matrices, their links and GrB_wait are elsewhere in the library. *)
Module Pending.
Import Global.

(** Modelled from the spec: a SparseMatrix as far as pending updates go;
    the matrix object is outside the files embedded here.  "A typed value
    buffer" with "an index buffer"
    is the finite map [content]; the "unflushed incremental element
    updates" are [updates], oldest first; the PendingRecord is "an
    intrusive link (previous/next)", present ([enqueued]) "if and only if
    that matrix has unflushed incremental element updates". *)
Record Matrix := {
  content : gmap (nat * nat) Z;
  updates : list (nat * nat * Z);
  enqueued : bool;
  queue_prev : pointer;
  queue_next : pointer
}.

(** The process: the global storage of GB_Global.c, whose [queue_head] is
    the head of the pending set and whose [mode] is the execution mode,
    the matrices by address, and the log of the materializations done,
    latest first. *)
Record State := {
  global : GB_Global_struct;
  matrices : gmap N Matrix;
  materialized : list N
}.

Definition set_links (prev next : pointer) (enq : bool) (M : Matrix) : Matrix :=
  {| content := content M; updates := updates M; enqueued := enq;
     queue_prev := prev; queue_next := next |}.

Definition set_prev (prev : pointer) (M : Matrix) : Matrix :=
  set_links prev (queue_next M) (enqueued M) M.

Definition set_next (next : pointer) (M : Matrix) : Matrix :=
  set_links (queue_prev M) next (enqueued M) M.

(** An update through a pointer, which may be [NULL]. *)
Definition at_ptr (p : pointer) (f : Matrix -> Matrix) (ms : gmap N Matrix)
  : gmap N Matrix :=
  match p with
  | NULL => ms
  | Block a => alter f a ms
  end.

(** Modelled from the spec: "O(1) insertion/removal per matrix" in the
    pending set, by the links the matrix itself holds.  Insertion is at
    the head. *)
Definition queue_insert (a : N) (s : State) : State :=
  match matrices s !! a with
  | Some M =>
      if enqueued M then s
      else
        let head := GB_Global_queue_head_get (global s) in
        let ms := <[a := set_links NULL head true M]> (matrices s) in
        let ms := at_ptr head (set_prev (Block a)) ms in
        {| global := GB_Global_queue_head_set (Block a) (global s);
           matrices := ms;
           materialized := materialized s |}
  | None => s
  end.

Definition queue_remove (a : N) (s : State) : State :=
  match matrices s !! a with
  | Some M =>
      if enqueued M then
        let prev := queue_prev M in
        let next := queue_next M in
        let ms := <[a := set_links NULL NULL false M]> (matrices s) in
        let ms := at_ptr prev (set_next next) ms in
        let ms := at_ptr next (set_prev prev) ms in
        {| global :=
             match prev with
             | NULL => GB_Global_queue_head_set next (global s)
             | Block _ => global s
             end;
           matrices := ms;
           materialized := materialized s |}
      else s
  | None => s
  end.

(** Modelled from the spec: materialization, "pending updates applied into
    the compressed representation, and removed from the Pending set". *)
Definition apply_update (c : gmap (nat * nat) Z) (u : nat * nat * Z)
  : gmap (nat * nat) Z :=
  <[(u.1.1, u.1.2) := u.2]> c.

Definition flush (M : Matrix) : Matrix :=
  {| content := foldl apply_update (content M) (updates M);
     updates := [];
     enqueued := enqueued M;
     queue_prev := queue_prev M;
     queue_next := queue_next M |}.

Definition materialize (a : N) (s : State) : State :=
  match matrices s !! a with
  | Some _ =>
      let s1 := queue_remove a s in
      {| global := global s1;
         matrices := alter flush a (matrices s1);
         materialized := a :: materialized s |}
  | None => s
  end.

(** Modelled from the spec: an element update.  The matrix "accumulates
    pending element updates (which joins the Pending set on the first such
    update)" and is materialized "immediately after each update" in the
    eager mode, [GrB_BLOCKING]. *)
Definition add_update (u : nat * nat * Z) (M : Matrix) : Matrix :=
  {| content := content M; updates := updates M ++ [u];
     enqueued := enqueued M;
     queue_prev := queue_prev M; queue_next := queue_next M |}.

Definition set_element (a : N) (i j : nat) (x : Z) (s : State) : State :=
  let s1 := {| global := global s;
               matrices := alter (add_update (i, j, x)) a (matrices s);
               materialized := materialized s |} in
  let s2 := queue_insert a s1 in
  match GB_Global_mode_get (global s) with
  | GrB_BLOCKING => materialize a s2
  | GrB_NONBLOCKING => s2
  end.

(** Modelled from the spec: [wait ()] "traverses the entire Pending set
    once, materializes every matrix found there, and leaves the set
    empty".  The loop takes the matrix at the head until there is none;
    [fuel] bounds the number of turns. *)
Fixpoint wait_loop (fuel : nat) (s : State) : option State :=
  match GB_Global_queue_head_get (global s) with
  | NULL => Some s
  | Block a =>
      match fuel with
      | O => None
      | S fuel' => wait_loop fuel' (materialize a s)
      end
  end.

Definition wait (s : State) : option (GrB_Info * State) :=
  s' ← wait_loop (size (matrices s)) s; Some (GrB_SUCCESS, s').

(** The pending set of a state, as the list of addresses met from the
    head along the [queue_next] links. *)
Definition head_ptr (l : list N) : pointer :=
  match l with
  | [] => NULL
  | a :: _ => Block a
  end.

Fixpoint chain (ms : gmap N Matrix) (prev : pointer) (l : list N) : Prop :=
  match l with
  | [] => True
  | a :: t =>
      (exists M, ms !! a = Some M /\ enqueued M = true /\ updates M <> [] /\
                 queue_prev M = prev /\ queue_next M = head_ptr t) /\
      chain ms (Block a) t
  end.

(** [l] is the pending set of [s]: the links are those of a doubly linked
    list without repetition, and the matrices outside it have nothing
    pending. *)
Definition queue_is (s : State) (l : list N) : Prop :=
  GB_Global_queue_head_get (global s) = head_ptr l /\
  NoDup l /\
  chain (matrices s) NULL l /\
  (forall a M, matrices s !! a = Some M -> a ∉ l ->
     enqueued M = false /\ updates M = []).

(** Pointers can be compared. *)
#[export] Instance pointer_eq_dec : EqDecision pointer.
Proof. solve_decision. Defined.

(** Every matrix of [s] is a matrix of [s'], with its updates applied and
    none left pending. *)
Definition flushed_from (s s' : State) : Prop :=
  forall b M, matrices s !! b = Some M ->
    exists M', matrices s' !! b = Some M' /\
      content M' = foldl apply_update (content M) (updates M) /\
      updates M' = [].

(** A matrix as it is created: empty, with nothing pending. *)
Definition empty_matrix : Matrix :=
  {| content := ∅; updates := []; enqueued := false;
     queue_prev := NULL; queue_next := NULL |}.

(** Three empty matrices at the addresses 1, 2 and 3, in the deferred
    mode, then two updates of the first and one of the second. *)
Definition example_start : State :=
  {| global := example_Global;
     matrices := gset_to_gmap empty_matrix {[1%N; 2%N; 3%N]};
     materialized := [] |}.

Definition example_state : State :=
  set_element 2 1 1 7 (set_element 1 0 0 6 (set_element 1 0 0 5 example_start)).

(** *** Properties of the pending set *)

Lemma lookup_at_ptr_ne p f ms b :
  p <> Block b -> at_ptr p f ms !! b = ms !! b.
Proof.
  destruct p as [|a]; simpl; [reflexivity|].
  intros Hne. apply lookup_alter_ne. congruence.
Qed.

Lemma lookup_at_ptr_eq f ms b :
  at_ptr (Block b) f ms !! b = f <$> ms !! b.
Proof. simpl. apply lookup_alter_eq. Qed.

Lemma head_ptr_elem l b : head_ptr l = Block b -> b ∈ l.
Proof. destruct l; simpl; [discriminate|]. intros [= ->]. left. Qed.

(** A chain only depends on the matrices it goes through. *)
Lemma chain_ext ms ms' l : forall prev,
  (forall c, c ∈ l -> ms' !! c = ms !! c) ->
  chain ms prev l -> chain ms' prev l.
Proof.
  induction l as [|a t IH]; intros prev Hsame; simpl; [auto|].
  intros [(M & HM & HMspec) Ht]. split.
  - exists M. split; [|exact HMspec]. rewrite Hsame; [exact HM|left].
  - apply IH; [|exact Ht]. intros c Hc. apply Hsame. now right.
Qed.

Lemma chain_elem ms l : forall prev a,
  chain ms prev l -> a ∈ l ->
  exists M, ms !! a = Some M /\ enqueued M = true /\ updates M <> [].
Proof.
  induction l as [|b t IH]; intros prev a; simpl.
  - intros _ Ha. inversion Ha.
  - intros [(M & HM & He & Hu & _) Ht] Ha.
    apply elem_of_cons in Ha as [->|Ha]; [eauto|].
    eapply IH; eauto.
Qed.

(** The pending set is no larger than the set of matrices. *)
Lemma queue_length s l : queue_is s l -> length l <= size (matrices s).
Proof.
  intros (_ & Hnd & Hchain & _).
  rewrite <- size_dom.
  change (size (dom (matrices s))) with (length (elements (dom (matrices s)))).
  apply submseteq_length, NoDup_submseteq; [exact Hnd|].
  intros a Ha. apply elem_of_elements, elem_of_dom.
  destruct (chain_elem _ _ _ _ Hchain Ha) as (M & -> & _). eauto.
Qed.

(** Materializing the matrix at the head of the pending set: the rest of
    the set is the pending set after, the matrix holds its updates and the
    others are as they were. *)
Lemma materialize_head s a t :
  queue_is s (a :: t) ->
  queue_is (materialize a s) t /\
  materialized (materialize a s) = a :: materialized s /\
  size (matrices (materialize a s)) = size (matrices s) /\
  (forall b M, matrices s !! b = Some M ->
     exists M', matrices (materialize a s) !! b = Some M' /\
       if decide (b = a)
       then content M' = foldl apply_update (content M) (updates M) /\
            updates M' = []
       else content M' = content M /\ updates M' = updates M).
Proof.
  intros (Hhead & Hnd & [(M & HM & Henq & Hupd & Hprev & Hnext) Hchain] & Hout).
  apply NoDup_cons in Hnd as [Hat Hnd].
  assert (Hne : head_ptr t <> Block a).
  { intros Heq. apply Hat. now apply head_ptr_elem. }
  set (ms' := alter flush a
                (at_ptr (head_ptr t) (set_prev NULL)
                   (<[a := set_links NULL NULL false M]> (matrices s)))).
  assert (Hs' : materialize a s =
                {| global := GB_Global_queue_head_set (head_ptr t) (global s);
                   matrices := ms';
                   materialized := a :: materialized s |}).
  { unfold materialize, queue_remove. rewrite HM, Henq, Hprev, Hnext. reflexivity. }
  assert (Ha : ms' !! a = Some (flush (set_links NULL NULL false M))).
  { unfold ms'. rewrite lookup_alter_eq, lookup_at_ptr_ne by exact Hne.
    now rewrite lookup_insert_eq. }
  assert (Hb : forall b, b <> a ->
            ms' !! b = if decide (head_ptr t = Block b)
                       then set_prev NULL <$> matrices s !! b
                       else matrices s !! b).
  { intros b Hba. unfold ms'. rewrite lookup_alter_ne by congruence.
    case_decide as Hh.
    - rewrite Hh, lookup_at_ptr_eq. now rewrite lookup_insert_ne by congruence.
    - rewrite lookup_at_ptr_ne by exact Hh. now rewrite lookup_insert_ne by congruence. }
  assert (Hsize : size ms' = size (matrices s)).
  { assert (a ∈ dom (matrices s)) by (apply elem_of_dom; eauto).
    unfold ms'. rewrite <- !size_dom, dom_alter_L.
    destruct (head_ptr t); simpl; rewrite ?dom_alter_L, dom_insert_L;
      f_equal; apply subseteq_union_1_L, singleton_subseteq_l; assumption. }
  clearbody ms'. rewrite Hs'. unfold queue_is.
  cbn [matrices global materialized].
  split; [|split; [reflexivity|split; [exact Hsize|]]].
  - split; [now destruct (global s)|]. split; [exact Hnd|]. split.
    + destruct t as [|b t']; [exact I|].
      simpl in Hchain. destruct Hchain as [(Mb & HMb & Hbe & Hbu & Hbp & Hbn) Ht'].
      assert (Hba : b <> a) by (intros ->; apply Hat; left).
      apply NoDup_cons in Hnd as [Hbt' Hnd'].
      split.
      * exists (set_prev NULL Mb). rewrite Hb by exact Hba.
        rewrite decide_True by reflexivity. rewrite HMb. simpl. auto.
      * apply chain_ext with (matrices s); [|exact Ht'].
        intros c Hc.
        assert (c <> a) by (intros ->; apply Hat; now right).
        assert (c <> b) by (intros ->; contradiction).
        rewrite Hb by assumption. simpl. rewrite decide_False; congruence.
    + intros c Mc HMc Hct.
      destruct (decide (c = a)) as [Hca|Hca].
      * subst c. rewrite Ha in HMc. injection HMc as <-. simpl. auto.
      * rewrite Hb in HMc by exact Hca.
        rewrite decide_False in HMc.
        2:{ intros Heq. apply Hct. now apply head_ptr_elem. }
        apply (Hout c Mc HMc). intros Hc. apply elem_of_cons in Hc as [?|?]; auto.
  - intros b Mb HMb. destruct (decide (b = a)) as [Hba|Hba].
    + subst b. rewrite Ha. eexists. split; [reflexivity|].
      rewrite HM in HMb. injection HMb as <-. simpl. auto.
    + rewrite Hb by exact Hba. rewrite HMb.
      case_decide; simpl; eexists; split; try reflexivity; auto.
Qed.

(** A change of the data of one matrix that keeps it pending keeps the
    chain. *)
Lemma chain_alter ms f a l : forall prev,
  (forall M, enqueued (f M) = enqueued M /\ queue_prev (f M) = queue_prev M /\
             queue_next (f M) = queue_next M /\ updates (f M) <> []) ->
  chain ms prev l -> chain (alter f a ms) prev l.
Proof.
  intros prev Hf. revert prev.
  induction l as [|b t IH]; intros prev; simpl; [auto|].
  intros [(M & HM & He & Hu & Hp & Hn) Ht]. split; [|now apply IH].
  destruct (Hf M) as (He' & Hp' & Hn' & Hu').
  destruct (decide (a = b)) as [->|Hab].
  - exists (f M). rewrite lookup_alter_eq, HM. simpl.
    repeat split; congruence.
  - exists M. rewrite lookup_alter_ne by exact Hab. auto.
Qed.

Lemma add_update_keeps u M :
  enqueued (add_update u M) = enqueued M /\
  queue_prev (add_update u M) = queue_prev M /\
  queue_next (add_update u M) = queue_next M /\
  updates (add_update u M) <> [].
Proof. repeat split. simpl. now destruct (updates M). Qed.

Lemma queue_head_get_set p g :
  GB_Global_queue_head_get (GB_Global_queue_head_set p g) = p.
Proof. now destruct g. Qed.

Lemma mode_get_queue_head_set p g :
  GB_Global_mode_get (GB_Global_queue_head_set p g) = GB_Global_mode_get g.
Proof. now destruct g. Qed.

(** The pending set after an element update that is not followed by a
    materialization: the matrix joins the set, at the head, on its first
    update, and the set is as it was on a later one. *)
Lemma update_then_insert s l a u M :
  queue_is s l -> matrices s !! a = Some M ->
  queue_is
    (queue_insert a
       {| global := global s;
          matrices := alter (add_update u) a (matrices s);
          materialized := materialized s |})
    (if decide (a ∈ l) then l else a :: l).
Proof.
  intros (Hhead & Hnd & Hchain & Hout) HM.
  unfold queue_insert. cbn [matrices global materialized].
  rewrite lookup_alter_eq, HM. cbn [fmap option_fmap option_map add_update enqueued].
  case_decide as Hal.
  - destruct (chain_elem _ _ _ _ Hchain Hal) as (M' & HM' & He & _).
    assert (M' = M) by congruence. subst M'. rewrite He.
    split; [exact Hhead|]. split; [exact Hnd|]. cbn [matrices]. split.
    + apply chain_alter; [apply add_update_keeps | exact Hchain].
    + intros b Mb HMb Hb. assert (a <> b) by (intros ->; contradiction).
      rewrite lookup_alter_ne in HMb by assumption. now apply (Hout b Mb).
  - destruct (Hout a M HM Hal) as [He Hu]. rewrite He, Hhead.
    assert (Hne : head_ptr l <> Block a).
    { intros Heq. apply Hal. now apply head_ptr_elem. }
    set (Ma := set_links NULL (head_ptr l) true (add_update u M)).
    set (ms' := at_ptr (head_ptr l) (set_prev (Block a))
                  (<[a := Ma]> (alter (add_update u) a (matrices s)))).
    assert (Ha : ms' !! a = Some Ma).
    { unfold ms'. rewrite lookup_at_ptr_ne by exact Hne. apply lookup_insert_eq. }
    assert (Hb : forall b, b <> a ->
              ms' !! b = if decide (head_ptr l = Block b)
                         then set_prev (Block a) <$> matrices s !! b
                         else matrices s !! b).
    { intros b Hba. unfold ms'. case_decide as Hh.
      - rewrite Hh, lookup_at_ptr_eq, lookup_insert_ne, lookup_alter_ne; congruence.
      - rewrite lookup_at_ptr_ne, lookup_insert_ne, lookup_alter_ne; congruence. }
    clearbody ms'. unfold queue_is. cbn [matrices global materialized].
    split; [apply queue_head_get_set|]. split; [now apply NoDup_cons|]. split.
    + split.
      * exists Ma. split; [exact Ha|]. unfold Ma. simpl.
        repeat split. now destruct (updates M).
      * destruct l as [|b t]; [exact I|].
        simpl in Hchain. destruct Hchain as [(Mb & HMb & Hbe & Hbu & Hbp & Hbn) Ht].
        assert (Hba : b <> a) by (intros ->; apply Hal; left).
        apply NoDup_cons in Hnd as [Hbt Hnd'].
        split.
        -- exists (set_prev (Block a) Mb). rewrite Hb by exact Hba.
           rewrite decide_True by reflexivity. rewrite HMb. simpl. auto.
        -- apply chain_ext with (matrices s); [|exact Ht].
           intros c Hc.
           assert (c <> a) by (intros ->; apply Hal; now right).
           assert (c <> b) by (intros ->; contradiction).
           rewrite Hb by assumption. simpl. rewrite decide_False; congruence.
    + intros c Mc HMc Hc. apply not_elem_of_cons in Hc as [Hca Hcl].
      rewrite Hb in HMc by exact Hca. rewrite decide_False in HMc.
      2:{ intros Heq. apply Hcl. now apply head_ptr_elem. }
      now apply (Hout c Mc).
Qed.

(** Deferred mode: an update leaves the matrix pending. *)
Lemma set_element_deferred s l a i j x M :
  GB_Global_mode_get (global s) = GrB_NONBLOCKING ->
  queue_is s l -> matrices s !! a = Some M ->
  queue_is (set_element a i j x s) (if decide (a ∈ l) then l else a :: l).
Proof.
  intros Hmode Hq HM. unfold set_element. rewrite Hmode.
  now apply update_then_insert with M.
Qed.

(** Eager mode: an update of a matrix outside the pending set is
    materialized at once, and the pending set is as it was. *)
Lemma set_element_eager s l a i j x M :
  GB_Global_mode_get (global s) = GrB_BLOCKING ->
  queue_is s l -> matrices s !! a = Some M -> a ∉ l ->
  queue_is (set_element a i j x s) l /\
  exists M', matrices (set_element a i j x s) !! a = Some M' /\
             content M' = <[(i, j) := x]> (content M) /\ updates M' = [].
Proof.
  intros Hmode Hq HM Hal. unfold set_element. rewrite Hmode.
  assert (Hq2 := update_then_insert s l a (i, j, x) M Hq HM).
  rewrite decide_False in Hq2 by exact Hal.
  destruct (materialize_head _ a l Hq2) as (Hq3 & _ & _ & Hdata).
  split; [exact Hq3|].
  destruct Hq as (Hhead & _ & _ & Hout). destruct (Hout a M HM Hal) as [He Hu].
  destruct Hq2 as (_ & _ & [(Ma & HMa & _) _] & _).
  destruct (Hdata a Ma HMa) as (M' & HM' & Hcase).
  rewrite decide_True in Hcase by reflexivity. destruct Hcase as [Hc Hu'].
  exists M'. split; [exact HM'|]. split; [|exact Hu'].
  revert HMa. unfold queue_insert. cbn [matrices global materialized].
  rewrite lookup_alter_eq, HM. cbn [fmap option_fmap option_map add_update enqueued].
  rewrite He, Hhead. cbn [matrices].
  rewrite lookup_at_ptr_ne, lookup_insert_eq.
  - intros [= <-]. rewrite Hc. simpl. rewrite Hu. reflexivity.
  - intros Heq. apply Hal. now apply head_ptr_elem.
Qed.

(** The loop of [wait] on a state whose pending set is [l]: with at least
    [length l] turns it ends, has materialized the matrices of [l] once
    each, in order, and has left every matrix with its updates applied. *)
Lemma wait_loop_spec l : forall s fuel,
  queue_is s l -> length l <= fuel ->
  exists s',
    wait_loop fuel s = Some s' /\
    queue_is s' [] /\
    materialized s' = rev l ++ materialized s /\
    size (matrices s') = size (matrices s) /\
    flushed_from s s'.
Proof.
  induction l as [|a t IH]; intros s fuel Hq Hfuel.
  - exists s. destruct Hq as (Hhead & Hq). simpl in Hhead.
    split; [destruct fuel; simpl; now rewrite Hhead|].
    split; [now split|]. split; [reflexivity|]. split; [reflexivity|].
    intros b M HM. exists M. split; [exact HM|].
    destruct Hq as (_ & _ & Hout). destruct (Hout b M HM) as [_ Hu].
    { intros Hb. inversion Hb. }
    rewrite Hu. auto.
  - destruct fuel as [|fuel]; [simpl in Hfuel; lia|].
    destruct (materialize_head s a t Hq) as (Hq1 & Hlog1 & Hsize1 & Hdata1).
    destruct (IH (materialize a s) fuel Hq1) as (s' & Hrun & Hq' & Hlog & Hsize & Hdata).
    { simpl in Hfuel. lia. }
    exists s'. destruct Hq as (Hhead & _). simpl in Hhead.
    split; [simpl; now rewrite Hhead|]. split; [exact Hq'|].
    split; [rewrite Hlog, Hlog1; simpl; now rewrite <- app_assoc|].
    split; [congruence|].
    intros b M HM. destruct (Hdata1 b M HM) as (M1 & HM1 & Hcase).
    destruct (Hdata b M1 HM1) as (M' & HM' & Hc & Hu).
    exists M'. split; [exact HM'|]. split; [|exact Hu].
    rewrite Hc. destruct (decide (b = a)); destruct Hcase as [-> ->]; reflexivity.
Qed.

(** C4: on a state whose pending set is [l], [wait] succeeds; it has
    materialized the matrices of [l], each once, and no other; the pending
    set is empty and every matrix holds its updates; and a second [wait]
    succeeds and leaves the state, its log of materializations included,
    as it found it. *)
Theorem wait_materializes_all_and_is_idempotent (s : State) (l : list N) :
  queue_is s l ->
  exists s',
    wait s = Some (GrB_SUCCESS, s') /\
    queue_is s' [] /\
    GB_Global_queue_head_get (global s') = NULL /\
    materialized s' = rev l ++ materialized s /\
    flushed_from s s' /\
    wait s' = Some (GrB_SUCCESS, s').
Proof.
  intros Hq.
  destruct (wait_loop_spec l s (size (matrices s)) Hq (queue_length s l Hq))
    as (s' & Hrun & Hq' & Hlog & Hsize & Hdata).
  exists s'. unfold wait. rewrite Hrun. simpl.
  split; [reflexivity|]. split; [exact Hq'|].
  destruct Hq' as (Hhead & Hrest). split; [exact Hhead|].
  split; [exact Hlog|]. split; [exact Hdata|].
  simpl in Hhead. destruct (size (matrices s')); simpl; now rewrite Hhead.
Qed.

(** *** The pending set on a concrete state *)

Lemma example_start_queue : queue_is example_start [].
Proof.
  split; [reflexivity|]. split; [constructor|]. split; [exact I|].
  intros a M HM _. apply lookup_gset_to_gmap_Some in HM as [_ <-]. now split.
Defined.

Lemma example_state_queue : queue_is example_state [2%N; 1%N].
Proof.
  assert (H1 := set_element_deferred example_start [] 1 0 0 5 empty_matrix
                  eq_refl example_start_queue eq_refl).
  rewrite decide_False in H1 by apply not_elem_of_nil.
  destruct H1 as (Hh1 & Hn1 & Hc1 & Ho1).
  destruct (Hc1) as [(M1 & HM1 & _) _].
  assert (H2 := set_element_deferred (set_element 1 0 0 5 example_start)
                  [1%N] 1 0 0 6 M1
                  eq_refl (conj Hh1 (conj Hn1 (conj Hc1 Ho1))) HM1).
  rewrite decide_True in H2 by left.
  exact (set_element_deferred
           (set_element 1 0 0 6 (set_element 1 0 0 5 example_start))
           [1%N] 2 1 1 7 empty_matrix eq_refl H2 eq_refl).
Defined.

Example wait_example :
  exists s',
    wait example_state = Some (GrB_SUCCESS, s') /\
    GB_Global_queue_head_get (global s') = NULL /\
    materialized s' = [1%N; 2%N] /\
    (content <$> matrices s' !! 1%N) = Some {[ (0, 0) := 6%Z ]} /\
    (content <$> matrices s' !! 2%N) = Some {[ (1, 1) := 7%Z ]} /\
    (content <$> matrices s' !! 3%N) = Some ∅ /\
    wait s' = Some (GrB_SUCCESS, s').
Proof. eexists. repeat split; vm_compute; reflexivity. Qed.

Lemma wait_materializes_all_and_is_idempotent_witness :
  exists s',
    wait example_state = Some (GrB_SUCCESS, s') /\
    queue_is s' [] /\
    GB_Global_queue_head_get (global s') = NULL /\
    materialized s' = rev [2%N; 1%N] ++ materialized example_state /\
    flushed_from example_state s' /\
    wait s' = Some (GrB_SUCCESS, s').
Proof.
  exact (wait_materializes_all_and_is_idempotent
           example_state [2%N; 1%N] example_state_queue).
Defined.

End Pending.

(** ** Test/GB_mex_AxB.c: the harness around the multiply engine *)
Module MexAxB.
Local Open Scope string_scope.
Local Open Scope list_scope.
Local Open Scope Z_scope.

(** A matrix as far as the harness looks into it: [A->vlen], [A->vdim],
    [A->is_csc] and whether [A->type == Complex]. *)
Record GrB_Matrix := {
  vlen : Z;
  vdim : Z;
  is_csc : bool;
  type_is_Complex : bool
}.

(** The values of [GrB_Desc_Value] the harness accepts, as its comment
    gives them: 0 or not present for the default, 1001 Gustavson, 1002
    heap, 1003 dot. *)
Definition GxB_DEFAULT : Z := 0.
Definition GxB_AxB_GUSTAVSON : Z := 1001.
Definition GxB_AxB_HEAP : Z := 1002.
Definition GxB_AxB_DOT : Z := 1003.

(** The calls the harness makes into the library and into MATLAB's.  A
    call that creates or fills a matrix carries the name of the handle it
    is given, so that the two [GrB_Matrix_new] of [axb_complex] are two
    calls even on operands of one shape. *)
Inductive event :=
  | GB_mx_get_global
  | GB_mx_mxArray_to_Matrix (name : string)
  | GB_MATRIX_FREE (name : string)
  | GrB_Matrix_free (name : string)
  | GrB_Monoid_free
  | GrB_Semiring_free
  | GB_mx_put_global
  | GrB_Monoid_new_FP64
  | GrB_Semiring_new
  | GrB_Matrix_new (name : string) (nrows ncols : Z)
  | GrB_Matrix_apply_conj (name : string)
  | GrB_wait
  | GB_AxB_meta (A B : GrB_Matrix) (atranspose btranspose : bool) (method : Z)
  | GB_mx_Matrix_to_mxArray.

(** A call that takes part in the multiplication itself: building the
    semiring or the conjugates, materializing, multiplying. *)
Definition is_computation (e : event) : bool :=
  match e with
  | GrB_Monoid_new_FP64 | GrB_Semiring_new | GrB_Matrix_new _ _ _
  | GrB_Matrix_apply_conj _ | GrB_wait | GB_AxB_meta _ _ _ _ _ => true
  | _ => false
  end.

(** How a call of [mexFunction] ends: [mexErrMsgTxt] does not return to
    its caller, it hands the message to MATLAB. *)
Inductive outcome :=
  | mexErrMsgTxt (msg : string)
  | returned (C : option GrB_Matrix).

(** The arguments of [mexFunction]: the counts, the two matrices that
    [GB_mx_mxArray_to_Matrix] makes of [pargin [0]] and [pargin [1]]
    ([None] for [NULL]), and the scalars in [pargin [2..4]]. *)
Record arguments := {
  nargout : Z;
  nargin : Z;
  pargin0 : option GrB_Matrix;
  pargin1 : option GrB_Matrix;
  pargin2 : bool;
  pargin3 : bool;
  pargin4 : Z
}.

(** [FREE_ALL]. *)
Definition FREE_ALL : list event :=
  [ GB_MATRIX_FREE "A"; GB_MATRIX_FREE "Aconj"; GB_MATRIX_FREE "B";
    GB_MATRIX_FREE "Bconj"; GB_MATRIX_FREE "C"; GB_MATRIX_FREE "Mask";
    GrB_Monoid_free; GrB_Semiring_free; GB_mx_put_global ].

Section Harness.

(** [GB_NROWS] and [GB_NCOLS] of GB.h, [GET_SCALAR] and [METHOD] of
    GB_mex.h are macros from outside the files embedded here, and the
    library behind the calls is external to the harness.  The first two
    are taken as functions of the matrix; the return codes of the library
    and the product as given.  No two calls of one run are the same
    event, so that [info_of] lets each call of a run return any code,
    whatever the others return. *)
Variable GB_NROWS : GrB_Matrix -> Z.
Variable GB_NCOLS : GrB_Matrix -> Z.
Variable info_of : event -> GrB_Info.
Variable product : GrB_Matrix -> GrB_Matrix -> bool -> bool -> Z -> option GrB_Matrix.
Variable conj_of : GrB_Matrix -> GrB_Matrix.

(** [METHOD (operation)] runs the operation and, when it fails, frees
    everything and raises the error; how it decides is left to the macro:
    it is given the operation and the trace and returns either the message
    it raises or the result [C], with the trace it leaves. *)
Variable METHOD :
  (list event -> GrB_Info * option GrB_Matrix * list event) ->
  list event -> (string + option GrB_Matrix) * list event.

(** Whether [GxB_STDC_VERSION >= 201112L]. *)
Variable complex_available : bool.

(** [GET_SCALAR (arg, type, n, default)]: the scalar in [pargin [arg]],
    or the default when it is "not present", as the harness says of its
    optional arguments. *)
Definition GET_SCALAR {T} (a : arguments) (arg : Z) (value default : T) : T :=
  if nargin a >? arg then value else default.

(** [axb]: the semiring for the regular [z += x*y], then the product. *)
Definition axb (A B : GrB_Matrix) (atranspose btranspose : bool) (AxB_method : Z)
    (tr : list event) : GrB_Info * option GrB_Matrix * list event :=
  let tr := tr ++ [GrB_Monoid_new_FP64] in
  match info_of GrB_Monoid_new_FP64 with
  | GrB_SUCCESS =>
      let tr := tr ++ [GrB_Semiring_new] in
      match info_of GrB_Semiring_new with
      | GrB_SUCCESS =>
          let call := GB_AxB_meta A B atranspose btranspose AxB_method in
          (info_of call,
           product A B atranspose btranspose AxB_method,
           tr ++ [call; GrB_Monoid_free; GrB_Semiring_free])
      | info => (info, None, tr ++ [GrB_Monoid_free])
      end
  | info => (info, None, tr)
  end.

(** [axb_complex]: the conjugates of the transposed operands, [GrB_wait]
    to force completion, then the product. *)
Definition axb_complex (A B : GrB_Matrix) (atranspose btranspose : bool)
    (AxB_method : Z) (tr : list event)
  : GrB_Info * option GrB_Matrix * list event :=
  let stepA :=
    if atranspose then
      let new := GrB_Matrix_new "Aconj" (vlen A) (vdim A) in
      match info_of new with
      | GrB_SUCCESS =>
          match info_of (GrB_Matrix_apply_conj "Aconj") with
          | GrB_SUCCESS =>
              inr (Some (conj_of A), tr ++ [new; GrB_Matrix_apply_conj "Aconj"])
          | info =>
              inl (info, tr ++ [new; GrB_Matrix_apply_conj "Aconj";
                                GrB_Matrix_free "Aconj"])
          end
      | info => inl (info, tr ++ [new])
      end
    else inr (None, tr) in
  match stepA with
  | inl (info, tr) => (info, None, tr)
  | inr (Aconj, tr) =>
      let stepB :=
        if btranspose then
          let new := GrB_Matrix_new "Bconj" (vlen B) (vdim B) in
          match info_of new with
          | GrB_SUCCESS =>
              match info_of (GrB_Matrix_apply_conj "Bconj") with
              | GrB_SUCCESS =>
                  inr (Some (conj_of B),
                       tr ++ [new; GrB_Matrix_apply_conj "Bconj"])
              | info =>
                  inl (info, tr ++ [new; GrB_Matrix_apply_conj "Bconj";
                                    GrB_Matrix_free "Bconj";
                                    GrB_Matrix_free "Aconj"])
              end
          | info => inl (info, tr ++ [new; GrB_Matrix_free "Aconj"])
          end
        else inr (None, tr) in
      match stepB with
      | inl (info, tr) => (info, None, tr)
      | inr (Bconj, tr) =>
          let tr := tr ++ [GrB_wait] in
          match info_of GrB_wait with
          | GrB_SUCCESS =>
              let A' := if atranspose then default A Aconj else A in
              let B' := if btranspose then default B Bconj else B in
              let call := GB_AxB_meta A' B' atranspose btranspose AxB_method in
              (info_of call,
               product A' B' atranspose btranspose AxB_method,
               tr ++ [call; GrB_Matrix_free "Bconj"; GrB_Matrix_free "Aconj"])
          | info =>
              (info, None, tr ++ [GrB_Matrix_free "Aconj"; GrB_Matrix_free "Bconj"])
          end
      end
  end.

(** [mexFunction], check by check. *)
Definition mexFunction (a : arguments) : outcome * list event :=
  let tr := [GB_mx_get_global] in
  (* check inputs *)
  if (nargout a >? 1) || (nargin a <? 2) || (nargin a >? 5) then
    (mexErrMsgTxt "Usage: C = GB_mex_AxB (A, B, atranspose, btranspose, axb_method)",
     tr)
  else
  (* get A and B *)
  let tr := tr ++ [GB_mx_mxArray_to_Matrix "A"; GB_mx_mxArray_to_Matrix "B"] in
  match pargin0 a, pargin1 a with
  | Some A, Some B =>
      if negb (is_csc A) || negb (is_csc B) then
        (mexErrMsgTxt "A and B must be in CSC format", tr)
      else
      let atranspose := GET_SCALAR a 2 (pargin2 a) false in
      let btranspose := GET_SCALAR a 3 (pargin3 a) false in
      let AxB_method := GET_SCALAR a 4 (pargin4 a) GxB_DEFAULT in
      if negb ((AxB_method =? GxB_DEFAULT) || (AxB_method =? GxB_AxB_GUSTAVSON)
               || (AxB_method =? GxB_AxB_HEAP) || (AxB_method =? GxB_AxB_DOT)) then
        (mexErrMsgTxt "unknown method", tr)
      else
      (* determine the dimensions *)
      let anrows := if atranspose then GB_NCOLS A else GB_NROWS A in
      let ancols := if atranspose then GB_NROWS A else GB_NCOLS A in
      let bnrows := if btranspose then GB_NCOLS B else GB_NROWS B in
      let bncols := if btranspose then GB_NROWS B else GB_NCOLS B in
      if negb (ancols =? bnrows) then
        (mexErrMsgTxt "invalid dimensions", tr ++ FREE_ALL)
      else
      let run operation :=
        match METHOD operation tr with
        | (inl msg, tr) => (mexErrMsgTxt msg, tr)
        | (inr C, tr) => (returned C, tr ++ GB_mx_Matrix_to_mxArray :: FREE_ALL)
        end in
      if type_is_Complex A then
        if complex_available
        then run (axb_complex A B atranspose btranspose AxB_method)
        else (mexErrMsgTxt "complex type not available", tr)
      else run (axb A B atranspose btranspose AxB_method)
  | _, _ => (mexErrMsgTxt "failed", tr ++ FREE_ALL)
  end.

(** The inner dimensions of [op (A)] and [op (B)]: the columns of the
    first and the rows of the second, after the transpose flags. *)
Definition inner_A (A : GrB_Matrix) (atranspose : bool) : Z :=
  if atranspose then GB_NROWS A else GB_NCOLS A.
Definition inner_B (B : GrB_Matrix) (btranspose : bool) : Z :=
  if btranspose then GB_NCOLS B else GB_NROWS B.

End Harness.

(** The harness's rejection of a shape incompatibility. *)
Definition DimensionMismatch : outcome := mexErrMsgTxt "invalid dimensions".

(** The arguments pass the checks that come before the dimensions. *)
Definition well_formed_call (a : arguments) (A B : GrB_Matrix) : Prop :=
  nargout a <= 1 /\ 2 <= nargin a <= 5 /\
  is_csc A = true /\ is_csc B = true /\
  In (GET_SCALAR a 4 (pargin4 a) GxB_DEFAULT)
     [GxB_DEFAULT; GxB_AxB_GUSTAVSON; GxB_AxB_HEAP; GxB_AxB_DOT].

(** The dimensions of a matrix held by column or by row. *)
Definition nrows_of (A : GrB_Matrix) : Z := if is_csc A then vlen A else vdim A.
Definition ncols_of (A : GrB_Matrix) : Z := if is_csc A then vdim A else vlen A.

(** A [METHOD] that runs the operation once. *)
Definition run_once
    (operation : list event -> GrB_Info * option GrB_Matrix * list event)
    (tr : list event) : (string + option GrB_Matrix) * list event :=
  match operation tr with
  | (GrB_SUCCESS, C, tr) => (inr C, tr)
  | (_, _, tr) => (inl "GraphBLAS error", tr ++ FREE_ALL)
  end.

Definition example_A : GrB_Matrix :=
  {| vlen := 3; vdim := 4; is_csc := true; type_is_Complex := false |}.
Definition example_B : GrB_Matrix :=
  {| vlen := 5; vdim := 2; is_csc := true; type_is_Complex := false |}.
Definition example_Bt : GrB_Matrix :=
  {| vlen := 2; vdim := 4; is_csc := true; type_is_Complex := false |}.

Definition example_product (A B : GrB_Matrix) (at_ bt : bool) (method : Z)
  : option GrB_Matrix :=
  Some {| vlen := if at_ then ncols_of A else nrows_of A;
          vdim := if bt then nrows_of B else ncols_of B;
          is_csc := true; type_is_Complex := false |}.

(** [C = GB_mex_AxB (A, B)] with a 3-by-4 [A] and a 5-by-2 [B]. *)
Definition example_call : arguments :=
  {| nargout := 1; nargin := 2;
     pargin0 := Some example_A; pargin1 := Some example_B;
     pargin2 := false; pargin3 := false; pargin4 := 0 |}.

(** [C = GB_mex_AxB (A, B, false, false, 1004)] with the same 3-by-4 [A]
    and 5-by-2 [B]: the inner dimensions differ, and the method is the
    hash method of the harness's comment. *)
Definition example_call_hash_mismatch : arguments :=
  {| nargout := 1; nargin := 5;
     pargin0 := Some example_A; pargin1 := Some example_B;
     pargin2 := false; pargin3 := false; pargin4 := 1004 |}.

(** [C = GB_mex_AxB (A, B, false, true, 1001)] with a 3-by-4 [A] and a
    2-by-4 [B]: the inner dimensions of [A] and [B'] agree. *)
Definition example_call_ok : arguments :=
  {| nargout := 1; nargin := 5;
     pargin0 := Some example_A; pargin1 := Some example_Bt;
     pargin2 := false; pargin3 := true; pargin4 := 1001 |}.

Section HarnessProperties.

Variable GB_NROWS : GrB_Matrix -> Z.
Variable GB_NCOLS : GrB_Matrix -> Z.
Variable info_of : event -> GrB_Info.
Variable product : GrB_Matrix -> GrB_Matrix -> bool -> bool -> Z -> option GrB_Matrix.
Variable conj_of : GrB_Matrix -> GrB_Matrix.
Variable METHOD :
  (list event -> GrB_Info * option GrB_Matrix * list event) ->
  list event -> (string + option GrB_Matrix) * list event.
Variable complex_available : bool.

Local Abbreviation mexFunction0 :=
  (mexFunction GB_NROWS GB_NCOLS info_of product conj_of METHOD complex_available).

(** The checks that come before the dimensions, on operands that were
    read: the counts, the storage by column, the method. *)
Lemma earlier_checks (a : arguments) (A B : GrB_Matrix) :
  well_formed_call a A B <->
  (nargout a >? 1) || (nargin a <? 2) || (nargin a >? 5) = false /\
  negb (is_csc A) || negb (is_csc B) = false /\
  negb ((GET_SCALAR a 4 (pargin4 a) GxB_DEFAULT =? GxB_DEFAULT)
        || (GET_SCALAR a 4 (pargin4 a) GxB_DEFAULT =? GxB_AxB_GUSTAVSON)
        || (GET_SCALAR a 4 (pargin4 a) GxB_DEFAULT =? GxB_AxB_HEAP)
        || (GET_SCALAR a 4 (pargin4 a) GxB_DEFAULT =? GxB_AxB_DOT)) = false.
Proof.
  unfold well_formed_call. cbn [In].
  rewrite negb_false_iff, !orb_false_iff, !negb_false_iff, !orb_true_iff,
    !Z.eqb_eq, !Z.gtb_ltb, !Z.ltb_ge.
  intuition (try lia; try congruence).
Qed.

(** C5, as amended: when the columns of [op (A)] and the rows of [op (B)]
    differ, the harness ends in an error and has made no call that takes
    part in the multiplication.  The error is the one for the dimensions,
    "invalid dimensions", raised right after the operands were read and
    freed, exactly when the arguments pass the checks that come first:
    the argument counts, both operands held by column, and a method among
    the default, Gustavson, heap and dot; otherwise it is the error of
    the first of these checks that fails. *)
Theorem dimension_mismatch_rejected (a : arguments) (A B : GrB_Matrix) :
  pargin0 a = Some A -> pargin1 a = Some B ->
  inner_A GB_NROWS GB_NCOLS A (GET_SCALAR a 2 (pargin2 a) false)
    <> inner_B GB_NROWS GB_NCOLS B (GET_SCALAR a 3 (pargin3 a) false) ->
  (exists msg, fst (mexFunction0 a) = mexErrMsgTxt msg) /\
  forallb (fun e => negb (is_computation e)) (snd (mexFunction0 a)) = true /\
  (well_formed_call a A B ->
   mexFunction0 a =
   (DimensionMismatch,
    [GB_mx_get_global; GB_mx_mxArray_to_Matrix "A"; GB_mx_mxArray_to_Matrix "B"]
      ++ FREE_ALL)) /\
  (fst (mexFunction0 a) = DimensionMismatch <-> well_formed_call a A B) /\
  (~ well_formed_call a A B ->
   fst (mexFunction0 a) =
   if (nargout a >? 1) || (nargin a <? 2) || (nargin a >? 5)
   then mexErrMsgTxt
          "Usage: C = GB_mex_AxB (A, B, atranspose, btranspose, axb_method)"
   else if negb (is_csc A) || negb (is_csc B)
   then mexErrMsgTxt "A and B must be in CSC format"
   else mexErrMsgTxt "unknown method").
Proof.
  intros HA HB Hdim. rewrite earlier_checks. unfold mexFunction, DimensionMismatch.
  rewrite HA, HB.
  assert (Hne : (inner_A GB_NROWS GB_NCOLS A (GET_SCALAR a 2 (pargin2 a) false)
                 =? inner_B GB_NROWS GB_NCOLS B (GET_SCALAR a 3 (pargin3 a) false))
                = false) by now apply Z.eqb_neq.
  unfold inner_A, inner_B in Hne.
  set (m := GET_SCALAR a 4 (pargin4 a) GxB_DEFAULT).
  destruct ((nargout a >? 1) || (nargin a <? 2) || (nargin a >? 5)) eqn:H1.
  { cbn [fst snd]. split; [eauto|]. split; [reflexivity|].
    split; [intros (H & _); discriminate H|].
    split; [split; [intros [=]|intros (H & _); discriminate H]|].
    reflexivity. }
  destruct (negb (is_csc A) || negb (is_csc B)) eqn:H2.
  { cbn [fst snd]. split; [eauto|]. split; [reflexivity|].
    split; [intros (_ & H & _); discriminate H|].
    split; [split; [intros [=]|intros (_ & H & _); discriminate H]|].
    reflexivity. }
  destruct (negb ((m =? GxB_DEFAULT) || (m =? GxB_AxB_GUSTAVSON)
                  || (m =? GxB_AxB_HEAP) || (m =? GxB_AxB_DOT))) eqn:H3.
  { cbn [fst snd]. split; [eauto|]. split; [reflexivity|].
    split; [intros (_ & _ & H); discriminate H|].
    split; [split; [intros [=]|intros (_ & _ & H); discriminate H]|].
    reflexivity. }
  rewrite Hne. cbn [negb fst snd].
  split; [eauto|]. split; [reflexivity|]. split; [reflexivity|].
  split; [split; auto|].
  intros Hn. exfalso. apply Hn. auto.
Qed.

(** When the inner dimensions agree and the earlier checks pass, the
    harness does go on to the multiplication. *)
Lemma dimensions_agree_runs (a : arguments) (A B : GrB_Matrix) :
  pargin0 a = Some A -> pargin1 a = Some B ->
  well_formed_call a A B -> type_is_Complex A = false ->
  inner_A GB_NROWS GB_NCOLS A (GET_SCALAR a 2 (pargin2 a) false)
    = inner_B GB_NROWS GB_NCOLS B (GET_SCALAR a 3 (pargin3 a) false) ->
  mexFunction0 a =
  match METHOD
          (axb info_of product A B
             (GET_SCALAR a 2 (pargin2 a) false) (GET_SCALAR a 3 (pargin3 a) false)
             (GET_SCALAR a 4 (pargin4 a) GxB_DEFAULT))
          [GB_mx_get_global; GB_mx_mxArray_to_Matrix "A"; GB_mx_mxArray_to_Matrix "B"]
  with
  | (inl msg, tr) => (mexErrMsgTxt msg, tr)
  | (inr C, tr) => (returned C, tr ++ GB_mx_Matrix_to_mxArray :: FREE_ALL)
  end.
Proof.
  intros HA HB (Hout & Hin & HcA & HcB & Hm) Hty Hdim.
  unfold mexFunction. rewrite HA, HB.
  assert (H1 : (nargout a >? 1) || (nargin a <? 2) || (nargin a >? 5) = false).
  { rewrite !orb_false_iff. repeat split; lia. }
  rewrite H1, HcA, HcB, Hty. cbn [negb orb].
  assert (H2 : negb
            ((GET_SCALAR a 4 (pargin4 a) GxB_DEFAULT =? GxB_DEFAULT)
             || (GET_SCALAR a 4 (pargin4 a) GxB_DEFAULT =? GxB_AxB_GUSTAVSON)
             || (GET_SCALAR a 4 (pargin4 a) GxB_DEFAULT =? GxB_AxB_HEAP)
             || (GET_SCALAR a 4 (pargin4 a) GxB_DEFAULT =? GxB_AxB_DOT)) = false).
  { simpl in Hm. destruct Hm as [<-|[<-|[<-|[<-|[]]]]]; reflexivity. }
  rewrite H2. unfold inner_A, inner_B in Hdim. apply Z.eqb_eq in Hdim.
  rewrite Hdim. reflexivity.
Qed.

End HarnessProperties.

(** *** The harness on concrete arguments *)

Example mexFunction_runs :
  mexFunction nrows_of ncols_of (fun _ => GrB_SUCCESS) example_product
    (fun M => M) run_once true example_call_ok
  = (returned (Some {| vlen := 3; vdim := 2; is_csc := true;
                       type_is_Complex := false |}),
     [GB_mx_get_global; GB_mx_mxArray_to_Matrix "A"; GB_mx_mxArray_to_Matrix "B";
      GrB_Monoid_new_FP64; GrB_Semiring_new;
      GB_AxB_meta example_A example_Bt false true 1001;
      GrB_Monoid_free; GrB_Semiring_free; GB_mx_Matrix_to_mxArray] ++ FREE_ALL).
Proof. reflexivity. Qed.

(** C5, as stated, fails: a 3-by-4 [A] times a 5-by-2 [B] with the method
    1004 is not rejected for its dimensions; the harness ends in "unknown
    method" right after the operands were read. *)
Lemma dimension_mismatch_not_reported :
  inner_A nrows_of ncols_of example_A false
    <> inner_B nrows_of ncols_of example_B false /\
  mexFunction nrows_of ncols_of (fun _ => GrB_SUCCESS) example_product
    (fun M => M) run_once true example_call_hash_mismatch
  = (mexErrMsgTxt "unknown method",
     [GB_mx_get_global; GB_mx_mxArray_to_Matrix "A"; GB_mx_mxArray_to_Matrix "B"]) /\
  fst (mexFunction nrows_of ncols_of (fun _ => GrB_SUCCESS) example_product
         (fun M => M) run_once true example_call_hash_mismatch)
  <> DimensionMismatch.
Proof.
  split; [vm_compute; discriminate|]. split; [reflexivity|].
  vm_compute. discriminate.
Qed.

Lemma dimension_mismatch_rejected_witness :
  mexFunction nrows_of ncols_of (fun _ => GrB_SUCCESS) example_product
    (fun M => M) run_once true example_call =
  (DimensionMismatch,
   [GB_mx_get_global; GB_mx_mxArray_to_Matrix "A"; GB_mx_mxArray_to_Matrix "B"]
     ++ FREE_ALL) /\
  forallb (fun e => negb (is_computation e))
    (snd (mexFunction nrows_of ncols_of (fun _ => GrB_SUCCESS) example_product
            (fun M => M) run_once true example_call)) = true.
Proof.
  destruct (dimension_mismatch_rejected nrows_of ncols_of (fun _ => GrB_SUCCESS)
              example_product (fun M => M) run_once true
              example_call example_A example_B eq_refl eq_refl)
    as (_ & Hno & Hdim & _).
  - vm_compute. discriminate.
  - split; [apply Hdim|exact Hno].
    unfold well_formed_call. simpl. repeat split; try lia. now left.
Defined.

End MexAxB.

(** ** Demo/Source/dpagerank2.c: the ranking of the nodes *)
Module PageRank.
Import Double.
Local Open Scope Z_scope.

(** The [PageRank] struct of the demo's header: the pagerank of a node and
    the node number.  The header is outside the files embedded here; the type of
    [page] enters through [to_page] below. *)
Record PageRank := { pagerank : double; page : Z }.

(** [pagerank_compar]: sort by pagerank in descending order. *)
Definition pagerank_compar (a b : PageRank) : Z :=
  if gt (pagerank a) (pagerank b) then -1
  else if eq (pagerank a) (pagerank b) then 0
  else 1.

(** What the C standard asks of a comparison function on the elements of
    the array it is to sort: any two are ordered, transitively. *)
Definition consistent {T} (compar : T -> T -> Z) (l : list T) : Prop :=
  (forall a b, a ∈ l -> b ∈ l -> compar a b <= 0 \/ compar b a <= 0) /\
  (forall a b c, a ∈ l -> b ∈ l -> c ∈ l ->
     compar a b <= 0 -> compar b c <= 0 -> compar a c <= 0).

(** What the C standard says of [qsort]: the array is rearranged, in
    ascending order according to the comparison function. *)
Definition qsort_contract
    (qsort : (PageRank -> PageRank -> Z) -> list PageRank -> list PageRank) : Prop :=
  forall compar l,
    qsort compar l ≡ₚ l /\
    (consistent compar l ->
     StronglySorted (fun a b => compar a b <= 0) (qsort compar l)).

Section Demo.

(** The graph, and the vector [rdouble] of normalized ranks, are objects
    of the library. *)
Variable GrB_Matrix : Type.
Variable GrB_Vector : Type.

(** Lines 251 to 385, the creation of the operators and the iteration, are
    calls into the library, each under [OK]: [ranks A itermax tol method]
    is the code with which [OK] makes [dpagerank2] return at one of them,
    or the number of nodes [n], the number of iterations taken and the
    vector [rdouble]. *)
Variable ranks : GrB_Matrix -> Z -> double -> Z -> GrB_Info + (Z * Z * GrB_Vector).

(** [OK (GrB_Vector_extractTuples_FP64 (I, X, &nvals, rdouble))], called
    with [nvals = n]: the code with which [OK] makes [dpagerank2] return,
    or the indices and values written to [I] and [X], [nvals] of each. *)
Variable GrB_Vector_extractTuples_FP64 :
  Z -> GrB_Vector -> GrB_Info + (list Z * list double).

(** Whether the three calls of [malloc] succeed, for a given [n]. *)
Variable malloc_X : Z -> bool.
Variable malloc_I : Z -> bool.
Variable malloc_P : Z -> bool.

(** The content of a cell of [P] before it is assigned. *)
Variable uninitialized : PageRank.

(** The conversion to the type of the field [page], which the header
    declares, in [P [k].page = I [k]] and [P [k].page = -1]. *)
Variable to_page : Z -> Z.

(** The C library's [qsort], on an array given as a list. *)
Variable qsort : (PageRank -> PageRank -> Z) -> list PageRank -> list PageRank.

(** The entry of a node that has no rank. *)
Definition unranked : PageRank := {| pagerank := 0%float; page := to_page (-1) |}.

(** [P [k] = ...], an access out of the array having no result. *)
Definition store (k : nat) (e : PageRank) (P : list PageRank)
  : option (list PageRank) :=
  if decide (k < length P)%nat then Some (<[k := e]> P) else None.

(** [for (k = 0 ; k < nvals ; k++)]: [count] turns from [k] on. *)
Fixpoint ranked_loop (count k : nat) (I_ : list Z) (X : list double)
    (P : list PageRank) : option (list PageRank) :=
  match count with
  | O => Some P
  | S count' =>
      x ← X !! k;
      i ← I_ !! k;
      P' ← store k {| pagerank := x; page := to_page i |} P;
      ranked_loop count' (S k) I_ X P'
  end.

(** [for ( ; k < n ; k++)]: [count] turns from [k] on. *)
Fixpoint unranked_loop (count k : nat) (P : list PageRank)
  : option (list PageRank) :=
  match count with
  | O => Some P
  | S count' => P' ← store k unranked P; unranked_loop count' (S k) P'
  end.

(** [qsort (P, nvals, sizeof (PageRank), pagerank_compar)]: the first
    [nvals] cells are sorted, the others stay. *)
Definition qsort_prefix (nvals : nat) (P : list PageRank) : list PageRank :=
  qsort pagerank_compar (take nvals P) ++ drop nvals P.

(** [dpagerank2]: the return code, the array [*Phandle] when there is one,
    and [*iters], which a failure before the iteration leaves unset.  There
    is no result at all when a loop leaves the array, which the library's
    [nvals <= n] excludes. *)
Definition dpagerank2 (A : GrB_Matrix) (itermax : Z) (tol : double) (method : Z)
  : option (GrB_Info * option (list PageRank) * option Z) :=
  match ranks A itermax tol method with
  | inl info => Some (info, None, None)
  | inr (n, iters, rdouble) =>
      (* [I,X] = find (r) *)
      if negb (malloc_I n && malloc_X n)
      then Some (GrB_OUT_OF_MEMORY, None, Some iters)
      else
        match GrB_Vector_extractTuples_FP64 n rdouble with
        | inr (I_, X) =>
            let nvals := length X in
            (* P = struct (X,I) *)
            if negb (malloc_P n) then Some (GrB_OUT_OF_MEMORY, None, Some iters)
            else
              P ← ranked_loop nvals 0 I_ X (replicate (Z.to_nat n) uninitialized);
              P ← unranked_loop (Z.to_nat n - nvals) nvals P;
              Some (GrB_SUCCESS, Some (qsort_prefix nvals P), Some iters)
        | inl info => Some (info, None, Some iters)
        end
  end.

End Demo.

(** The order the array is to be in: pagerank, descending. *)
Definition descending (a b : PageRank) : Prop :=
  (pagerank b <=? pagerank a)%float = true.

(** A sorting function to evaluate with: insertion sort. *)
Fixpoint insert_by (compar : PageRank -> PageRank -> Z) (x : PageRank)
    (l : list PageRank) : list PageRank :=
  match l with
  | [] => [x]
  | y :: l' =>
      if compar x y <=? 0 then x :: y :: l' else y :: insert_by compar x l'
  end.

Definition insertion_sort (compar : PageRank -> PageRank -> Z)
    (l : list PageRank) : list PageRank :=
  foldr (insert_by compar) [] l.

(** A graph of five nodes of which three have a rank; the vector of the
    ranks is given by its tuples, and [page] holds a [GrB_Index], an
    unsigned integer of 64 bits. *)
Definition example_rdouble : list (Z * double) :=
  [(0, 0.25%float); (1, 0.5%float); (3, 0.25%float)].

Definition example_ranks (A : unit) (itermax : Z) (tol : double) (method : Z)
  : GrB_Info + (Z * Z * list (Z * double)) :=
  inr (5, 3, example_rdouble).

Definition example_extractTuples (n : Z) (v : list (Z * double))
  : GrB_Info + (list Z * list double) :=
  if Z.of_nat (length v) <=? n then inr (v.*1, v.*2)
  else inl GrB_INSUFFICIENT_SPACE.

Definition example_dpagerank2 :=
  dpagerank2 unit (list (Z * double)) example_ranks example_extractTuples
    (fun _ => true) (fun _ => true) (fun _ => true)
    {| pagerank := nan; page := 0 |} (fun i => i mod 2 ^ 64) insertion_sort
    tt 100 0.0009765625%float 0.



(** *** Properties of the ranking *)

(** The comparison function orders by pagerank, descending. *)
Lemma pagerank_compar_descending (a b : PageRank) :
  pagerank_compar a b <= 0 <-> descending a b.
Proof.
  unfold pagerank_compar, descending. rewrite leb_gt_eq.
  destruct (gt (pagerank a) (pagerank b)), (eq (pagerank a) (pagerank b));
    intuition (try lia; try discriminate).
Qed.

(** On pageranks that are not NaNs the comparison function is consistent. *)
Lemma pagerank_compar_consistent (l : list PageRank) :
  Forall (fun e => is_nan (pagerank e) = false) l ->
  consistent pagerank_compar l.
Proof.
  rewrite Forall_forall. intros Hl. split.
  - intros a b Ha Hb. rewrite !pagerank_compar_descending. unfold descending.
    destruct (leb_total (pagerank a) (pagerank b)); auto.
  - intros a b c _ _ _. rewrite !pagerank_compar_descending. unfold descending.
    intros Hab Hbc. now apply leb_trans with (pagerank b).
Qed.

Section DemoProperties.

Variable GrB_Matrix : Type.
Variable GrB_Vector : Type.
Variable ranks : GrB_Matrix -> Z -> double -> Z -> GrB_Info + (Z * Z * GrB_Vector).
Variable GrB_Vector_extractTuples_FP64 :
  Z -> GrB_Vector -> GrB_Info + (list Z * list double).
Variable malloc_X : Z -> bool.
Variable malloc_I : Z -> bool.
Variable malloc_P : Z -> bool.
Variable uninitialized : PageRank.
Variable to_page : Z -> Z.
Variable qsort : (PageRank -> PageRank -> Z) -> list PageRank -> list PageRank.

Local Abbreviation entry := (fun x i => {| pagerank := x; page := to_page i |}).

Lemma store_spec k e P :
  (k < length P)%nat ->
  store k e P = Some (<[k := e]> P).
Proof. intros Hk. unfold store. now rewrite decide_True. Qed.

(** The first loop writes the tuples where they belong and nothing else. *)
Lemma ranked_loop_spec I_ X count : forall k P,
  (k + count <= length P)%nat -> (k + count <= length X)%nat ->
  (k + count <= length I_)%nat ->
  exists P',
    ranked_loop to_page count k I_ X P = Some P' /\
    length P' = length P /\
    forall q,
      P' !! q = if decide (k <= q < k + count)%nat
                then x ← X !! q; i ← I_ !! q; Some (entry x i)
                else P !! q.
Proof.
  induction count as [|count IH]; intros k P HP HX HI.
  - exists P. repeat split. intros q. rewrite decide_False by lia. reflexivity.
  - destruct (lookup_lt_is_Some_2 X k) as [x Hx]; [lia|].
    destruct (lookup_lt_is_Some_2 I_ k) as [i Hi]; [lia|].
    destruct (IH (S k) (<[k := entry x i]> P)) as (P' & Hrun & Hlen & Hq);
      rewrite ?length_insert; try lia.
    exists P'. simpl. rewrite Hx, Hi. simpl.
    rewrite store_spec by lia. simpl.
    split; [exact Hrun|]. split; [now rewrite Hlen, length_insert|].
    intros q. rewrite Hq. destruct (decide (q = k)) as [->|Hqk].
    + rewrite decide_False by lia. rewrite decide_True by lia.
      rewrite list_lookup_insert_eq by lia. now rewrite Hx, Hi.
    + rewrite list_lookup_insert_ne by congruence.
      repeat case_decide; try lia; reflexivity.
Qed.

(** The second loop writes the entry of an unranked node where it goes. *)
Lemma unranked_loop_spec count : forall k P,
  (k + count <= length P)%nat ->
  exists P',
    unranked_loop to_page count k P = Some P' /\
    length P' = length P /\
    forall q,
      P' !! q = if decide (k <= q < k + count)%nat
                then Some (unranked to_page)
                else P !! q.
Proof.
  induction count as [|count IH]; intros k P HP.
  - exists P. repeat split. intros q. rewrite decide_False by lia. reflexivity.
  - destruct (IH (S k) (<[k := unranked to_page]> P)) as (P' & Hrun & Hlen & Hq);
      rewrite ?length_insert; try lia.
    exists P'. simpl. rewrite store_spec by lia. simpl.
    split; [exact Hrun|]. split; [now rewrite Hlen, length_insert|].
    intros q. rewrite Hq. destruct (decide (q = k)) as [->|Hqk].
    + rewrite decide_False by lia. rewrite decide_True by lia.
      now rewrite list_lookup_insert_eq by lia.
    + rewrite list_lookup_insert_ne by congruence.
      repeat case_decide; try lia; reflexivity.
Qed.

(** The array before it is sorted: the tuples, then one entry for each
    node that has no rank. *)
Lemma loops_fill n I_ X :
  length I_ = length X -> (length X <= n)%nat ->
  exists P1,
    ranked_loop to_page (length X) 0 I_ X (replicate n uninitialized) = Some P1 /\
    unranked_loop to_page (n - length X) (length X) P1
    = Some (zip_with entry X I_ ++ replicate (n - length X) (unranked to_page)).
Proof.
  intros HI Hn.
  destruct (ranked_loop_spec I_ X (length X) 0 (replicate n uninitialized))
    as (P1 & HP1 & Hlen1 & Hq1); rewrite ?length_replicate; try lia.
  rewrite length_replicate in Hlen1. exists P1. split; [exact HP1|].
  destruct (unranked_loop_spec (n - length X) (length X) P1)
    as (P2 & -> & Hlen2 & Hq2); [lia|].
  f_equal. apply list_eq. intros q. rewrite Hq2, Hq1.
  destruct (decide (q < length X)%nat) as [Hq|Hq].
  - rewrite decide_False by lia. rewrite decide_True by lia.
    rewrite lookup_app_l by (rewrite length_zip_with; lia).
    now rewrite lookup_zip_with.
  - rewrite lookup_app_r by (rewrite length_zip_with; lia).
    rewrite length_zip_with, HI, Nat.min_id.
    case_decide.
    + symmetry. apply lookup_replicate_2. lia.
    + rewrite decide_False by lia.
      rewrite (lookup_ge_None_2 (replicate n uninitialized))
        by (rewrite length_replicate; lia).
      symmetry. apply lookup_ge_None_2. rewrite length_replicate. lia.
Qed.

Lemma StronglySorted_weaken {T} (R1 R2 : T -> T -> Prop) l :
  (forall a b, R1 a b -> R2 a b) -> StronglySorted R1 l -> StronglySorted R2 l.
Proof.
  intros HR. induction 1 as [|a l Hl IH Ha]; constructor; [exact IH|].
  eapply Forall_impl; [exact Ha|]. auto.
Qed.


End DemoProperties.

(** *** The ranking on concrete data *)

Lemma insert_by_perm compar x l : insert_by compar x l ≡ₚ x :: l.
Proof.
  induction l as [|y l IH]; simpl; [reflexivity|].
  destruct (compar x y <=? 0); [reflexivity|].
  rewrite IH. apply perm_swap.
Qed.

Lemma insertion_sort_perm compar l : insertion_sort compar l ≡ₚ l.
Proof.
  induction l as [|x l IH]; simpl; [reflexivity|].
  now rewrite insert_by_perm, IH.
Qed.

Lemma insert_by_sorted compar x l :
  consistent compar (x :: l) ->
  StronglySorted (fun a b => compar a b <= 0) l ->
  StronglySorted (fun a b => compar a b <= 0) (insert_by compar x l).
Proof.
  intros [Htot Htrans]. induction 1 as [|y l Hl IH Hy]; simpl.
  - repeat constructor.
  - destruct (Z.leb_spec (compar x y) 0) as [Hxy|Hxy].
    + constructor; [now constructor|]. constructor; [exact Hxy|].
      rewrite Forall_forall in Hy |- *. intros z Hz.
      apply Htrans with y; auto; rewrite !elem_of_cons; auto.
    + constructor.
      * apply IH.
        -- intros a b Ha Hb. apply Htot; revert Ha Hb; rewrite !elem_of_cons; tauto.
        -- intros a b c Ha Hb Hc.
           apply Htrans; revert Ha Hb Hc; rewrite !elem_of_cons; tauto.
      * rewrite Forall_forall in Hy |- *. intros z Hz.
        rewrite insert_by_perm in Hz. apply elem_of_cons in Hz as [->|Hz]; auto.
        destruct (Htot x y); [rewrite !elem_of_cons; auto..|lia|assumption].
Qed.

Lemma insertion_sort_contract : qsort_contract insertion_sort.
Proof.
  intros compar l. split; [apply insertion_sort_perm|].
  induction l as [|x l IH]; intros [Htot Htrans]; simpl; [constructor|].
  apply insert_by_sorted.
  - split.
    + intros a b Ha Hb. rewrite insertion_sort_perm in Ha, Hb. now apply Htot.
    + intros a b c Ha Hb Hc. rewrite insertion_sort_perm in Ha, Hb, Hc.
      now apply Htrans.
  - apply IH. split.
    + intros a b Ha Hb. apply Htot; now right.
    + intros a b c Ha Hb Hc. apply Htrans; now right.
Defined.

Example dpagerank2_example :
  example_dpagerank2
  = Some (GrB_SUCCESS,
          Some [ {| pagerank := 0.5%float; page := 1 |};
                 {| pagerank := 0.25%float; page := 0 |};
                 {| pagerank := 0.25%float; page := 3 |};
                 {| pagerank := 0%float; page := 18446744073709551615 |};
                 {| pagerank := 0%float; page := 18446744073709551615 |} ],
          Some 3).
Proof. vm_compute. reflexivity. Qed.



End PageRank.

(** ** Source/GB_Global.c, continued: the counters and the round trips *)
Module GlobalCounters.
Import Double Global.
Local Open Scope Z_scope.

(** The values of an [int64_t]. *)
Definition int64_range (v : Z) : Prop := - 2 ^ 63 <= v < 2 ^ 63.

(** [k] calls of [GB_Global_malloc_debug_count_decrement] in a row: what
    each returned, first call first, and the storage left. *)
Fixpoint decrements (k : nat) (g : GB_Global_struct) : list bool * GB_Global_struct :=
  match k with
  | O => ([], g)
  | S k' =>
      let (b, g') := GB_Global_malloc_debug_count_decrement g in
      let (bs, g'') := decrements k' g' in
      (b :: bs, g'')
  end.

(** What the memory routines report to the tracking: a block of [s] bytes
    was allocated, or freed. *)
Inductive usage := Allocated (s : Z) | Freed (s : Z).

Definition track (g : GB_Global_struct) (u : usage) : GB_Global_struct :=
  match u with
  | Allocated s => GB_Global_inuse_increment s g
  | Freed s => GB_Global_inuse_decrement s g
  end.

(** The values [GB_Global_inuse_get] takes along a sequence of reports. *)
Fixpoint inuse_history (us : list usage) (g : GB_Global_struct) : list Z :=
  match us with
  | [] => []
  | u :: us' => GB_Global_inuse_get (track g u) :: inuse_history us' (track g u)
  end.

(** The reports keep the count of bytes in use an [int64_t], and no block
    freed has a negative size. *)
Fixpoint reports_in_range (us : list usage) (g : GB_Global_struct) : Prop :=
  match us with
  | [] => True
  | u :: us' =>
      match u with
      | Allocated s => int64_range (inuse g + s)
      | Freed s => 0 <= s /\ int64_range (inuse g - s)
      end /\ reports_in_range us' (track g u)
  end.

(** The bytes allocated less the bytes freed. *)
Definition net (us : list usage) : Z :=
  fold_left (fun n u => match u with Allocated s => n + s | Freed s => n - s end)
            us 0.

(** The field of the storage an operation writes; the two fields
    [inuse] and [maxused] go together. *)
Inductive field :=
  | f_queue_head | f_mode | f_GrB_init_called | f_nthreads_max | f_chunk
  | f_hyper_ratio | f_is_csc | f_abort_function | f_malloc_function
  | f_calloc_function | f_realloc_function | f_free_function
  | f_malloc_is_thread_safe | f_malloc_tracking | f_nmalloc | f_malloc_debug
  | f_malloc_debug_count | f_inuse | f_hack | f_burble | f_print_one_based
  | f_print_format.

Definition field_of (o : op) : field :=
  match o with
  | queue_head_set _ => f_queue_head
  | mode_set _ => f_mode
  | GrB_init_called_set _ => f_GrB_init_called
  | nthreads_max_set _ => f_nthreads_max
  | chunk_set _ => f_chunk
  | hyper_ratio_set _ => f_hyper_ratio
  | is_csc_set _ => f_is_csc
  | abort_function_set _ => f_abort_function
  | malloc_function_set _ => f_malloc_function
  | calloc_function_set _ => f_calloc_function
  | realloc_function_set _ => f_realloc_function
  | free_function_set _ => f_free_function
  | malloc_is_thread_safe_set _ => f_malloc_is_thread_safe
  | malloc_tracking_set _ => f_malloc_tracking
  | nmalloc_clear | nmalloc_increment | nmalloc_decrement => f_nmalloc
  | malloc_debug_set _ => f_malloc_debug
  | malloc_debug_count_set _ | malloc_debug_count_decrement => f_malloc_debug_count
  | inuse_clear | inuse_increment _ | inuse_decrement _ => f_inuse
  | hack_set _ => f_hack
  | burble_set _ => f_burble
  | print_one_based_set _ => f_print_one_based
  | print_format_set _ => f_print_format
  end.

(** The operations that read the field they write: the counters. *)
Definition reads_its_field (o : op) : bool :=
  match o with
  | nmalloc_increment | nmalloc_decrement | malloc_debug_count_decrement
  | inuse_increment _ | inuse_decrement _ => true
  | _ => false
  end.

(** The function an operation installs for a kind of request, if it is
    the setter of that kind. *)
Definition installs (r : request) (o : op) : option fnptr :=
  match r, o with
  | Malloc _, malloc_function_set f => Some f
  | Calloc _ _, calloc_function_set f => Some f
  | Realloc _ _, realloc_function_set f => Some f
  | Free _, free_function_set f => Some f
  | _, _ => None
  end.

(** The function a sequence of operations leaves for a kind of request,
    starting from [f]: the argument of the last setter of that kind. *)
Definition last_function (r : request) (f : fnptr) (ops : list op) : fnptr :=
  fold_left (fun f o => default f (installs r o)) ops f.

(** The same for the thread-safety flag. *)
Definition last_thread_safe (b : bool) (ops : list op) : bool :=
  fold_left (fun b o => match o with malloc_is_thread_safe_set b' => b' | _ => b end)
            ops b.

(** *** Properties *)

Lemma wrap64_small v : int64_range v -> wrap64 v = v.
Proof.
  unfold int64_range, wrap64. intros Hv.
  rewrite Z.mod_small by lia. lia.
Qed.

Lemma wrap64_range v : int64_range (wrap64 v).
Proof.
  unfold int64_range, wrap64.
  assert (H := Z.mod_pos_bound (v + 2 ^ 63) (2 ^ 64) ltac:(lia)). lia.
Qed.

Lemma malloc_debug_count_get_set n g :
  malloc_debug_count (GB_Global_malloc_debug_count_set n g) = n.
Proof. now destruct g. Qed.

Lemma decrement_spec g :
  GB_Global_malloc_debug_count_decrement g =
  (malloc_debug_count g <=? 0,
   GB_Global_malloc_debug_count_set (wrap64 (malloc_debug_count g - 1)) g).
Proof. reflexivity. Qed.

(** The calls count down from the value in the storage. *)
Lemma decrements_lookup k : forall g i,
  (i < k)%nat ->
  - 2 ^ 63 <= malloc_debug_count g - Z.of_nat k ->
  malloc_debug_count g < 2 ^ 63 ->
  (decrements k g).1 !! i = Some (malloc_debug_count g - Z.of_nat i <=? 0).
Proof.
  induction k as [|k IH]; intros g i Hi Hlo Hhi; [lia|].
  cbn [decrements]. rewrite decrement_spec.
  destruct (decrements k _) as [bs g''] eqn:Hd. cbn [fst].
  destruct i as [|i]; simpl.
  - now rewrite Z.sub_0_r.
  - change bs with ((bs, g'').1). rewrite <- Hd.
    rewrite IH; rewrite ?malloc_debug_count_get_set;
      rewrite ?wrap64_small by (unfold int64_range; lia); try lia.
    do 2 f_equal. lia.
Qed.

(** X1: once [GB_Global_malloc_debug_count_set (n)] was called with
    [0 <= n], [GB_Global_malloc_debug_count_decrement] returns false for
    the first [n] calls that follow and true from the call after them on,
    as long as the count stays an [int64_t]. *)
Theorem malloc_debug_count_counts_down (g : GB_Global_struct) (n : Z) (k i : nat) :
  0 <= n < 2 ^ 63 -> Z.of_nat k <= 2 ^ 63 -> (i < k)%nat ->
  (decrements k (GB_Global_malloc_debug_count_set n g)).1 !! i
  = Some (bool_decide (n <= Z.of_nat i)).
Proof.
  intros Hn Hk Hi.
  rewrite decrements_lookup; rewrite ?malloc_debug_count_get_set; try lia.
  f_equal. case_bool_decide; [apply Z.leb_le | apply Z.leb_gt]; lia.
Qed.

Lemma malloc_debug_count_counts_down_witness :
  (decrements 4 (GB_Global_malloc_debug_count_set 2 example_Global)).1 !! 1%nat
    = Some (bool_decide (2 <= Z.of_nat 1)) /\
  (decrements 4 (GB_Global_malloc_debug_count_set 2 example_Global)).1
    = [false; false; true; true].
Proof.
  split; [|reflexivity].
  apply (malloc_debug_count_counts_down example_Global 2 4 1); lia.
Defined.

Lemma inuse_set_inuse iu mu g : inuse (set_inuse iu mu g) = iu.
Proof. now destruct g. Qed.

Lemma maxused_set_inuse iu mu g : maxused (set_inuse iu mu g) = mu.
Proof. now destruct g. Qed.

(** One report: what it does to the pair of counters. *)
Lemma track_spec g u :
  inuse (track g u) =
    match u with
    | Allocated s => wrap64 (inuse g + s)
    | Freed s => wrap64 (inuse g - s)
    end /\
  maxused (track g u) =
    match u with
    | Allocated s => Z.max (maxused g) (wrap64 (inuse g + s))
    | Freed _ => maxused g
    end.
Proof.
  destruct u; unfold track, GB_Global_inuse_increment, GB_Global_inuse_decrement;
    rewrite inuse_set_inuse, maxused_set_inuse, ?GB_IMAX_max; auto.
Qed.

Lemma high_water_from : forall us g n,
  inuse g = n -> inuse g <= maxused g ->
  reports_in_range us g ->
  inuse (fold_left track us g) =
    fold_left (fun n u => match u with Allocated s => n + s | Freed s => n - s end)
              us n /\
  inuse (fold_left track us g) <= maxused (fold_left track us g) /\
  maxused (fold_left track us g) = foldr Z.max (maxused g) (inuse_history us g).
Proof.
  induction us as [|u us IH]; intros g n Hn Hle Hf; [simpl; auto|].
  destruct Hf as [Hu Hf]. cbn [fold_left inuse_history foldr].
  destruct (track_spec g u) as [Hi Hm].
  assert (Hi' : inuse (track g u) =
                match u with Allocated s => n + s | Freed s => n - s end).
  { rewrite Hi, <- Hn. destruct u as [s|s]; apply wrap64_small; tauto. }
  assert (Hle' : inuse (track g u) <= maxused (track g u) /\
                 Z.max (inuse (track g u)) (maxused g) = maxused (track g u)).
  { rewrite Hm, Hi', <- Hn. destruct u as [s|s].
    - rewrite wrap64_small by exact Hu. lia.
    - lia. }
  destruct Hle' as [Hle' Hmax].
  destruct (IH (track g u) _ Hi' Hle' Hf) as (IH0 & IH1 & IH2).
  split; [exact IH0|]. split; [exact IH1|]. rewrite IH2.
  unfold GB_Global_inuse_get. rewrite <- Hmax. clear.
  induction (inuse_history us (track g u)) as [|v l IHl]; simpl; lia.
Qed.

(** X2: from [GB_Global_inuse_clear] on, as long as the count of bytes in
    use stays an [int64_t] and no block freed has a negative size,
    [inuse] is the bytes allocated less the bytes freed, [maxused] is the
    largest value [inuse] has had (zero when it never was above zero),
    and [inuse] is at most [maxused]. *)
Theorem maxused_is_high_water_mark (g : GB_Global_struct) (us : list usage) :
  reports_in_range us (GB_Global_inuse_clear g) ->
  let g' := fold_left track us (GB_Global_inuse_clear g) in
  GB_Global_inuse_get g' = net us /\
  GB_Global_inuse_get g' <= GB_Global_maxused_get g' /\
  GB_Global_maxused_get g' =
    foldr Z.max 0 (inuse_history us (GB_Global_inuse_clear g)).
Proof.
  intros Hf g'. unfold GB_Global_inuse_get, GB_Global_maxused_get, g', net.
  assert (H0 : inuse (GB_Global_inuse_clear g) = 0 /\
               maxused (GB_Global_inuse_clear g) = 0) by (now destruct g).
  destruct H0 as [Hi Hm].
  destruct (high_water_from us (GB_Global_inuse_clear g) 0 Hi) as (H0 & H1 & H2);
    rewrite ?Hi, ?Hm; try lia; [exact Hf|].
  split; [exact H0|]. split; [exact H1|]. now rewrite H2, Hm.
Qed.

Lemma maxused_is_high_water_mark_witness :
  let us := [Allocated 40; Allocated 24; Freed 40; Allocated 8] in
  let g' := fold_left track us (GB_Global_inuse_clear example_Global) in
  (GB_Global_inuse_get g' = net us /\
   GB_Global_inuse_get g' <= GB_Global_maxused_get g' /\
   GB_Global_maxused_get g' =
     foldr Z.max 0 (inuse_history us (GB_Global_inuse_clear example_Global))) /\
  GB_Global_inuse_get g' = 32 /\ GB_Global_maxused_get g' = 64.
Proof.
  split; [|split; reflexivity].
  apply (maxused_is_high_water_mark example_Global
           [Allocated 40; Allocated 24; Freed 40; Allocated 8]).
  vm_compute. repeat split; discriminate.
Defined.

Lemma set_nmalloc_set_nmalloc v w g : set_nmalloc v (set_nmalloc w g) = set_nmalloc v g.
Proof. now destruct g. Qed.

Lemma set_nmalloc_same g : set_nmalloc (nmalloc g) g = g.
Proof. now destruct g. Qed.

Lemma nmalloc_set_nmalloc v g : nmalloc (set_nmalloc v g) = v.
Proof. now destruct g. Qed.

(** X3: as long as the count of blocks does not leave the [int64_t]
    range, [GB_Global_nmalloc_increment] returns the count plus one,
    [GB_Global_nmalloc_decrement] the count less one, and each undoes the
    other: the second call returns the count the storage had, and the
    storage is the one before the two calls. *)
Theorem nmalloc_increment_decrement (g : GB_Global_struct) :
  - 2 ^ 63 < nmalloc g < 2 ^ 63 - 1 ->
  (GB_Global_nmalloc_increment g).1 = nmalloc g + 1 /\
  (GB_Global_nmalloc_decrement g).1 = nmalloc g - 1 /\
  GB_Global_nmalloc_decrement (GB_Global_nmalloc_increment g).2 = (nmalloc g, g) /\
  GB_Global_nmalloc_increment (GB_Global_nmalloc_decrement g).2 = (nmalloc g, g).
Proof.
  intros Hr.
  unfold GB_Global_nmalloc_decrement, GB_Global_nmalloc_increment. cbn [fst snd].
  rewrite !nmalloc_set_nmalloc, !set_nmalloc_set_nmalloc.
  rewrite (wrap64_small (nmalloc g + 1)), (wrap64_small (nmalloc g - 1))
    by (unfold int64_range; lia).
  replace (nmalloc g + 1 - 1) with (nmalloc g) by lia.
  replace (nmalloc g - 1 + 1) with (nmalloc g) by lia.
  rewrite wrap64_small by (unfold int64_range; lia).
  now rewrite set_nmalloc_same.
Qed.

Lemma nmalloc_increment_decrement_witness :
  let g := set_nmalloc 5 example_Global in
  (GB_Global_nmalloc_increment g).1 = 6 /\
  (GB_Global_nmalloc_decrement g).1 = 4 /\
  GB_Global_nmalloc_decrement (GB_Global_nmalloc_increment g).2 = (5, g) /\
  GB_Global_nmalloc_increment (GB_Global_nmalloc_decrement g).2 = (5, g).
Proof.
  apply (nmalloc_increment_decrement (set_nmalloc 5 example_Global)).
  simpl. lia.
Defined.

Lemma leb_not_ltb (x y : double) :
  (x <=? y)%float = true -> (y <? x)%float = false.
Proof.
  rewrite leb_spec, ltb_spec. unfold SFleb, SFltb.
  rewrite (SFcompare_swap (Prim2SF x) (Prim2SF y)).
  destruct (SFcompare (Prim2SF x) (Prim2SF y)) as [[]|]; simpl; congruence.
Qed.

(** X4: on a storage whose thread ceiling and chunk size are at least
    one, and with [GxB_DEFAULT] below one, a parameter is restored by
    writing back the value read before it was changed: the setters clamp
    nothing that a getter returned. *)
Theorem parameters_saved_and_restored
    (GB_CHUNK_DEFAULT GxB_DEFAULT : double) (g : GB_Global_struct)
    (nthreads : Z) (chunk : double) :
  (GxB_DEFAULT <? 1)%float = true ->
  at_least_one g ->
  GB_Global_nthreads_max_set (GB_Global_nthreads_max_get g)
    (GB_Global_nthreads_max_set nthreads g) = g /\
  GB_Global_chunk_set GB_CHUNK_DEFAULT GxB_DEFAULT (GB_Global_chunk_get g)
    (GB_Global_chunk_set GB_CHUNK_DEFAULT GxB_DEFAULT chunk g) = g.
Proof.
  intros HD [Hn Hc]. destruct g. simpl in *. split; f_equal.
  - rewrite GB_IMAX_max. lia.
  - destruct (_ <=? GxB_DEFAULT)%float eqn:Hle at 1.
    + exfalso. pose proof (leb_trans _ _ _ Hc Hle) as H1.
      apply leb_not_ltb in H1. congruence.
    + now apply fmax_l.
Qed.

Lemma parameters_saved_and_restored_witness :
  GB_Global_nthreads_max_set (GB_Global_nthreads_max_get example_Global)
    (GB_Global_nthreads_max_set 8 example_Global) = example_Global /\
  GB_Global_chunk_set 65536 0 (GB_Global_chunk_get example_Global)
    (GB_Global_chunk_set 65536 0 4096 example_Global) = example_Global.
Proof.
  apply (parameters_saved_and_restored 65536 0 example_Global 8 4096).
  - reflexivity.
  - split; [vm_compute; discriminate | reflexivity].
Defined.

Lemma last_function_run C D r ops : forall g,
  callee (run C D ops g) r = (last_function r (callee g r).1 ops, (callee g r).2) /\
  malloc_is_thread_safe (run C D ops g) =
    last_thread_safe (malloc_is_thread_safe g) ops.
Proof.
  unfold run, last_function, last_thread_safe.
  induction ops as [|o ops IH]; intros g; [now destruct r|].
  cbn [fold_left]. destruct (IH (step C D g o)) as [-> ->].
  rewrite malloc_is_thread_safe_step. split; [|reflexivity].
  destruct r; cbn [callee fst snd installs];
    rewrite ?malloc_function_step, ?calloc_function_step,
      ?realloc_function_step, ?free_function_step;
    now destruct o.
Qed.

(** X5: after any sequence of operations on the storage, each of the
    four wrappers calls the function given to the last setter of its kind
    (the one the storage had, when there was none), once, on its own
    arguments; the call is inside the critical section exactly when the
    last [GB_Global_malloc_is_thread_safe_set] said false (or the storage
    did, when there was none). *)
Theorem wrappers_call_last_function_set
    (GB_CHUNK_DEFAULT GxB_DEFAULT : double)
    (heap : Type) (call : fnptr -> list arg -> heap -> pointer * heap)
    (sync_ok : bool) (g : GB_Global_struct) (ops : list op) (r : request)
    (w : world heap) :
  let f := last_function r (callee g r).1 ops in
  let args := (callee g r).2 in
  let g' := run GB_CHUNK_DEFAULT GxB_DEFAULT ops g in
  (serve heap call sync_ok g' r w).2 =
  (w.1 ++ (if last_thread_safe (malloc_is_thread_safe g) ops
           then [Call f args]
           else [Enter_critical; Call f args; Leave_critical]),
   (call f args w.2).2).
Proof.
  intros f args g'. subst f args g'. rewrite serve_spec. unfold block.
  destruct (last_function_run GB_CHUNK_DEFAULT GxB_DEFAULT r ops g) as [-> ->].
  reflexivity.
Qed.

(** X6: operations on different fields of the storage commute: no
    setter and no counter looks at, or writes, a field other than its own
    ([inuse] and [maxused] counting as one). *)
Theorem operations_on_different_fields_commute
    (GB_CHUNK_DEFAULT GxB_DEFAULT : double) (g : GB_Global_struct) (o1 o2 : op) :
  field_of o1 <> field_of o2 ->
  step GB_CHUNK_DEFAULT GxB_DEFAULT (step GB_CHUNK_DEFAULT GxB_DEFAULT g o1) o2 =
  step GB_CHUNK_DEFAULT GxB_DEFAULT (step GB_CHUNK_DEFAULT GxB_DEFAULT g o2) o1.
Proof.
  intros Hf. destruct g, o1, o2; try reflexivity; now destruct Hf.
Qed.

Lemma operations_on_different_fields_commute_witness :
  step 65536 0 (step 65536 0 example_Global (nthreads_max_set 0)) (inuse_increment 8) =
  step 65536 0 (step 65536 0 example_Global (inuse_increment 8)) (nthreads_max_set 0).
Proof.
  apply (operations_on_different_fields_commute 65536 0 example_Global
           (nthreads_max_set 0) (inuse_increment 8)).
  discriminate.
Defined.

(** X7: the last write wins: an operation that does not read its field
    (a setter or a clear, the clamping setters included) leaves the
    storage that it would have left had the operation before it, on the
    same field, not been made. *)
Theorem last_write_wins
    (GB_CHUNK_DEFAULT GxB_DEFAULT : double) (g : GB_Global_struct) (o1 o2 : op) :
  field_of o1 = field_of o2 -> reads_its_field o2 = false ->
  step GB_CHUNK_DEFAULT GxB_DEFAULT (step GB_CHUNK_DEFAULT GxB_DEFAULT g o1) o2 =
  step GB_CHUNK_DEFAULT GxB_DEFAULT g o2.
Proof.
  intros Hf Hr. destruct g, o1, o2; try discriminate Hf; try discriminate Hr;
    reflexivity.
Qed.

Lemma last_write_wins_witness :
  step 65536 0 (step 65536 0 example_Global (inuse_increment 8)) inuse_clear =
  step 65536 0 example_Global inuse_clear.
Proof.
  apply (last_write_wins 65536 0 example_Global (inuse_increment 8) inuse_clear);
    reflexivity.
Defined.

End GlobalCounters.


(** ** Source/Generated/GB_unaryop__*.c, continued: the arrays as a whole *)
Module UnopArrays.
Import Unop.

(** The output array of a kernel in one piece: the images of the first [n]
    entries of [Ax], followed by what [Cx] held from [n] on. *)
Definition stored {A C : Type} (f : A -> C) (n : nat) (Cx : list C) (Ax : list A)
  : list C :=
  (f <$> take n Ax) ++ drop n Cx.

(** *** Properties *)

(** An array that holds the images below [n] and the old values from [n]
    on is [stored]. *)
Lemma stored_intro {A C : Type} (f : A -> C) n (Cx Cx' : list C) (Ax : list A) :
  n <= length Ax -> n <= length Cx -> length Cx' = length Cx ->
  (forall p, p < n -> exists aij, Ax !! p = Some aij /\ Cx' !! p = Some (f aij)) ->
  (forall q, n <= q -> Cx' !! q = Cx !! q) ->
  Cx' = stored f n Cx Ax.
Proof.
  intros HA HC Hlen Hin Hout. unfold stored. apply list_eq. intros q.
  destruct (decide (q < n)) as [Hq|Hq].
  - destruct (Hin q Hq) as (aij & Ha & ->).
    rewrite lookup_app_l by (rewrite length_fmap, length_take; lia).
    now rewrite list_lookup_fmap, lookup_take_lt, Ha by lia.
  - rewrite Hout by lia.
    rewrite lookup_app_r by (rewrite length_fmap, length_take; lia).
    rewrite length_fmap, length_take, lookup_drop. f_equal. lia.
Qed.

(** In place, the array keeps its length. *)
Lemma iterate_aliased_length {T X} (cast : T -> X) (f : X -> T) order :
  forall (m m' : list T),
  iterate cast f order m = Some m' -> length m' = length m.
Proof.
  induction order as [|p rest IH]; intros m m'; simpl.
  - now intros [= <-].
  - unfold GB_CAST_OP; simpl. destruct (m !! p) as [aij|]; [|discriminate].
    simpl. case_decide; [|discriminate]. simpl. intros Hit.
    apply IH in Hit as ->. now rewrite length_insert.
Qed.

(** X8: a kernel that is not disabled, under any schedule of its [anz]
    iterations: on two distinct arrays it leaves [Ax] as it was and [Cx]
    with its first [anz] entries replaced by the images of those of [Ax];
    on one array passed as both, it leaves the array that the run on two
    distinct arrays leaves in [Cx] when [Cx] starts as a copy of [Ax].
    With [anz <= 0] nothing is read or written. *)
Theorem GB_unop_in_place_as_on_a_copy {T X C : Type}
    (GB_CAST : T -> X) (GB_OP : X -> C) (GB_OP' : X -> T)
    (schedule : list nat) (Cx : list C) (Ax : list T) (anz nthreads : Z) :
  schedule ≡ₚ program_order anz ->
  Z.to_nat anz <= length Ax -> Z.to_nat anz <= length Cx ->
  GB_unop_omp GB_CAST GB_OP false schedule (Cx, Ax) anz nthreads
    = Some (GrB_SUCCESS,
            (stored (fun aij => GB_OP (GB_CAST aij)) (Z.to_nat anz) Cx Ax, Ax)) /\
  GB_unop_omp GB_CAST GB_OP' false schedule Ax anz nthreads
    = Some (GrB_SUCCESS,
            stored (fun aij => GB_OP' (GB_CAST aij)) (Z.to_nat anz) Ax Ax).
Proof.
  intros Hs HA HC. unfold GB_unop_omp.
  assert (Hnd : NoDup schedule) by (now apply schedule_NoDup with anz).
  split.
  - destruct (iterate_spec GB_CAST GB_OP schedule (Cx, Ax) Hnd)
      as ([Cx' Ax'] & Hit & Happ).
    { intros p Hp. rewrite Hs in Hp. apply program_order_elem in Hp.
      simpl. split; apply lookup_lt_is_Some; lia. }
    apply (applied_perm _ _ _ _ _ _ Hs) in Happ. destruct Happ as [Hin Hout].
    rewrite Hit. simpl.
    apply iterate_separate_Ax in Hit as [HAx Hlen]; simpl in HAx, Hlen.
    subst Ax'. do 3 f_equal. apply stored_intro; auto.
    + intros p Hp. apply (Hin p). now apply program_order_elem.
    + intros q Hq. apply (Hout q). rewrite program_order_elem. lia.
  - destruct (iterate_spec GB_CAST GB_OP' schedule Ax Hnd) as (m' & Hit & Happ).
    { intros p Hp. rewrite Hs in Hp. apply program_order_elem in Hp.
      simpl. split; apply lookup_lt_is_Some; lia. }
    apply (applied_perm _ _ _ _ _ _ Hs) in Happ. destruct Happ as [Hin Hout].
    rewrite Hit. simpl. apply iterate_aliased_length in Hit.
    do 2 f_equal. apply stored_intro; auto.
    + intros p Hp. apply (Hin p). now apply program_order_elem.
    + intros q Hq. apply (Hout q). rewrite program_order_elem. lia.
Qed.

Lemma GB_unop_in_place_as_on_a_copy_witness :
  GB_unop_omp (fun aij : Z => aij) Z.succ false [2; 0; 1]
    ([7; 7; 7; 7]%Z, [10; 20; 30; 40]%Z) 3 2
    = Some (GrB_SUCCESS,
            (stored (fun aij => Z.succ aij) (Z.to_nat 3)
               [7; 7; 7; 7]%Z [10; 20; 30; 40]%Z,
             [10; 20; 30; 40]%Z)) /\
  GB_unop_omp (fun aij : Z => aij) Z.succ false [2; 0; 1]
    [10; 20; 30; 40]%Z 3 2
    = Some (GrB_SUCCESS,
            stored (fun aij => Z.succ aij) (Z.to_nat 3)
              [10; 20; 30; 40]%Z [10; 20; 30; 40]%Z).
Proof.
  apply (GB_unop_in_place_as_on_a_copy (fun aij : Z => aij) Z.succ Z.succ
           [2; 0; 1] [7; 7; 7; 7]%Z [10; 20; 30; 40]%Z 3 2 example_schedule);
    simpl; lia.
Defined.

End UnopArrays.

(** ** Demo/Source/dpagerank2.c, continued: the scalar operators, the
       iteration and the failures *)
Module PageRankDemo.
Import Double PageRank.
Local Open Scope Z_scope.

(** [pagerank_type]: each node has a rank value, and a constant which is
    1/outdegree. *)
Record pagerank_type := { rank : double; invdegree : double }.

(** The identity value for the [pagerank_add] monoid. *)
Definition pagerank_zero : pagerank_type :=
  {| rank := 0%float; invdegree := 0%float |}.

(** The operators write to [*z]; [z] below is what [*z] held before the
    call, and the result what it holds after. *)

(** [pagerank_multiply]: [y] is the boolean entry of the matrix;
    [z->invdegree] is left unchanged. *)
Definition pagerank_multiply (z x : pagerank_type) (y : bool) : pagerank_type :=
  {| rank := if y then (rank x * invdegree x)%float else 0%float;
     invdegree := invdegree z |}.

(** [pagerank_add]: [z->invdegree] is left unchanged. *)
Definition pagerank_add (z x y : pagerank_type) : pagerank_type :=
  {| rank := (rank x + rank y)%float; invdegree := invdegree z |}.

(** [pagerank_diff]: the square of the change in the rank. *)
Definition pagerank_diff (z x y : pagerank_type) : pagerank_type :=
  let delta := (rank x - rank y)%float in
  {| rank := (delta * delta)%float; invdegree := invdegree z |}.

Section Iteration.

(** The vectors are objects of the library, and so are the three calls of
    one pass, each under [OK]: the code with which [OK] makes [dpagerank2]
    return at the call, or the vector or scalar the call writes.
    [GrB_vxm rnew r] is [GrB_vxm (rnew, NULL, PageRank_accum,
    PageRank_semiring, r, A, desc)], [GrB_eWiseAdd_Vector_BinaryOp rdiff r
    rnew] is the call with [PageRank_diff], and [GrB_Vector_reduce_UDT
    rdiff] the reduction with [PageRank_monoid]. *)
Variable GrB_Vector : Type.
Variable GrB_vxm : GrB_Vector -> GrB_Vector -> GrB_Info + GrB_Vector.
Variable GrB_eWiseAdd_Vector_BinaryOp :
  GrB_Vector -> GrB_Vector -> GrB_Vector -> GrB_Info + GrB_Vector.
Variable GrB_Vector_reduce_UDT : GrB_Vector -> GrB_Info + pagerank_type.

(** The three vectors the loop works on. *)
Record vectors := { r : GrB_Vector; rnew : GrB_Vector; rdiff : GrB_Vector }.

(** The body of the loop: the three calls, then [r] and [rnew] swapped.
    The new [pagerank_rdiff] comes with the vectors. *)
Definition pass (v : vectors) : GrB_Info + (vectors * double) :=
  match GrB_vxm (rnew v) (r v) with
  | inl info => inl info
  | inr rnew' =>
      match GrB_eWiseAdd_Vector_BinaryOp (rdiff v) (r v) rnew' with
      | inl info => inl info
      | inr rdiff' =>
          match GrB_Vector_reduce_UDT rdiff' with
          | inl info => inl info
          | inr rsum =>
              inr ({| r := rnew'; rnew := r v; rdiff := rdiff' |}, rank rsum)
          end
      end
  end.

(** The [for] loop, which runs while [*iters < itermax && pagerank_rdiff >
    tol] and adds one to [*iters] after each turn:
    the code a call failed with, or [*iters], the vectors and
    [pagerank_rdiff] at the exit.  [fuel] bounds the number of turns. *)
Fixpoint loop (fuel : nat) (itermax : Z) (tol : double)
    (iters : Z) (pagerank_rdiff : double) (v : vectors)
  : option (GrB_Info + (Z * vectors * double)) :=
  if (iters <? itermax) && gt pagerank_rdiff tol then
    match fuel with
    | O => None
    | S fuel' =>
        match pass v with
        | inl info => Some (inl info)
        | inr (v', d) => loop fuel' itermax tol (iters + 1) d v'
        end
    end
  else Some (inr (iters, v, pagerank_rdiff)).

(** The iteration of [dpagerank2]: [tol = tol*tol], [pagerank_rdiff = 1]
    "so first iteration is always done", and the loop from [*iters = 0]. *)
Definition iteration (fuel : nat) (itermax : Z) (tol : double) (v : vectors) :=
  let tol := (tol * tol)%float in
  let pagerank_rdiff := 1%float in
  loop fuel itermax tol 0 pagerank_rdiff v.

(** What the loop leaves when it is entered with [*iters = i], the change
    [d] and the vectors [v]: the exit values are the entry values when no
    pass was made. *)
Definition exit_of (itermax : Z) (tol : double) (i : Z) (d : double)
    (v : vectors)
    (res : GrB_Info + (Z * vectors * double)) : Prop :=
  match res with
  | inl _ => i < itermax /\ gt d tol = true
  | inr (i', v', d') =>
      i <= i' <= Z.max i itermax /\
      (i' < itermax -> gt d' tol = false) /\
      (i < itermax -> gt d tol = true -> i + 1 <= i') /\
      (i' = i -> v' = v /\ d' = d)
  end.

End Iteration.

(** A pass to evaluate the loop with: the vectors are numbers, and each
    pass halves the change. *)
Definition example_iteration (itermax : Z) (tol : double) :=
  iteration double
    (fun rnew r => inr (r / 2)%float)
    (fun rdiff r rnew => inr (r - rnew)%float)
    (fun rdiff => inr {| rank := (rdiff * rdiff)%float; invdegree := 0%float |})
    (Z.to_nat itermax) itermax tol
    {| r := 1%float; rnew := 1%float; rdiff := 0%float |}.

(** *** Properties of the operators *)

Lemma add_comm (x y : double) : (x + y = y + x)%float.
Proof.
  apply Prim2SF_inj. rewrite !add_spec. unfold SF64add, SFadd.
  destruct (Prim2SF x) as [[]|[]| |sx mx ex],
           (Prim2SF y) as [[]|[]| |sy my ey]; try reflexivity.
  rewrite Z.min_comm. f_equal. apply Z.add_comm.
Qed.

(** Adding a positive zero gives the same double back, a negative zero
    apart. *)
Lemma add_zero (x : double) :
  Prim2SF x <> S754_zero true -> (x + 0 = x)%float.
Proof.
  intros Hx. apply Prim2SF_inj. rewrite add_spec. unfold SF64add, SFadd.
  change (Prim2SF 0) with (S754_zero false).
  destruct (Prim2SF x) as [[]|[]| |sx mx ex]; try reflexivity; congruence.
Qed.

(** And a double that compares equal, NaNs apart. *)
Lemma add_zero_eq (x : double) :
  is_nan x = false -> eq (x + 0)%float x = true.
Proof.
  unfold is_nan, eq. rewrite !eqb_spec, add_spec. unfold SF64add, SFadd.
  change (Prim2SF 0) with (S754_zero false). intros Hx.
  destruct (Prim2SF x) as [[]|[]| |sx mx ex]; try reflexivity;
    try discriminate; now apply negb_false_iff in Hx.
Qed.

(** The square of a double is never below zero. *)
Lemma square_not_negative (d : double) : gt 0 (d * d)%float = false.
Proof.
  unfold gt. rewrite ltb_spec, mul_spec.
  change (Prim2SF 0) with (S754_zero false). unfold SF64mul, SFmul.
  destruct (Prim2SF d) as [[]|[]| |s m e]; try reflexivity.
  replace (xorb s s) with false by (now destruct s).
  unfold binary_round_aux.
  destruct (shr_fexp _ _ _ _ _) as [mrs' e'].
  destruct (shr_fexp _ _ _ _ _) as [mrs'' e''].
  destruct (shr_m mrs''); try reflexivity.
  destruct (_ <=? _)%Z; reflexivity.
Qed.

(** X9: [pagerank_zero] is an identity of [pagerank_add] as far as the
    rank goes: added on either side to a rank [x] that is not a NaN it
    gives a rank that compares equal to [x], and the very same double
    unless [x] is the negative zero.  So is the product of any node with
    a [false] entry of the matrix: an edge that is not there adds nothing
    to the sum. *)
Theorem pagerank_zero_is_identity (z z' x w : pagerank_type) :
  rank (pagerank_multiply z' w false) = rank pagerank_zero /\
  (is_nan (rank x) = false ->
   eq (rank (pagerank_add z x pagerank_zero)) (rank x) = true /\
   eq (rank (pagerank_add z pagerank_zero x)) (rank x) = true /\
   eq (rank (pagerank_add z x (pagerank_multiply z' w false))) (rank x) = true) /\
  (Prim2SF (rank x) <> S754_zero true ->
   rank (pagerank_add z x pagerank_zero) = rank x /\
   rank (pagerank_add z pagerank_zero x) = rank x /\
   rank (pagerank_add z x (pagerank_multiply z' w false)) = rank x).
Proof.
  split; [reflexivity|]. cbn [pagerank_add pagerank_multiply pagerank_zero rank].
  rewrite (add_comm 0 (rank x)). split; intros Hx.
  - now rewrite add_zero_eq.
  - now rewrite add_zero.
Qed.

Lemma pagerank_zero_is_identity_witness :
  let z := {| rank := 7; invdegree := 0.5 |} in
  let x := {| rank := 0.25; invdegree := 0.5 |} in
  rank (pagerank_add z x pagerank_zero) = 0.25%float /\
  rank (pagerank_add z pagerank_zero x) = 0.25%float /\
  rank (pagerank_add z x (pagerank_multiply z x false)) = 0.25%float.
Proof.
  apply (pagerank_zero_is_identity
           {| rank := 7; invdegree := 0.5 |} {| rank := 7; invdegree := 0.5 |}
           {| rank := 0.25; invdegree := 0.5 |} {| rank := 0.25; invdegree := 0.5 |}).
  vm_compute. discriminate.
Defined.

(** X10: [pagerank_add] is commutative in the rank it computes, for all
    doubles, NaNs, infinities and zeros of either sign included. *)
Theorem pagerank_add_commutative (z x y : pagerank_type) :
  pagerank_add z x y = pagerank_add z y x.
Proof. unfold pagerank_add. now rewrite add_comm. Qed.

(** X11: the rank [pagerank_diff] computes is never below zero: it is a
    NaN or a double that is at least zero, so that the sum of the changes
    that the loop compares with the tolerance has no term that cancels
    another. *)
Theorem pagerank_diff_not_negative (z x y : pagerank_type) :
  gt 0 (rank (pagerank_diff z x y)) = false /\
  (is_nan (rank (pagerank_diff z x y)) = false ->
   nonneg (rank (pagerank_diff z x y)) = true).
Proof.
  cbn [pagerank_diff rank]. split; [apply square_not_negative|].
  intros Hn. unfold nonneg. apply ltb_false_leb; auto.
  apply square_not_negative.
Qed.

Lemma pagerank_diff_not_negative_witness :
  nonneg (rank (pagerank_diff pagerank_zero
                  {| rank := 0.25; invdegree := 0.5 |}
                  {| rank := 0.5; invdegree := 0.5 |})) = true.
Proof.
  apply (proj2 (pagerank_diff_not_negative pagerank_zero
                  {| rank := 0.25; invdegree := 0.5 |}
                  {| rank := 0.5; invdegree := 0.5 |})).
  reflexivity.
Defined.

Lemma binary_round_opp s m e :
  binary_round prec emax (negb s) m e = SFopp (binary_round prec emax s m e).
Proof.
  unfold binary_round. destruct (shl_align _ _ _) as [mz ez].
  unfold binary_round_aux.
  destruct (shr_fexp _ _ _ _ _) as [mrs' e'].
  destruct (shr_fexp _ _ _ _ _) as [mrs'' e''].
  destruct (shr_m mrs''); try reflexivity.
  destruct (_ <=? _)%Z; reflexivity.
Qed.

(** Swapping the operands of a subtraction changes the sign of the
    result at most. *)
Lemma SF64sub_swap a b :
  SF64sub b a = SF64sub a b \/ SF64sub b a = SFopp (SF64sub a b).
Proof.
  unfold SF64sub, SFsub.
  destruct a as [[]|[]| |sx mx ex], b as [[]|[]| |sy my ey]; simpl; auto;
    try (right; now rewrite negb_involutive).
  rewrite (Z.min_comm ey ex).
  set (A := cond_Zopp sx _). set (B := cond_Zopp sy _).
  replace (B - A) with (- (A - B)) by lia.
  destruct (A - B) as [|p|p]; simpl; auto; right.
  - apply (binary_round_opp false).
  - rewrite (binary_round_opp true).
    now destruct (binary_round _ _ _ _ _) as [[]|[]| |[] ? ?].
Qed.

Lemma SF64mul_opp_opp a : SF64mul (SFopp a) (SFopp a) = SF64mul a a.
Proof. now destruct a as [[]|[]| |[] m e]. Qed.

(** X12: the rank [pagerank_diff] computes is the same whichever of the
    two vectors comes first, which the loop relies on when it swaps [r]
    and [rnew] after each pass. *)
Theorem pagerank_diff_symmetric (z x y : pagerank_type) :
  pagerank_diff z x y = pagerank_diff z y x.
Proof.
  unfold pagerank_diff. cbn zeta. f_equal.
  apply Prim2SF_inj. rewrite !mul_spec, !sub_spec.
  destruct (SF64sub_swap (Prim2SF (rank x)) (Prim2SF (rank y))) as [->| ->];
    [reflexivity|]. now rewrite SF64mul_opp_opp.
Qed.

(** *** Properties of the iteration *)

Section IterationProperties.

Variable GrB_Vector : Type.
Variable GrB_vxm : GrB_Vector -> GrB_Vector -> GrB_Info + GrB_Vector.
Variable GrB_eWiseAdd_Vector_BinaryOp :
  GrB_Vector -> GrB_Vector -> GrB_Vector -> GrB_Info + GrB_Vector.
Variable GrB_Vector_reduce_UDT : GrB_Vector -> GrB_Info + pagerank_type.

Local Abbreviation loop0 :=
  (loop GrB_Vector GrB_vxm GrB_eWiseAdd_Vector_BinaryOp GrB_Vector_reduce_UDT).
Local Abbreviation iteration0 :=
  (iteration GrB_Vector GrB_vxm GrB_eWiseAdd_Vector_BinaryOp GrB_Vector_reduce_UDT).

(** More fuel does not change what the loop returns. *)
Lemma loop_fuel fuel : forall fuel' itermax tol i d v res,
  (fuel <= fuel')%nat ->
  loop0 fuel itermax tol i d v = Some res ->
  loop0 fuel' itermax tol i d v = Some res.
Proof.
  induction fuel as [|fuel IH]; intros fuel' itermax tol i d v res Hle;
    destruct fuel' as [|fuel']; try lia; cbn [loop];
    destruct ((i <? itermax) && gt d tol); auto; try discriminate.
  destruct (pass _ _ _ _ v) as [info|[v' d']]; auto.
  apply IH. lia.
Qed.

(** The loop ends within [itermax - *iters] turns. *)
Lemma loop_spec fuel : forall itermax tol i d v,
  (Z.to_nat (itermax - i) <= fuel)%nat ->
  exists res,
    loop0 fuel itermax tol i d v = Some res /\
    exit_of GrB_Vector itermax tol i d v res.
Proof.
  induction fuel as [|fuel IH]; intros itermax tol i d v Hfuel; cbn [loop];
    destruct (Z.ltb_spec i itermax) as [Hi|Hi]; cbn [andb];
    try (eexists; split; [reflexivity|]; cbn [exit_of];
         split; [lia|]; split; [lia|]; split; [lia|]; auto).
  - lia.
  - destruct (gt d tol) eqn:Hd.
    2:{ eexists; split; [reflexivity|]. cbn [exit_of]. rewrite Hd.
        split; [lia|]. split; [auto|]. split; [intros _ Hc; discriminate Hc|]. auto. }
    destruct (pass _ _ _ _ v) as [info|[v' d']].
    + eexists; split; [reflexivity|]. cbn [exit_of]. auto.
    + destruct (IH itermax tol (i + 1) d' v') as ([info|[[i' v''] d'']] & -> & Hex);
        [lia| |]; eexists; (split; [reflexivity|]); cbn [exit_of] in *; [tauto|].
      destruct Hex as (Hr & Hexit & _ & _).
      split; [lia|]. split; [auto|]. split; lia.
Qed.

(** X13: the iteration of [dpagerank2] ends: [itermax] turns are enough,
    and more change nothing.  When no call fails it leaves a count
    [*iters] between zero and [itermax] (zero when [itermax] is below
    zero); it stops short of [itermax] only when the change is not above
    the square of the tolerance; it makes the first pass when
    [0 < itermax] and the square of the tolerance is below one; and when
    it makes no pass the vectors are the ones it was given.  A call can
    only fail when a pass is made. *)
Theorem iteration_ends_within_itermax
    (fuel : nat) (itermax : Z) (tol : double) (v : vectors GrB_Vector) :
  (Z.to_nat itermax <= fuel)%nat ->
  iteration0 fuel itermax tol v = iteration0 (Z.to_nat itermax) itermax tol v /\
  exists res,
    iteration0 fuel itermax tol v = Some res /\
    match res with
    | inl _ => 0 < itermax /\ gt 1 (tol * tol) = true
    | inr (iters, v', d) =>
        0 <= iters <= Z.max 0 itermax /\
        (iters < itermax -> gt d (tol * tol) = false) /\
        (0 < itermax -> gt 1 (tol * tol) = true -> 1 <= iters) /\
        (iters = 0 -> v' = v)
    end.
Proof.
  intros Hfuel. unfold iteration.
  destruct (loop_spec (Z.to_nat itermax) itermax (tol * tol) 0 1 v)
    as (res & Hrun & Hex); [lia|].
  rewrite Hrun, (loop_fuel _ _ _ _ _ _ _ _ Hfuel Hrun).
  split; [reflexivity|]. exists res. split; [reflexivity|].
  destruct res as [info|[[i' v'] d']]; cbn [exit_of] in Hex; [exact Hex|].
  destruct Hex as (Hr & Hexit & Hfirst & Hnone).
  repeat split; auto; try lia. intros ->. now apply Hnone.
Qed.

End IterationProperties.

Lemma iteration_ends_within_itermax_witness :
  example_iteration 10 0.25
  = Some (inr (2, {| r := 0.25%float; rnew := 0.5%float; rdiff := 0.25%float |},
               0.0625%float)) /\
  exists res,
    example_iteration 10 0.25 = Some res /\
    match res with
    | inl _ => 0 < 10 /\ gt 1 (0.25 * 0.25) = true
    | inr (iters, v', d) =>
        0 <= iters <= Z.max 0 10 /\
        (iters < 10 -> gt d (0.25 * 0.25) = false) /\
        (0 < 10 -> gt 1 (0.25 * 0.25) = true -> 1 <= iters) /\
        (iters = 0 -> v' = {| r := 1%float; rnew := 1%float; rdiff := 0%float |})
    end.
Proof.
  split; [vm_compute; reflexivity|].
  refine (proj2 (iteration_ends_within_itermax double
            (fun rnew r => inr (r / 2)%float)
            (fun rdiff r rnew => inr (r - rnew)%float)
            (fun rdiff => inr {| rank := (rdiff * rdiff)%float; invdegree := 0%float |})
            (Z.to_nat 10) 10 0.25%float
            {| r := 1%float; rnew := 1%float; rdiff := 0%float |} _)).
  lia.
Defined.

(** *** Properties of the comparison function and of the failures *)

(** A NaN has no order with any double. *)
Lemma is_nan_Prim2SF (x : double) : is_nan x = true -> Prim2SF x = S754_nan.
Proof.
  unfold is_nan. rewrite eqb_spec. unfold SFeqb.
  destruct (Prim2SF x) as [s|s| |s m e]; simpl; try (destruct s; discriminate);
    [reflexivity|].
  destruct s; rewrite Z.compare_refl, Pos.compare_cont_refl; discriminate.
Qed.

Lemma pagerank_compar_nan (a b : PageRank) :
  is_nan (pagerank a) = true \/ is_nan (pagerank b) = true ->
  pagerank_compar a b = 1.
Proof.
  unfold pagerank_compar, gt, eq. rewrite ltb_spec, eqb_spec.
  unfold SFltb, SFeqb.
  intros [H|H]; apply is_nan_Prim2SF in H; rewrite H; clear H;
    destruct (Prim2SF _) as [s|s| |s m e]; reflexivity.
Qed.

Lemma pagerank_compar_antisym (a b : PageRank) :
  is_nan (pagerank a) = false -> is_nan (pagerank b) = false ->
  pagerank_compar b a = - pagerank_compar a b.
Proof.
  intros Ha Hb. unfold pagerank_compar, gt, eq.
  rewrite !ltb_spec, !eqb_spec. unfold SFltb, SFeqb.
  rewrite (SFcompare_swap (Prim2SF (pagerank a)) (Prim2SF (pagerank b))).
  destruct (compare_defined _ _ Ha Hb) as [[] ->]; reflexivity.
Qed.

(** X14: [pagerank_compar] returns the opposite when its arguments are
    swapped as long as neither pagerank is a NaN, and 1 both ways as soon
    as one is; so that it is a comparison function as [qsort] asks for
    one, total and transitive on the array, exactly on the arrays that
    hold no NaN. *)
Theorem pagerank_compar_consistent_iff_no_nan (l : list PageRank) :
  (forall a b, is_nan (pagerank a) = false -> is_nan (pagerank b) = false ->
     pagerank_compar b a = - pagerank_compar a b) /\
  (forall a b, is_nan (pagerank a) = true \/ is_nan (pagerank b) = true ->
     pagerank_compar a b = 1 /\ pagerank_compar b a = 1) /\
  (consistent pagerank_compar l <->
   Forall (fun e => is_nan (pagerank e) = false) l).
Proof.
  split; [exact pagerank_compar_antisym|].
  split; [intros a b H; split; apply pagerank_compar_nan; tauto|].
  split; [|apply pagerank_compar_consistent].
  intros [Htot _]. apply Forall_forall. intros e He.
  destruct (is_nan (pagerank e)) eqn:Hn; [|reflexivity].
  assert (H1 := pagerank_compar_nan e e (or_introl Hn)).
  destruct (Htot e e He He); lia.
Qed.

Lemma pagerank_compar_consistent_iff_no_nan_witness :
  let a := {| pagerank := 0.5; page := 1 |} in
  let b := {| pagerank := nan; page := 2 |} in
  pagerank_compar a b = 1 /\ pagerank_compar b a = 1.
Proof.
  apply (proj1 (proj2 (pagerank_compar_consistent_iff_no_nan []))
           {| pagerank := 0.5; page := 1 |} {| pagerank := nan; page := 2 |}).
  right. reflexivity.
Defined.

(** X15: [dpagerank2] always returns, as long as the library extracts as
    many indices as values and at most [n] of them, and [qsort]
    rearranges.  It hands out an array only together with [GrB_SUCCESS],
    and then one of [n] entries, every allocation and library call having
    succeeded; without an array, the code it returns is the one of the
    library call that failed, or [GrB_OUT_OF_MEMORY] when it was an
    allocation. *)
Theorem dpagerank2_array_only_on_success
    (GrB_Matrix GrB_Vector : Type)
    (ranks : GrB_Matrix -> Z -> double -> Z -> GrB_Info + (Z * Z * GrB_Vector))
    (GrB_Vector_extractTuples_FP64 :
       Z -> GrB_Vector -> GrB_Info + (list Z * list double))
    (malloc_X malloc_I malloc_P : Z -> bool)
    (uninitialized : PageRank) (to_page : Z -> Z)
    (qsort : (PageRank -> PageRank -> Z) -> list PageRank -> list PageRank)
    (A : GrB_Matrix) (itermax : Z) (tol : double) (method : Z) :
  (forall n v I_ X, GrB_Vector_extractTuples_FP64 n v = inr (I_, X) ->
     length I_ = length X /\ (length X <= Z.to_nat n)%nat) ->
  (forall compar l, qsort compar l ≡ₚ l) ->
  exists info P iters,
    dpagerank2 GrB_Matrix GrB_Vector ranks GrB_Vector_extractTuples_FP64
      malloc_X malloc_I malloc_P uninitialized to_page qsort
      A itermax tol method = Some (info, P, iters) /\
    (forall l, P = Some l ->
       info = GrB_SUCCESS /\
       exists n it v I_ X,
         ranks A itermax tol method = inr (n, it, v) /\
         malloc_I n = true /\ malloc_X n = true /\ malloc_P n = true /\
         GrB_Vector_extractTuples_FP64 n v = inr (I_, X) /\
         length l = Z.to_nat n /\ iters = Some it) /\
    (P = None ->
       ranks A itermax tol method = inl info \/
       exists n it v,
         ranks A itermax tol method = inr (n, it, v) /\
         (malloc_I n && malloc_X n = false /\ info = GrB_OUT_OF_MEMORY \/
          GrB_Vector_extractTuples_FP64 n v = inl info \/
          malloc_P n = false /\ info = GrB_OUT_OF_MEMORY)).
Proof.
  intros Hext Hqsort. unfold dpagerank2.
  destruct (ranks A itermax tol method) as [info|[[n it] v]] eqn:Hranks.
  { exists info, None, None. split; [reflexivity|].
    split; [discriminate|]. auto. }
  destruct (malloc_I n && malloc_X n) eqn:HIX; cbn [negb].
  2:{ exists GrB_OUT_OF_MEMORY, None, (Some it). split; [reflexivity|].
      split; [discriminate|].
      intros _. right. exists n, it, v. auto. }
  apply andb_true_iff in HIX as [HmI HmX].
  destruct (GrB_Vector_extractTuples_FP64 n v) as [info|[I_ X]] eqn:Hx.
  { exists info, None, (Some it). split; [reflexivity|].
    split; [discriminate|].
    intros _. right. exists n, it, v. auto. }
  destruct (malloc_P n) eqn:HmP; cbn [negb].
  2:{ exists GrB_OUT_OF_MEMORY, None, (Some it). split; [reflexivity|].
      split; [discriminate|].
      intros _. right. exists n, it, v. auto. }
  destruct (Hext n v I_ X Hx) as [HI Hn].
  destruct (loops_fill uninitialized to_page (Z.to_nat n) I_ X HI Hn)
    as (P1 & -> & HP2).
  cbn [mbind option_bind]. rewrite HP2. cbn [mbind option_bind].
  eexists GrB_SUCCESS, (Some _), (Some it). split; [reflexivity|].
  split; [|discriminate].
  intros l [= <-]. split; [reflexivity|].
  exists n, it, v, I_, X. repeat split; auto.
  unfold qsort_prefix. rewrite length_app, Hqsort, length_take, length_drop.
  rewrite length_app, length_zip_with, length_replicate. lia.
Qed.

Lemma dpagerank2_array_only_on_success_witness :
  exists info P iters,
    example_dpagerank2 = Some (info, P, iters) /\
    (forall l, P = Some l -> info = GrB_SUCCESS /\ length l = 5%nat).
Proof.
  destruct (dpagerank2_array_only_on_success
              unit (list (Z * double)) example_ranks example_extractTuples
              (fun _ => true) (fun _ => true) (fun _ => true)
              {| pagerank := nan; page := 0 |} (fun i => i mod 2 ^ 64)
              insertion_sort tt 100 0.0009765625%float 0)
    as (info & P & iters & Hrun & Hsome & _).
  - intros n v I_ X. unfold example_extractTuples.
    destruct (Z.leb_spec (Z.of_nat (length v)) n); [|discriminate].
    intros [= <- <-]. rewrite !length_fmap. split; [reflexivity|lia].
  - intros compar l. apply insertion_sort_perm.
  - exists info, P, iters. split; [exact Hrun|].
    intros l Hl. destruct (Hsome l Hl) as (-> & n & it & v & I_ & X & Hr & H).
    split; [reflexivity|].
    injection Hr as <- _ _. tauto.
Defined.

(** The array of the sentinels is in order. *)
Lemma unranked_sorted (to_page : Z -> Z) (k : nat) :
  StronglySorted descending (replicate k (unranked to_page)).
Proof.
  induction k as [|k IH]; simpl; constructor; [exact IH|].
  apply Forall_forall. intros b Hb. apply elem_of_replicate in Hb as [-> _].
  reflexivity.
Qed.

(** The pageranks of the tuples are the values extracted. *)
Lemma tuples_pagerank (to_page : Z -> Z) (P : double -> Prop) (X : list double) :
  forall I_ : list Z, length I_ = length X ->
  (Forall (fun e => P (pagerank e))
     (zip_with (fun x i => {| pagerank := x; page := to_page i |}) X I_)
   <-> Forall P X).
Proof.
  induction X as [|x X IH]; intros [|i I_] Hlen; try discriminate; simpl.
  - split; constructor.
  - rewrite !Forall_cons, IH by (simpl in Hlen; lia). reflexivity.
Qed.

(** X16: when the library calls and the allocations succeed, on [nvals]
    extracted tuples, [nvals <= n], none of whose ranks is a NaN, the
    first [nvals] entries of the array [dpagerank2] returns are in
    descending order of pagerank; and the array as a whole is, the
    entries of the unranked nodes included, exactly when every node has
    a rank or no rank is below zero. *)
Theorem dpagerank2_sorted_iff_no_rank_below_unranked
    (GrB_Matrix GrB_Vector : Type)
    (ranks : GrB_Matrix -> Z -> double -> Z -> GrB_Info + (Z * Z * GrB_Vector))
    (GrB_Vector_extractTuples_FP64 :
       Z -> GrB_Vector -> GrB_Info + (list Z * list double))
    (malloc_X malloc_I malloc_P : Z -> bool)
    (uninitialized : PageRank) (to_page : Z -> Z)
    (qsort : (PageRank -> PageRank -> Z) -> list PageRank -> list PageRank)
    (A : GrB_Matrix) (itermax : Z) (tol : double) (method : Z)
    (n iters : Z) (rdouble : GrB_Vector) (I_ : list Z) (X : list double) :
  qsort_contract qsort ->
  ranks A itermax tol method = inr (n, iters, rdouble) ->
  malloc_I n = true -> malloc_X n = true -> malloc_P n = true ->
  GrB_Vector_extractTuples_FP64 n rdouble = inr (I_, X) ->
  length I_ = length X -> (length X <= Z.to_nat n)%nat ->
  Forall (fun x => is_nan x = false) X ->
  exists P,
    dpagerank2 GrB_Matrix GrB_Vector ranks GrB_Vector_extractTuples_FP64
      malloc_X malloc_I malloc_P uninitialized to_page qsort
      A itermax tol method
    = Some (GrB_SUCCESS, Some P, Some iters) /\
    StronglySorted descending (take (length X) P) /\
    (StronglySorted descending P <->
     length X = Z.to_nat n \/ Forall (fun x => nonneg x = true) X).
Proof.
  intros Hqsort Hranks HmI HmX HmP Hext HI Hn Hnan.
  set (entry := fun x i => {| pagerank := x; page := to_page i |}).
  set (tuples := zip_with entry X I_).
  destruct (Hqsort pagerank_compar tuples) as [Hperm Hsorted].
  assert (Hlenq : length (qsort pagerank_compar tuples) = length X).
  { rewrite Hperm. unfold tuples. rewrite length_zip_with. lia. }
  assert (HQ : StronglySorted descending (qsort pagerank_compar tuples)).
  { apply StronglySorted_weaken with (fun a b => pagerank_compar a b <= 0).
    { intros a b. apply pagerank_compar_descending. }
    apply Hsorted, pagerank_compar_consistent.
    now apply (tuples_pagerank to_page (fun x => is_nan x = false)). }
  exists (qsort pagerank_compar tuples
            ++ replicate (Z.to_nat n - length X) (unranked to_page)).
  split; [|split].
  - unfold dpagerank2. rewrite Hranks, HmI, HmX, Hext, HmP. cbn [negb andb].
    destruct (loops_fill uninitialized to_page (Z.to_nat n) I_ X HI Hn)
      as (P1 & -> & HP2).
    cbn [mbind option_bind]. rewrite HP2. cbn [mbind option_bind].
    unfold qsort_prefix. fold entry. fold tuples.
    replace (length X) with (length tuples)
      by (unfold tuples; rewrite length_zip_with; lia).
    now rewrite take_app_length, drop_app_length.
  - rewrite <- Hlenq at 1. now rewrite take_app_length.
  - rewrite StronglySorted_app. split.
    + intros (Hcross & _ & _).
      destruct (decide (length X = Z.to_nat n)) as [|Hne]; [now left|right].
      apply (tuples_pagerank to_page (fun x => nonneg x = true) X I_ HI).
      fold entry. fold tuples. apply Forall_forall. intros e He.
      rewrite <- Hperm in He. apply (Hcross e (unranked to_page) He).
      apply elem_of_replicate. split; [reflexivity|lia].
    + intros Hor. split; [|split; [exact HQ|apply unranked_sorted]].
      intros a b Ha Hb. apply elem_of_replicate in Hb as [-> Hk].
      destruct Hor as [Hfull|Hpos]; [lia|].
      apply (tuples_pagerank to_page (fun x => nonneg x = true) X I_ HI) in Hpos.
      rewrite Hperm in Ha. rewrite Forall_forall in Hpos. exact (Hpos a Ha).
Qed.

Lemma dpagerank2_sorted_iff_no_rank_below_unranked_witness :
  exists P,
    example_dpagerank2 = Some (GrB_SUCCESS, Some P, Some 3) /\
    StronglySorted descending (take 3 P) /\
    (StronglySorted descending P <->
     3%nat = Z.to_nat 5 \/
     Forall (fun x => nonneg x = true) [0.25%float; 0.5%float; 0.25%float]).
Proof.
  refine (dpagerank2_sorted_iff_no_rank_below_unranked
            unit (list (Z * double)) example_ranks example_extractTuples
            (fun _ => true) (fun _ => true) (fun _ => true)
            {| pagerank := nan; page := 0 |} (fun i => i mod 2 ^ 64) insertion_sort
            tt 100 0.0009765625%float 0 5 3 example_rdouble
            [0; 1; 3] [0.25%float; 0.5%float; 0.25%float]
            insertion_sort_contract eq_refl eq_refl eq_refl eq_refl eq_refl
            eq_refl _ _).
  - simpl. lia.
  - repeat constructor.
Defined.

End PageRankDemo.


(** ** Test/GB_mex_AxB.c, continued: the early exits and the clean-up *)
Module MexAxBPaths.
Import MexAxB.
Local Open Scope string_scope.
Local Open Scope list_scope.
Local Open Scope Z_scope.

(** The number of calls of a kind in a trace. *)
Definition calls (kind : event -> bool) (tr : list event) : nat :=
  length (List.filter kind tr).

(** The kinds of calls counted below. *)
Definition is_Monoid_free (e : event) : bool :=
  match e with GrB_Monoid_free => true | _ => false end.
Definition is_Semiring_free (e : event) : bool :=
  match e with GrB_Semiring_free => true | _ => false end.
Definition is_AxB_meta (e : event) : bool :=
  match e with GB_AxB_meta _ _ _ _ _ => true | _ => false end.
Definition is_Matrix_free (name : string) (e : event) : bool :=
  match e with GrB_Matrix_free n => String.eqb n name | _ => false end.
Definition is_free (e : event) : bool :=
  match e with
  | GB_MATRIX_FREE _ | GrB_Matrix_free _ | GrB_Monoid_free | GrB_Semiring_free
  | GB_mx_put_global => true
  | _ => false
  end.

(** [info == GrB_SUCCESS]. *)
Definition succeeded (info : GrB_Info) : bool :=
  match info with GrB_SUCCESS => true | _ => false end.

(** The trace when the operands have been read. *)
Definition operands_read : list event :=
  [GB_mx_get_global; GB_mx_mxArray_to_Matrix "A"; GB_mx_mxArray_to_Matrix "B"].

(** The methods that the comment of the harness lists beyond the four it
    accepts: 1004 hash, 1005 saxpy. *)
Definition GxB_AxB_HASH : Z := 1004.
Definition GxB_AxB_SAXPY : Z := 1005.

(** [C = GB_mex_AxB (A, B, false, false, 1004)] on operands whose
    dimensions agree. *)
Definition example_call_hash : arguments :=
  {| nargout := 1; nargin := 5;
     pargin0 := Some example_A; pargin1 := Some example_Bt;
     pargin2 := false; pargin3 := true; pargin4 := GxB_AxB_HASH |}.

(** Return codes to evaluate with: the library runs out of memory when the
    semiring is created, or when the conjugate of [B] is filled in. *)
Definition example_no_semiring (e : event) : GrB_Info :=
  match e with GrB_Semiring_new => GrB_OUT_OF_MEMORY | _ => GrB_SUCCESS end.
Definition example_no_Bconj (e : event) : GrB_Info :=
  match e with
  | GrB_Matrix_apply_conj "Bconj" => GrB_OUT_OF_MEMORY
  | _ => GrB_SUCCESS
  end.

(** *** Properties *)

Section PathsProperties.

Variable GB_NROWS : GrB_Matrix -> Z.
Variable GB_NCOLS : GrB_Matrix -> Z.
Variable info_of : event -> GrB_Info.
Variable product : GrB_Matrix -> GrB_Matrix -> bool -> bool -> Z -> option GrB_Matrix.
Variable conj_of : GrB_Matrix -> GrB_Matrix.
Variable METHOD :
  (list event -> GrB_Info * option GrB_Matrix * list event) ->
  list event -> (string + option GrB_Matrix) * list event.
Variable complex_available : bool.

Local Abbreviation mexFunction0 :=
  (mexFunction GB_NROWS GB_NCOLS info_of product conj_of METHOD complex_available).

(** X17: the checks that come before the dimensions.  Wrong argument
    counts end in the usage message before anything is read; an operand
    that could not be read ends in "failed" after [FREE_ALL]; an operand
    that is not held by column, and a method other than the default,
    Gustavson, heap and dot (so also 1004 and 1005, which the comment of
    the harness lists), end in their message right after the operands
    were read: nothing is freed, [GB_mx_put_global] is not called, and no
    call that takes part in the multiplication is made. *)
Theorem checks_before_dimensions (a : arguments) :
  ((nargout a > 1 \/ nargin a < 2 \/ nargin a > 5) ->
   mexFunction0 a =
   (mexErrMsgTxt "Usage: C = GB_mex_AxB (A, B, atranspose, btranspose, axb_method)",
    [GB_mx_get_global])) /\
  (nargout a <= 1 -> 2 <= nargin a <= 5 ->
   ((pargin0 a = None \/ pargin1 a = None) ->
    mexFunction0 a = (mexErrMsgTxt "failed", operands_read ++ FREE_ALL)) /\
   (forall A B, pargin0 a = Some A -> pargin1 a = Some B ->
      ((is_csc A = false \/ is_csc B = false) ->
       mexFunction0 a = (mexErrMsgTxt "A and B must be in CSC format", operands_read)) /\
      (is_csc A = true -> is_csc B = true ->
       ~ In (GET_SCALAR a 4 (pargin4 a) GxB_DEFAULT)
            [GxB_DEFAULT; GxB_AxB_GUSTAVSON; GxB_AxB_HEAP; GxB_AxB_DOT] ->
       mexFunction0 a = (mexErrMsgTxt "unknown method", operands_read)))) /\
  calls is_free operands_read = 0%nat /\
  calls is_computation operands_read = 0%nat.
Proof.
  split; [|split; [|split; reflexivity]].
  - intros H. unfold mexFunction.
    assert (H1 : (nargout a >? 1) || (nargin a <? 2) || (nargin a >? 5) = true).
    { rewrite !orb_true_iff, !Z.gtb_lt, Z.ltb_lt. lia. }
    now rewrite H1.
  - intros Hout Hin.
    assert (H1 : (nargout a >? 1) || (nargin a <? 2) || (nargin a >? 5) = false).
    { rewrite !orb_false_iff. repeat split; lia. }
    unfold mexFunction. rewrite H1. split.
    + intros [H|H]; rewrite H; [reflexivity|]. now destruct (pargin0 a).
    + intros A B -> ->. split.
      * intros [H|H]; rewrite H; [reflexivity|]. now rewrite orb_true_r.
      * intros -> -> Hm. cbn [negb orb].
        destruct (negb _) eqn:Hn; [reflexivity|]. exfalso. apply Hm.
        apply negb_false_iff in Hn. rewrite !orb_true_iff, !Z.eqb_eq in Hn.
        destruct Hn as [[[Hn|Hn]|Hn]|Hn]; rewrite Hn; cbn [In]; auto 6.
Qed.

Local Abbreviation axb0 := (axb info_of product).
Local Abbreviation axb_complex0 := (axb_complex info_of product conj_of).

(** X18: [axb] frees the monoid exactly when it created it and the
    semiring exactly when it created it, whatever the library returns;
    it calls [GB_AxB_meta] once, between the creations and the frees,
    when both were created, and not at all otherwise; and it returns the
    code of the first call that failed, with no product, or the code and
    the product of [GB_AxB_meta]. *)
Theorem axb_frees_what_it_creates
    (A B : GrB_Matrix) (atranspose btranspose : bool) (AxB_method : Z)
    (tr : list event) :
  let monoid := succeeded (info_of GrB_Monoid_new_FP64) in
  let semiring := monoid && succeeded (info_of GrB_Semiring_new) in
  let call := GB_AxB_meta A B atranspose btranspose AxB_method in
  exists new,
    (axb0 A B atranspose btranspose AxB_method tr).2 = tr ++ new /\
    calls is_Monoid_free new = (if monoid then 1 else 0)%nat /\
    calls is_Semiring_free new = (if semiring then 1 else 0)%nat /\
    calls is_AxB_meta new = (if semiring then 1 else 0)%nat /\
    (axb0 A B atranspose btranspose AxB_method tr).1 =
      (if semiring
       then (info_of call, product A B atranspose btranspose AxB_method)
       else if monoid then (info_of GrB_Semiring_new, None)
       else (info_of GrB_Monoid_new_FP64, None)) /\
    (semiring = true ->
     new = [GrB_Monoid_new_FP64; GrB_Semiring_new; call;
            GrB_Monoid_free; GrB_Semiring_free]).
Proof.
  intros monoid semiring call. subst monoid semiring call. unfold axb.
  destruct (info_of GrB_Monoid_new_FP64) eqn:Hm; cbn [succeeded andb];
    try (exists [GrB_Monoid_new_FP64]; repeat split; discriminate).
  destruct (info_of GrB_Semiring_new) eqn:Hs; cbn [succeeded];
    rewrite <- !app_assoc; eexists; (split; [reflexivity|]);
    repeat split; discriminate.
Qed.

(** X19: [axb_complex] frees each conjugate that it created, on every
    path; it calls [GB_AxB_meta] at most once, right after a [GrB_wait]
    that succeeded, on the conjugate of each operand that is transposed
    and on the other operands as they are, and frees both conjugates
    after it. *)
Theorem axb_complex_frees_its_conjugates
    (A B : GrB_Matrix) (atranspose btranspose : bool) (AxB_method : Z)
    (tr : list event) :
  let new_A := GrB_Matrix_new "Aconj" (vlen A) (vdim A) in
  let new_B := GrB_Matrix_new "Bconj" (vlen B) (vdim B) in
  let conj_A := negb atranspose ||
                succeeded (info_of new_A) &&
                succeeded (info_of (GrB_Matrix_apply_conj "Aconj")) in
  let conj_B := negb btranspose ||
                succeeded (info_of new_B) &&
                succeeded (info_of (GrB_Matrix_apply_conj "Bconj")) in
  let multiplies := conj_A && conj_B && succeeded (info_of GrB_wait) in
  let call := GB_AxB_meta (if atranspose then conj_of A else A)
                          (if btranspose then conj_of B else B)
                          atranspose btranspose AxB_method in
  exists new,
    (axb_complex0 A B atranspose btranspose AxB_method tr).2 = tr ++ new /\
    (atranspose = true -> succeeded (info_of new_A) = true ->
     calls (is_Matrix_free "Aconj") new = 1%nat) /\
    (conj_A = true -> btranspose = true -> succeeded (info_of new_B) = true ->
     calls (is_Matrix_free "Bconj") new = 1%nat) /\
    calls is_AxB_meta new = (if multiplies then 1 else 0)%nat /\
    (multiplies = true ->
     exists before,
       new = before ++ [GrB_wait; call;
                        GrB_Matrix_free "Bconj"; GrB_Matrix_free "Aconj"] /\
       calls is_free before = 0%nat /\
       (axb_complex0 A B atranspose btranspose AxB_method tr).1 =
         (info_of call,
          product (if atranspose then conj_of A else A)
                  (if btranspose then conj_of B else B)
                  atranspose btranspose AxB_method)) /\
    (multiplies = false ->
     (axb_complex0 A B atranspose btranspose AxB_method tr).1.2 = None /\
     succeeded (axb_complex0 A B atranspose btranspose AxB_method tr).1.1 = false).
Proof.
  cbv zeta. unfold axb_complex.
  destruct atranspose, btranspose; cbn [negb orb andb from_option id];
    repeat match goal with
           | |- context [match info_of ?e with _ => _ end] =>
               let E := fresh "E" in destruct (info_of e) eqn:E;
               cbn [succeeded andb orb from_option id]
           end;
    rewrite <- ?app_assoc; cbn [app fst snd];
    (eexists; split; [reflexivity|]);
    repeat split; try discriminate; try reflexivity;
    intros _;
    first [ exists []; repeat split; reflexivity
          | eexists [_; _]; repeat split; reflexivity
          | eexists [_; _; _; _]; repeat split; reflexivity ].
Qed.

End PathsProperties.

(** *** The paths on concrete arguments *)

Lemma checks_before_dimensions_witness :
  mexFunction nrows_of ncols_of (fun _ => GrB_SUCCESS) example_product
    (fun M => M) run_once true example_call_hash
  = (mexErrMsgTxt "unknown method", operands_read).
Proof.
  destruct (checks_before_dimensions nrows_of ncols_of (fun _ => GrB_SUCCESS)
              example_product (fun M => M) run_once true example_call_hash)
    as (_ & H & _).
  destruct H as [_ H]; [simpl; lia..|].
  destruct (H example_A example_Bt eq_refl eq_refl) as [_ Hm].
  apply Hm; [reflexivity..|]. vm_compute. intuition discriminate.
Defined.

Lemma axb_frees_what_it_creates_witness :
  exists new,
    (axb example_no_semiring example_product example_A example_Bt
       false true 0 operands_read).2 = operands_read ++ new /\
    calls is_Monoid_free new = 1%nat /\
    calls is_Semiring_free new = 0%nat /\
    calls is_AxB_meta new = 0%nat /\
    (axb example_no_semiring example_product example_A example_Bt
       false true 0 operands_read).1 = (GrB_OUT_OF_MEMORY, None).
Proof.
  destruct (axb_frees_what_it_creates example_no_semiring example_product
              example_A example_Bt false true 0 operands_read)
    as (new & H1 & H2 & H3 & H4 & H5 & _).
  exists new. auto.
Defined.

Lemma axb_complex_frees_its_conjugates_witness :
  exists new,
    (axb_complex example_no_Bconj example_product (fun M => M)
       example_A example_Bt true true 0 operands_read).2 = operands_read ++ new /\
    calls (is_Matrix_free "Aconj") new = 1%nat /\
    calls (is_Matrix_free "Bconj") new = 1%nat /\
    calls is_AxB_meta new = 0%nat.
Proof.
  destruct (axb_complex_frees_its_conjugates example_no_Bconj example_product
              (fun M => M) example_A example_Bt true true 0 operands_read)
    as (new & H1 & H2 & H3 & H4 & _).
  exists new. split; [exact H1|]. split; [now apply H2|].
  split; [now apply H3|exact H4].
Defined.

End MexAxBPaths.

(** ** Test/GB_mex_mxm_alias.c: [C<C> = accum (C, C*C)] *)
Module MexAlias.
Local Open Scope string_scope.
Local Open Scope list_scope.
Local Open Scope Z_scope.

(** A matrix as far as the harness looks into it: whether [C->type ==
    Complex], and [C->AxB_method_used]. *)
Record GrB_Matrix := {
  type_is_Complex : bool;
  AxB_method_used : Z
}.

(** The variable [semiring]: [NULL], the semiring [Complex_plus_times] that
    the test library shares, or a semiring of its own, with its monoid
    [semiring->add]. *)
Inductive GrB_Semiring :=
  | semiring_NULL
  | Complex_plus_times
  | semiring_with (add : N).

Definition GxB_DEFAULT : Z := 0.

(** The calls the harness makes into the library and into MATLAB's. *)
Inductive event :=
  | GB_mx_get_global
  | GB_mx_mxArray_to_Matrix
  | GB_mx_mxArray_to_Semiring (user_complex : bool)
  | GB_mx_mxArray_to_BinaryOp (user_complex : bool)
  | GB_mx_mxArray_to_Descriptor
  | GrB_mxm (C Mask : GrB_Matrix) (accum : option N) (semiring : GrB_Semiring)
            (A B : GrB_Matrix) (desc : option N)
  | GB_mx_Matrix_to_mxArray
  | GB_MATRIX_FREE
  | GrB_Monoid_free (add : N)
  | GrB_Semiring_free (semiring : GrB_Semiring)
  | GrB_Descriptor_free
  | GB_mx_put_global (AxB_method_used : Z).

Inductive outcome :=
  | mexErrMsgTxt (msg : string)
  | returned (C : option GrB_Matrix).

(** The arguments of [mexFunction]: the counts, the matrix that
    [GB_mx_mxArray_to_Matrix] makes of [pargin [0]] ([None] for [NULL]),
    and for each of the three conversions whether it succeeds and what it
    leaves in the variable it is given. *)
Record arguments := {
  nargout : Z;
  nargin : Z;
  pargin0 : option GrB_Matrix;
  pargin1 : bool * option N;
  pargin2 : bool * GrB_Semiring;
  pargin3 : bool * option N
}.

(** [FREE_ALL], for the values of [semiring] and [AxB_method_used]. *)
Definition FREE_ALL (semiring : GrB_Semiring) (used : Z) : list event :=
  [GB_MATRIX_FREE]
  ++ match semiring with
     | Complex_plus_times => []
     | semiring_NULL => [GrB_Semiring_free semiring_NULL]
     | semiring_with add => [GrB_Monoid_free add; GrB_Semiring_free semiring]
     end
  ++ [GrB_Descriptor_free; GB_mx_put_global used].

Section Harness.

(** Whether [Complex] is the built-in [GxB_FC64] type. *)
Variable Complex_is_GxB_FC64 : bool.

(** [METHOD (operation)] of GB_mex.h runs the operation and, when it
    fails, frees everything and raises the error; it is given the call and
    the trace and returns either the message it raises or the matrix [C]
    after the call, with the trace it leaves. *)
Variable METHOD :
  event -> list event -> (string + option GrB_Matrix) * list event.

(** The trace up to the conversion of the descriptor. *)
Definition conversions (C : GrB_Matrix) : list event :=
  let user_complex := negb Complex_is_GxB_FC64 && type_is_Complex C in
  [GB_mx_get_global; GB_mx_mxArray_to_Matrix;
   GB_mx_mxArray_to_Semiring user_complex; GB_mx_mxArray_to_BinaryOp user_complex;
   GB_mx_mxArray_to_Descriptor].

Definition mexFunction (a : arguments) : outcome * list event :=
  let tr := [GB_mx_get_global] in
  let used := GxB_DEFAULT in
  (* check inputs *)
  if (nargout a >? 1) || (nargin a <? 3) || (nargin a >? 4) then
    (mexErrMsgTxt "Usage: C = GB_mex_mxm_alias (C, accum, semiring, desc)", tr)
  else
  (* get C (make a deep copy) *)
  let tr := tr ++ [GB_mx_mxArray_to_Matrix] in
  match pargin0 a with
  | None => (mexErrMsgTxt "C failed", tr ++ FREE_ALL semiring_NULL used)
  | Some C =>
      let user_complex := negb Complex_is_GxB_FC64 && type_is_Complex C in
      (* get semiring *)
      let tr := tr ++ [GB_mx_mxArray_to_Semiring user_complex] in
      let (ok, semiring) := pargin2 a in
      if negb ok then
        (mexErrMsgTxt "semiring failed", tr ++ FREE_ALL semiring used)
      else
      (* get accum, if present *)
      let tr := tr ++ [GB_mx_mxArray_to_BinaryOp user_complex] in
      let (ok, accum) := pargin1 a in
      if negb ok then
        (mexErrMsgTxt "accum failed", tr ++ FREE_ALL semiring used)
      else
      (* get desc *)
      let tr := tr ++ [GB_mx_mxArray_to_Descriptor] in
      let (ok, desc) := pargin3 a in
      if negb ok then
        (mexErrMsgTxt "desc failed", tr ++ FREE_ALL semiring used)
      else
      (* C<C> = accum(C,C*C) *)
      match METHOD (GrB_mxm C C accum semiring C C desc) tr with
      | (inl msg, tr) => (mexErrMsgTxt msg, tr)
      | (inr C', tr) =>
          let used := match C' with
                      | Some C' => AxB_method_used C'
                      | None => used
                      end in
          (returned C', tr ++ [GB_mx_Matrix_to_mxArray] ++ FREE_ALL semiring used)
      end
  end.

End Harness.

(** The number of calls of a kind in a trace. *)
Definition calls (kind : event -> bool) (tr : list event) : nat :=
  length (List.filter kind tr).

Definition is_Monoid_free (e : event) : bool :=
  match e with GrB_Monoid_free _ => true | _ => false end.
Definition is_Semiring_free (e : event) : bool :=
  match e with GrB_Semiring_free _ => true | _ => false end.
Definition is_mxm (e : event) : bool :=
  match e with GrB_mxm _ _ _ _ _ _ _ => true | _ => false end.

(** The value of [semiring] when the harness ends: [NULL] as long as
    [C] was not read. *)
Definition semiring_at_exit (a : arguments) : GrB_Semiring :=
  match pargin0 a with
  | None => semiring_NULL
  | Some _ => (pargin2 a).2
  end.

(** A [METHOD] that runs the call once: the product keeps the type of [C]
    and records the method [m]. *)
Definition run_once (m : Z) (call : event) (tr : list event)
  : (string + option GrB_Matrix) * list event :=
  match call with
  | GrB_mxm C _ _ _ _ _ _ =>
      (inr (Some {| type_is_Complex := type_is_Complex C; AxB_method_used := m |}),
       tr ++ [call])
  | _ => (inl "GraphBLAS error", tr)
  end.

(** [C = GB_mex_mxm_alias (C, accum, semiring, desc)] on a complex [C]
    with the shared semiring, and on a real [C] with a semiring of the
    harness's own. *)
Definition example_call_complex : arguments :=
  {| nargout := 1; nargin := 4;
     pargin0 := Some {| type_is_Complex := true; AxB_method_used := 0 |};
     pargin1 := (true, None); pargin2 := (true, Complex_plus_times);
     pargin3 := (true, Some 1%N) |}.

Definition example_call_real : arguments :=
  {| nargout := 1; nargin := 3;
     pargin0 := Some {| type_is_Complex := false; AxB_method_used := 0 |};
     pargin1 := (true, Some 2%N); pargin2 := (true, semiring_with 7);
     pargin3 := (true, None) |}.

(** *** Properties *)

(** What [FREE_ALL] frees of the semiring. *)
Lemma FREE_ALL_semiring semiring used :
  calls is_Monoid_free (FREE_ALL semiring used) =
    match semiring with semiring_with _ => 1 | _ => 0 end%nat /\
  calls is_Semiring_free (FREE_ALL semiring used) =
    match semiring with Complex_plus_times => 0 | _ => 1 end%nat /\
  (forall s, In (GrB_Semiring_free s) (FREE_ALL semiring used) -> s = semiring) /\
  (forall add, In (GrB_Monoid_free add) (FREE_ALL semiring used) ->
     semiring = semiring_with add) /\
  last (FREE_ALL semiring used) = Some (GB_mx_put_global used).
Proof.
  destruct semiring; repeat split; cbn; intros;
    repeat match goal with
           | H : _ \/ _ |- _ => destruct H
           | H : False |- _ => destruct H
           end; congruence.
Qed.

(** X20: how the alias harness ends.  Wrong argument counts end in the
    usage message with nothing read and nothing freed.  Otherwise, unless
    [METHOD] itself raises the error of a failed [GrB_mxm], the harness
    ends with [FREE_ALL], whose last call is [GB_mx_put_global]: that
    [FREE_ALL] frees the monoid and the semiring of a semiring of the
    harness's own, once each and no other; it never frees
    [Complex_plus_times] nor a monoid of it; and before [C] could be read
    it frees no monoid.  [GrB_mxm] is only reached when [C] and the three
    conversions succeeded, and is handed the one matrix [C] as output,
    mask and both operands. *)
Theorem mxm_alias_ends_with_FREE_ALL
    (Complex_is_GxB_FC64 : bool)
    (METHOD : event -> list event -> (string + option GrB_Matrix) * list event)
    (a : arguments) :
  let r := mexFunction Complex_is_GxB_FC64 METHOD a in
  let semiring := semiring_at_exit a in
  ((nargout a > 1 \/ nargin a < 3 \/ nargin a > 4) ->
   r = (mexErrMsgTxt "Usage: C = GB_mex_mxm_alias (C, accum, semiring, desc)",
        [GB_mx_get_global])) /\
  (nargout a <= 1 -> 3 <= nargin a <= 4 ->
   (exists C msg,
      pargin0 a = Some C /\ (pargin1 a).1 = true /\ (pargin2 a).1 = true /\
      (pargin3 a).1 = true /\
      METHOD (GrB_mxm C C (pargin1 a).2 semiring C C (pargin3 a).2)
             (conversions Complex_is_GxB_FC64 C) = (inl msg, r.2) /\
      r.1 = mexErrMsgTxt msg) \/
   (exists before used,
      r.2 = before ++ FREE_ALL semiring used /\
      (pargin0 a = None \/ (pargin1 a).1 = false \/ (pargin2 a).1 = false \/
       (pargin3 a).1 = false ->
       calls is_mxm before = 0%nat /\ used = GxB_DEFAULT /\
       exists msg, r.1 = mexErrMsgTxt msg) /\
      (forall C, pargin0 a = Some C -> (pargin1 a).1 = true ->
         (pargin2 a).1 = true -> (pargin3 a).1 = true ->
         exists C',
           METHOD (GrB_mxm C C (pargin1 a).2 semiring C C (pargin3 a).2)
                  (conversions Complex_is_GxB_FC64 C)
             = (inr C', removelast before) /\
           last before = Some GB_mx_Matrix_to_mxArray /\
           r.1 = returned C' /\
           used = match C' with
                  | Some C' => AxB_method_used C'
                  | None => GxB_DEFAULT
                  end))) /\
  (forall used,
     calls is_Monoid_free (FREE_ALL semiring used) =
       match semiring with semiring_with _ => 1 | _ => 0 end%nat /\
     calls is_Semiring_free (FREE_ALL semiring used) =
       match semiring with Complex_plus_times => 0 | _ => 1 end%nat /\
     (forall s, In (GrB_Semiring_free s) (FREE_ALL semiring used) -> s = semiring) /\
     (forall add, In (GrB_Monoid_free add) (FREE_ALL semiring used) ->
        semiring = semiring_with add) /\
     last (FREE_ALL semiring used) = Some (GB_mx_put_global used)) /\
  (pargin0 a = None -> semiring = semiring_NULL).
Proof.
  cbv zeta. split; [|split; [|split; [intros; apply FREE_ALL_semiring|]]];
    unfold mexFunction, semiring_at_exit, conversions.
  3:{ now intros ->. }
  - intros H.
    assert (H1 : (nargout a >? 1) || (nargin a <? 3) || (nargin a >? 4) = true).
    { rewrite !orb_true_iff, !Z.gtb_lt, Z.ltb_lt. lia. }
    now rewrite H1.
  - intros Hout Hin.
    assert (H1 : (nargout a >? 1) || (nargin a <? 3) || (nargin a >? 4) = false).
    { rewrite !orb_false_iff. repeat split; lia. }
    rewrite H1.
    destruct (pargin0 a) as [C|]; cbn [app].
    2:{ right. exists [GB_mx_get_global; GB_mx_mxArray_to_Matrix], GxB_DEFAULT.
        split; [reflexivity|]. split; [eauto|]. discriminate. }
    destruct (pargin2 a) as [[] semiring]; cbn [negb fst snd].
    2:{ right. eexists [_; _; _], GxB_DEFAULT.
        split; [reflexivity|]. split; [eauto|]. discriminate. }
    destruct (pargin1 a) as [[] accum]; cbn [negb fst snd].
    2:{ right. eexists [_; _; _; _], GxB_DEFAULT.
        split; [reflexivity|]. split; [eauto|]. discriminate. }
    destruct (pargin3 a) as [[] desc]; cbn [negb fst snd].
    2:{ right. eexists [_; _; _; _; _], GxB_DEFAULT.
        split; [reflexivity|]. split; [eauto|]. discriminate. }
    destruct (METHOD _ _) as [[msg|C'] tr] eqn:HM.
    + left. exists C, msg. cbn [fst snd]. repeat split; auto.
    + right. exists (tr ++ [GB_mx_Matrix_to_mxArray]). eexists.
      split; [cbn [fst snd]; rewrite <- app_assoc; reflexivity|].
      split; [intros [H|[H|[H|H]]]; discriminate H|].
      intros C0 [= <-] _ _ _. exists C'.
      rewrite removelast_last, last_snoc. auto.
Qed.

Lemma mxm_alias_ends_with_FREE_ALL_witness :
  (mexFunction true (run_once 1001) example_call_complex).2
    = conversions true {| type_is_Complex := true; AxB_method_used := 0 |}
      ++ [GrB_mxm {| type_is_Complex := true; AxB_method_used := 0 |}
                  {| type_is_Complex := true; AxB_method_used := 0 |}
                  None Complex_plus_times
                  {| type_is_Complex := true; AxB_method_used := 0 |}
                  {| type_is_Complex := true; AxB_method_used := 0 |}
                  (Some 1%N);
          GB_mx_Matrix_to_mxArray]
      ++ FREE_ALL Complex_plus_times 1001 /\
  calls is_Semiring_free (mexFunction true (run_once 1001) example_call_complex).2
    = 0%nat /\
  calls is_Monoid_free (mexFunction false (run_once 1003) example_call_real).2
    = 1%nat.
Proof.
  destruct (mxm_alias_ends_with_FREE_ALL true (run_once 1001) example_call_complex)
    as (_ & H & _).
  destruct H as [(C & msg & _ & _ & _ & _ & HM & _)|(before & used & Htr & _ & _)];
    [simpl; lia.. | discriminate HM |].
  repeat split; reflexivity.
Defined.

End MexAlias.
